(** * TopologicalCompression: bit-packed segmentation and persistence index

    A shallow embedding of
    [core/base/topologicalCompression/TopologicalCompression.cpp]:
    the integer logarithm [log2], the segmentation bit packer
    [WriteCompactSegmentation] and unpacker [ReadCompactSegmentation],
    the persistence index codec [WritePersistenceIndex] /
    [ReadPersistenceIndex], and the input guard of [CompressWithZFP].

    Conventions.
    - A C++ [int] is a [Z] in [-2^31, 2^31); an [unsigned int] is a [Z] in
      [0, 2^32).  A result that can leave the range of its type is
      wrapped by [sint32] or [uint32]: sums, increments, left shifts and
      every expression that mixes [int] and [unsigned int].  The
      differences [32 - offset] and [32 - maskerRank - 1] of [int]s
      between 0 and 32 are written as they are.
    - A [double] is a [spec_float]; only its comparison [<] is used.
    - A [FILE*] is the sequence of values still to be read (for the
      readers) or written so far (for the writers).
    - A function that can fail to return a value (short stream, vector
      index past the end, loop that never ends) returns in [res]. *)

From Stdlib Require Import String.
From Stdlib Require Import ZArith List Lia Bool.
From Stdlib Require Import Permutation Sorted SpecFloat.
Import ListNotations.
Local Open Scope Z_scope.

(* ================================================================== *)
(** ** Machine integers *)

Definition sint32 (z : Z) : Z := (z + 2147483648) mod 4294967296 - 2147483648.

Definition uint32 (z : Z) : Z := z mod 4294967296.

Definition UINT_MAX : Z := 4294967295.

Definition in_int (z : Z) : Prop := -2147483648 <= z <= 2147483647.

(** [x << k] on [int]: the bits shifted past bit 31 are dropped. *)
Definition shl (x k : Z) : Z := sint32 (Z.shiftl x k).

(** [x >> k] on [int]. *)
Definition shr (x k : Z) : Z := Z.shiftr x k.

(* ================================================================== *)
(** ** Results and the byte stream *)

Inductive failure : Type :=
| IOError       (* fewer bytes than requested are available *)
| OutOfBounds   (* std::vector::operator[] past the end *)
| Diverges.     (* the loop does not end within the fuel given *)

Inductive res (A : Type) : Type :=
| Ok (a : A)
| Err (e : failure).

Arguments Ok {A} a.
Arguments Err {A} e.

Definition bind {A B : Type} (m : res A) (f : A -> res B) : res B :=
  match m with
  | Ok a => f a
  | Err e => Err e
  end.

Notation "'do' x <- m ; f" := (bind m (fun x => f))
  (at level 10, x pattern, m at level 100, f at level 200).

Definition double : Type := spec_float.

Inductive item : Type :=
| I32 (v : Z)
| F64 (v : double).

Definition stream : Type := list item.

(** Modelled from the spec: [Read<int>] is declared in
    TopologicalCompression.h, which is not part of the sources.  The spec
    (4.1): [read<T>] consumes exactly [sizeof(T)] bytes and returns the
    value, and fails with [IOError] if fewer bytes are available.  The
    model also fails when the value at the cursor is not an [int]. *)
Definition Read_int (fm : stream) : res (Z * stream) :=
  match fm with
  | I32 v :: fm' => Ok (v, fm')
  | _ => Err IOError
  end.

(** Modelled from the spec: [Read<double>], declared in the same header;
    as [Read_int], for a [double]. *)
Definition Read_double (fm : stream) : res (double * stream) :=
  match fm with
  | F64 v :: fm' => Ok (v, fm')
  | _ => Err IOError
  end.

(** Modelled from the spec: [Write] of an [int], declared in the same
    header.  The spec (4.1): [write] appends the fixed-size binary
    representation of the value to the stream. *)
Definition Write_int (fm : stream) (v : Z) : stream := fm ++ [I32 v].

(** Modelled from the spec: [Write] of a [double], declared in the same
    header; as [Write_int]. *)
Definition Write_double (fm : stream) (v : double) : stream := fm ++ [F64 v].

(** [v[i]] on a [std::vector]. *)
Definition vec_at {A : Type} (v : list A) (i : Z) : res A :=
  if i <? 0 then Err OutOfBounds
  else match nth_error v (Z.to_nat i) with
       | Some x => Ok x
       | None => Err OutOfBounds
       end.

(* ================================================================== *)
(** ** log2 and the bit width *)

(** [while(val > 1) { val >>= 1; ret++; }] for [val >= 1], by recursion on
    the binary representation of [val]: [val >> 1] of [p~0] and of [p~1]
    is [p], and [val > 1] fails exactly at [xH]. *)
Fixpoint log2_loop (val : positive) (ret : Z) : Z :=
  match val with
  | xH => ret
  | xO p | xI p => log2_loop p (uint32 (ret + 1))
  end.

Definition log2 (val : Z) : Z :=
  if val =? 0 then UINT_MAX
  else if val =? 1 then 0
  else match val with
       | Zpos p => log2_loop p 0
       | _ => 0
       end.

(** [unsigned int numberOfBitsPerSegment = log2(numberOfSegments) + 1;] *)
Definition numberOfBitsPerSegment (numberOfSegments : Z) : Z :=
  uint32 (log2 numberOfSegments + 1).

(* ================================================================== *)
(** ** WriteCompactSegmentation *)

(** Every terminating run of an inner loop makes at most 32 turns. *)
Definition inner_fuel : nat := 33.

(** Every terminating run of the encoder's outer loop makes at most
    [32 * numberOfVertices] turns. *)
Definition outer_fuel (numberOfVertices : Z) : nat :=
  S (Z.to_nat (32 * numberOfVertices)).

(** The loop [while(offset + numberOfBitsPerSegment <= 32)] of the
    encoder; [w] is [numberOfBitsPerSegment].  Returns
    [(currentCell, offset, maskerRank, compressedInt)]. *)
Fixpoint write_inner (fuel : nat) (segmentation : list Z) (w : Z)
    (currentCell offset maskerRank compressedInt : Z)
    : res (Z * Z * Z * Z) :=
  if uint32 (offset + w) <=? 32 then
    match fuel with
    | O => Err Diverges
    | S fuel' =>
      do currentSegment <- vec_at segmentation currentCell ;
      if negb (maskerRank =? 0) then
        let currentSegment := shr currentSegment (uint32 (w - offset)) in
        write_inner fuel' segmentation w (sint32 (currentCell + 1))
          offset 0 (Z.lor compressedInt currentSegment)
      else
        let cursor := shl currentSegment offset in
        write_inner fuel' segmentation w (sint32 (currentCell + 1))
          (sint32 (offset + w)) maskerRank (Z.lor compressedInt cursor)
    end
  else Ok (currentCell, offset, maskerRank, compressedInt).

(** The loop [while(currentCell < numberOfVertices)] of the encoder.
    Returns the words passed to [Write], in order, and the byte
    counter. *)
Fixpoint write_outer (fuel : nat) (segmentation : list Z)
    (numberOfVertices w : Z)
    (currentCell offset maskerRank numberOfBytesWritten : Z)
    : res (list Z * Z) :=
  if currentCell <? numberOfVertices then
    match fuel with
    | O => Err Diverges
    | S fuel' =>
      do (currentCell, offset, maskerRank, compressedInt) <-
        write_inner inner_fuel segmentation w currentCell offset maskerRank 0 ;
      if currentCell >=? numberOfVertices then
        Ok ([compressedInt], sint32 (numberOfBytesWritten + 4))
      else
        do currentSegment <- vec_at segmentation currentCell ;
        let '(compressedInt, maskerRank, offset) :=
          if offset =? 32 then (compressedInt, maskerRank, offset)
          else (Z.lor compressedInt (shl currentSegment offset),
                32 - offset,
                sint32 (offset + w)) in
        let offset := Z.rem offset 32 in
        do (words, n) <-
          write_outer fuel' segmentation numberOfVertices w
            currentCell offset maskerRank (sint32 (numberOfBytesWritten + 4)) ;
        Ok (compressedInt :: words, n)
    end
  else Ok ([], numberOfBytesWritten).

(** The body of [WriteCompactSegmentation] once the width is known.  The
    file after the call is the file before it followed by the words
    written ([Write_words] below). *)
Definition write_body (w : Z) (fm : stream) (segmentation : list Z)
    (numberOfVertices : Z) : res (Z * stream) :=
  if w >? 32 then Ok (-3, fm)
  else
    do (words, n) <-
      write_outer (outer_fuel numberOfVertices) segmentation
        numberOfVertices w 0 0 0 0 ;
    Ok (n, fm ++ map I32 words).

(** Returns the value returned and the file after the call. *)
Definition WriteCompactSegmentation (fm : stream) (segmentation : list Z)
    (numberOfVertices numberOfSegments : Z) : res (Z * stream) :=
  write_body (numberOfBitsPerSegment numberOfSegments)
    fm segmentation numberOfVertices.

(* ================================================================== *)
(** ** ReadCompactSegmentation *)

(** The pattern
    [if(x < 0) { x &= 2147483647; x >>= s; x |= (1 << t); } else x >>= s;]
    which occurs three times in the decoder. *)
Definition shr_masked (x s t : Z) : Z :=
  if x <? 0 then Z.lor (shr (Z.land x 2147483647) s) (shl 1 t)
  else shr x s.

(** The loop [while(offset + numberOfBitsPerSegment <= 32)] of the
    decoder.  Returns
    [(offset, maskerRank, oldCompressedInt, currentCell, segmentation)]. *)
Fixpoint read_inner (fuel : nat) (w compressedInt : Z)
    (offset maskerRank oldCompressedInt currentCell : Z)
    (segmentation : list Z)
    : res (Z * Z * Z * Z * list Z) :=
  if uint32 (offset + w) <=? 32 then
    match fuel with
    | O => Err Diverges
    | S fuel' =>
      if maskerRank =? 0 then
        let currentSegment := shl compressedInt (uint32 (32 - offset - w)) in
        let currentSegment :=
          shr_masked currentSegment (uint32 (32 - w)) (uint32 (w - 1)) in
        read_inner fuel' w compressedInt
          (sint32 (offset + w)) maskerRank oldCompressedInt
          (sint32 (currentCell + 1)) (segmentation ++ [currentSegment])
      else
        let currentSegment := shl compressedInt (32 - offset) in
        let currentSegment :=
          shr_masked currentSegment (uint32 (32 - w)) (uint32 (w - 1)) in
        let nextSegment := currentSegment in
        let oldCompressedInt :=
          shr_masked oldCompressedInt maskerRank (32 - maskerRank - 1) in
        let currentSegment := Z.lor nextSegment oldCompressedInt in
        read_inner fuel' w compressedInt
          offset 0 oldCompressedInt
          (sint32 (currentCell + 1)) (segmentation ++ [currentSegment])
    end
  else Ok (offset, maskerRank, oldCompressedInt, currentCell, segmentation).

(** The loop [while(currentCell < numberOfVertices)] of the decoder, by
    recursion on the stream: every turn starts with
    [compressedInt = Read<int>(fm)], written here as a match on [fm].
    Returns the byte counter, the rest of the stream and the vector. *)
Fixpoint read_outer (fm : stream) (numberOfVertices w : Z)
    (offset maskerRank oldCompressedInt currentCell : Z)
    (segmentation : list Z) (numberOfBytesRead : Z)
    : res (Z * stream * list Z) :=
  if currentCell <? numberOfVertices then
    match fm with
    | I32 compressedInt :: fm' =>
      let numberOfBytesRead := sint32 (numberOfBytesRead + 4) in
      do (offset, maskerRank, oldCompressedInt, currentCell, segmentation) <-
        read_inner inner_fuel w compressedInt
          offset maskerRank oldCompressedInt currentCell segmentation ;
      let oldCompressedInt := compressedInt in
      let '(maskerRank, offset) :=
        if offset =? 32 then (0, offset)
        else (offset, sint32 (offset + w)) in
      let offset := Z.rem offset 32 in
      read_outer fm' numberOfVertices w
        offset maskerRank oldCompressedInt currentCell
        segmentation numberOfBytesRead
    | _ => Err IOError
    end
  else Ok (numberOfBytesRead, fm, segmentation).

(** What a call leaves behind: the value returned, the stream after the
    call, and the reference parameters. *)
Record segmentation_read : Type := {
  sr_return : Z;
  sr_stream : stream;
  sr_segmentation : list Z;
  sr_numberOfVertices : Z;
  sr_numberOfSegments : Z
}.

(** The body of [ReadCompactSegmentation] once the two header fields are
    read and the width is known.  [kamikaze] tells whether the build
    defines TTK_ENABLE_KAMIKAZE, which compiles the width-0 check out. *)
Definition read_body (kamikaze : bool) (w : Z) (fm : stream)
    (segmentation : list Z) (numberOfVertices numberOfSegments : Z)
    (numberOfBytesRead : Z) : res segmentation_read :=
  if negb kamikaze && (w =? 0) then
    Ok {| sr_return := -2; sr_stream := fm;
          sr_segmentation := segmentation;
          sr_numberOfVertices := numberOfVertices;
          sr_numberOfSegments := numberOfSegments |}
  else if w >? 32 then
    Ok {| sr_return := -3; sr_stream := fm;
          sr_segmentation := segmentation;
          sr_numberOfVertices := numberOfVertices;
          sr_numberOfSegments := numberOfSegments |}
  else
    do (n, fm, segmentation) <-
      read_outer fm numberOfVertices w 0 0 0 0 segmentation
        numberOfBytesRead ;
    Ok {| sr_return := n; sr_stream := fm;
          sr_segmentation := segmentation;
          sr_numberOfVertices := numberOfVertices;
          sr_numberOfSegments := numberOfSegments |}.

Definition ReadCompactSegmentation (kamikaze : bool) (fm : stream)
    (segmentation : list Z) : res segmentation_read :=
  let numberOfBytesRead := 0 in
  let numberOfBytesRead := sint32 (numberOfBytesRead + 4) in
  do (numberOfVertices, fm) <- Read_int fm ;
  let numberOfBytesRead := sint32 (numberOfBytesRead + 4) in
  do (numberOfSegments, fm) <- Read_int fm ;
  read_body kamikaze (numberOfBitsPerSegment numberOfSegments) fm
    segmentation numberOfVertices numberOfSegments numberOfBytesRead.

(* ================================================================== *)
(** ** The persistence index *)

(** [std::tuple<double, int>]: a value and the vertex it belongs to. *)
Definition mapping_entry : Type := (double * Z)%type.

(** [std::tuple<int, double, int>]: vertex, value, vertex type. *)
Definition constraint_entry : Type := (Z * double * Z)%type.

(** Modelled from the spec: the comparator [cmp] is declared in
    TopologicalCompression.h, which is not part of the sources.  The spec
    (4.3): one view of the mapping is ordered by vertexId ascending. *)
Definition cmp (a b : mapping_entry) : bool := snd a <? snd b.

(** Modelled from the spec: the comparator [cmp2], declared in the same
    header.  The spec (4.3): the other view is ordered by value
    ascending. *)
Definition cmp2 (a b : mapping_entry) : bool := SFltb (fst a) (fst b).

Record index_read : Type := {
  ir_return : Z;
  ir_stream : stream;
  ir_mappings : list mapping_entry;
  ir_mappingsSortedPerValue : list mapping_entry;
  ir_constraints : list constraint_entry;
  ir_min : double;
  ir_max : double;
  ir_nbConstraints : Z
}.

(** [for(int i = 0; i < mappingSize; ++i)] of the reader, [n] turns to
    go. *)
Fixpoint read_mapping (n : nat) (fm : stream)
    (mappings mappingsSortedPerValue : list mapping_entry)
    (numberOfBytesRead : Z)
    : res (stream * list mapping_entry * list mapping_entry * Z) :=
  match n with
  | O => Ok (fm, mappings, mappingsSortedPerValue, numberOfBytesRead)
  | S n' =>
    let numberOfBytesRead := sint32 (numberOfBytesRead + 4) in
    do (idv, fm) <- Read_int fm ;
    let numberOfBytesRead := sint32 (numberOfBytesRead + 8) in
    do (value, fm) <- Read_double fm ;
    read_mapping n' fm
      (mappings ++ [(value, idv)])
      (mappingsSortedPerValue ++ [(value, idv)])
      numberOfBytesRead
  end.

(** [for(int i = 0; i < nbConstraints; ++i)] of the reader, [n] turns to
    go, [i] the loop counter. *)
Fixpoint read_constraints (n : nat) (i : Z) (fm : stream)
    (constraints : list constraint_entry) (min max : double)
    (numberOfBytesRead : Z)
    : res (stream * list constraint_entry * double * double * Z) :=
  match n with
  | O => Ok (fm, constraints, min, max, numberOfBytesRead)
  | S n' =>
    let numberOfBytesRead := sint32 (numberOfBytesRead + 4) in
    do (idVertex, fm) <- Read_int fm ;
    let numberOfBytesRead := sint32 (numberOfBytesRead + 8) in
    do (value, fm) <- Read_double fm ;
    let numberOfBytesRead := sint32 (numberOfBytesRead + 4) in
    do (vertexType, fm) <- Read_int fm ;
    let '(min, max) := if i =? 0 then (value, value) else (min, max) in
    let min := if SFltb value min then value else min in
    let max := if SFltb max value then value else max in
    read_constraints n' (i + 1) fm
      (constraints ++ [(idVertex, value, vertexType)]) min max
      numberOfBytesRead
  end.

Section Sorting.

(** [std::sort] of the C++ library, on vectors of mapping entries. *)
Variable std_sort :
  (mapping_entry -> mapping_entry -> bool) ->
  list mapping_entry -> list mapping_entry.

(** The vectors and [min], [max] are reference parameters: the call
    starts from what the caller passes in. *)
Definition ReadPersistenceIndex (fm : stream)
    (mappings mappingsSortedPerValue : list mapping_entry)
    (constraints : list constraint_entry) (min max : double)
    : res index_read :=
  let numberOfBytesRead := 0 in
  let numberOfBytesRead := sint32 (numberOfBytesRead + 4) in
  do (mappingSize, fm) <- Read_int fm ;
  do (fm, mappings, mappingsSortedPerValue, numberOfBytesRead) <-
    read_mapping (Z.to_nat mappingSize) fm
      mappings mappingsSortedPerValue numberOfBytesRead ;
  let mappings := std_sort cmp mappings in
  let mappingsSortedPerValue := std_sort cmp2 mappingsSortedPerValue in
  let numberOfBytesRead := sint32 (numberOfBytesRead + 4) in
  do (nbConstraints, fm) <- Read_int fm ;
  do (fm, constraints, min, max, numberOfBytesRead) <-
    read_constraints (Z.to_nat nbConstraints) 0 fm
      constraints min max numberOfBytesRead ;
  Ok {| ir_return := numberOfBytesRead;
        ir_stream := fm;
        ir_mappings := mappings;
        ir_mappingsSortedPerValue := mappingsSortedPerValue;
        ir_constraints := constraints;
        ir_min := min;
        ir_max := max;
        ir_nbConstraints := nbConstraints |}.

End Sorting.

(** [for(int i = 0; i < mappingSize; ++i)] of the writer. *)
Fixpoint write_mapping (n : nat) (i : Z) (fm : stream)
    (mapping : list mapping_entry) (numberOfBytesWritten : Z)
    : res (stream * Z) :=
  match n with
  | O => Ok (fm, numberOfBytesWritten)
  | S n' =>
    do t <- vec_at mapping i ;
    let idv := snd t in
    let numberOfBytesWritten := sint32 (numberOfBytesWritten + 4) in
    let fm := Write_int fm idv in
    let value := fst t in
    let numberOfBytesWritten := sint32 (numberOfBytesWritten + 8) in
    let fm := Write_double fm value in
    write_mapping n' (i + 1) fm mapping numberOfBytesWritten
  end.

(** [for(int i = 0; i < nbConstraints; ++i)] of the writer. *)
Fixpoint write_constraints (n : nat) (i : Z) (fm : stream)
    (constraints : list constraint_entry) (numberOfBytesWritten : Z)
    : res (stream * Z) :=
  match n with
  | O => Ok (fm, numberOfBytesWritten)
  | S n' =>
    do t <- vec_at constraints i ;
    let '(idVertex, value, vertexType) := t in
    let numberOfBytesWritten := sint32 (numberOfBytesWritten + 4) in
    let fm := Write_int fm idVertex in
    let numberOfBytesWritten := sint32 (numberOfBytesWritten + 8) in
    let fm := Write_double fm value in
    let numberOfBytesWritten := sint32 (numberOfBytesWritten + 4) in
    let fm := Write_int fm vertexType in
    write_constraints n' (i + 1) fm constraints numberOfBytesWritten
  end.

Definition WritePersistenceIndex (fm : stream)
    (mapping : list mapping_entry) (constraints : list constraint_entry)
    : res (Z * stream) :=
  let numberOfBytesWritten := 0 in
  let mappingSize := sint32 (Z.of_nat (length mapping)) in
  let numberOfBytesWritten := sint32 (numberOfBytesWritten + 4) in
  let fm := Write_int fm mappingSize in
  do (fm, numberOfBytesWritten) <-
    write_mapping (Z.to_nat mappingSize) 0 fm mapping numberOfBytesWritten ;
  let nbConstraints := sint32 (Z.of_nat (length constraints)) in
  let numberOfBytesWritten := sint32 (numberOfBytesWritten + 4) in
  let fm := Write_int fm nbConstraints in
  do (fm, numberOfBytesWritten) <-
    write_constraints (Z.to_nat nbConstraints) 0 fm constraints
      numberOfBytesWritten ;
  Ok (numberOfBytesWritten, fm).

(* ================================================================== *)
(** ** CompressWithZFP *)

Inductive zfp_field : Type :=
| zfp_field_2d (n1 n2 : Z)
| zfp_field_3d (nx ny nz : Z).

Section ZFP.

(** The file of the transform backend, and what a call leaves behind:
    the value returned, the file, the array and the messages passed to
    [printErr]. *)
Variable File : Type.

Record zfp_outcome : Type := {
  zfp_return : Z;
  zfp_file : File;
  zfp_array : list double;
  zfp_errors : list string
}.

(** Everything [CompressWithZFP] does from [zfp_stream_open] on is the
    work of the zfp library and of [fread]/[fwrite] on the file. *)
Variable zfp_transfer :
  File -> bool -> list double -> zfp_field -> double -> zfp_outcome.

Definition CompressWithZFP (file : File) (decompress : bool)
    (array : list double) (nx ny nz : Z) (zfpTolerance : double)
    : zfp_outcome :=
  let is2D := (nx =? 1) || (ny =? 1) || (nz =? 1) in
  if is2D && ((sint32 (nx + ny) =? 2) || (sint32 (ny + nz) =? 2)
              || (sint32 (nx + nz) =? 2))
  then
    {| zfp_return := 0; zfp_file := file; zfp_array := array;
       zfp_errors := ["One-dimensional arrays not supported."%string] |}
  else
    let n1 := if is2D then (if negb (nx =? 1) then nx else ny) else 0 in
    let n2 := if is2D
              then (if negb (nx =? 1) && negb (ny =? 1) then ny else nz)
              else 0 in
    let field := if is2D then zfp_field_2d n1 n2
                 else zfp_field_3d nx ny nz in
    zfp_transfer file decompress array field zfpTolerance.

End ZFP.

(* ================================================================== *)
(** ** Vocabulary of the statements *)

(** The word [W] holds the [n] low bits of [v] from bit [o] on. *)
Definition carries (W o v n : Z) : Prop :=
  forall i, 0 <= i < n -> Z.testbit W (o + i) = Z.testbit v i.

(** The bits [o .. 31] of the word [W] are clear. *)
Definition zero_from (W o : Z) : Prop :=
  forall i, o <= i < 32 -> Z.testbit W i = false.

(** The two words agree on the bits below [o]. *)
Definition agree_below (o W W' : Z) : Prop :=
  forall i, 0 <= i < o -> Z.testbit W i = Z.testbit W' i.

(** The first [n] entries of the vector are values of [w] bits. *)
Definition valid_cells (segmentation : list Z) (n w : Z) : Prop :=
  forall c, 0 <= c < n ->
    exists v, nth_error segmentation (Z.to_nat c) = Some v /\ 0 <= v < 2 ^ w.

(** How the states of the encoder and of the decoder are related between
    two words, when cell [j] is the next one to finish: either nothing
    is pending, or the decoder's previous word [old] holds the low
    [32 - md] bits of cell [j] from bit [md] on and the remaining
    [o] bits go to the bottom of the next word. *)
Inductive coupled (seg : list Z) (w j o me md old : Z) : Prop :=
| coupled_aligned :
    o = 0 -> me = 0 -> md = 0 -> coupled seg w j o me md old
| coupled_carrying (v : Z) :
    1 <= md <= 31 -> me = 32 - md -> o = md + w - 32 -> 1 <= o ->
    in_int old ->
    nth_error seg (Z.to_nat j) = Some v ->
    carries old md v (32 - md) ->
    coupled seg w j o me md old.

(** [ceil(a / b)] for [b > 0]. *)
Definition ceil_div (a b : Z) : Z := (a + b - 1) / b.

(** The state of the encoder between two words when fields never have to
    be written twice: [k] words are written, they hold the cells
    before [j] and the low [m] bits of cell [j]. *)
Definition dense (w j o m k : Z) : Prop :=
  0 <= m < w /\ o = (if m =? 0 then 0 else w - m) /\ j * w + m = 32 * k.

(** Concrete inputs: scenario B of the spec ([N = 20], [S = 5]), scenario
    A ([N = 5], [S = 3]) and two cells of 24 bits ([S = 8388608]). *)
Definition scenarioB : list Z :=
  [0; 1; 2; 3; 4; 0; 1; 2; 3; 4; 0; 1; 2; 3; 4; 0; 1; 2; 3; 4].

Definition scenarioA : list Z := [0; 1; 2; 0; 1].

Definition two_wide_cells : list Z := [5; 8388607].

(** The contract of [std::sort]: the result is a permutation of the
    input, and it is sorted with respect to the comparator whenever the
    comparator is a strict weak ordering on the elements sorted.  The
    order of equivalent elements is not specified. *)
Definition strict_weak_on {A : Type} (c : A -> A -> bool) (l : list A) : Prop :=
  (forall a b, In a l -> In b l -> c a b = true -> c b a = false) /\
  (forall a b d, In a l -> In b l -> In d l ->
     c a b = false -> c b d = false -> c a d = false).

Definition sort_contract {A : Type}
    (sort : (A -> A -> bool) -> list A -> list A) : Prop :=
  forall c l,
    Permutation (sort c l) l /\
    (strict_weak_on c l ->
     StronglySorted (fun a b => c b a = false) (sort c l)).

(** A sort that meets the contract and keeps equivalent elements in
    their order. *)
Fixpoint insert_before_ties {A : Type} (c : A -> A -> bool)
    (x : A) (l : list A) : list A :=
  match l with
  | [] => [x]
  | y :: l' =>
    if c y x then y :: insert_before_ties c x l' else x :: y :: l'
  end.

Definition stable_insertion_sort {A : Type} (c : A -> A -> bool)
    (l : list A) : list A :=
  fold_right (insert_before_ties c) [] l.

(** [std::sort] as the GNU C++ library runs it (libstdc++ 12,
    bits/stl_algo.h and bits/stl_heap.h): introsort down to ranges of 16
    elements, heapsort once the depth limit is used up, and a final
    insertion sort.  Iterators are positions in the vector; the
    unguarded scans fail with [OutOfBounds] where they leave it, which
    is undefined behaviour in C++ and does not happen with a strict weak
    ordering. *)
Module libstdcxx.

Section Sort.

Context {A : Type}.
Variable comp : A -> A -> bool.

(** [*(first + i) = x], on a position of the vector. *)
Definition vec_put (v : list A) (i : Z) (x : A) : list A :=
  if (0 <=? i) && (i <? Z.of_nat (length v)) then
    firstn (Z.to_nat i) v ++ x :: skipn (S (Z.to_nat i)) v
  else v.

Definition iter_swap (v : list A) (a b : Z) : res (list A) :=
  do x <- vec_at v a ;
  do y <- vec_at v b ;
  Ok (vec_put (vec_put v a y) b x).

Definition move_median_to_first (v : list A) (result a b c : Z)
    : res (list A) :=
  do va <- vec_at v a ;
  do vb <- vec_at v b ;
  do vc <- vec_at v c ;
  if comp va vb then
    if comp vb vc then iter_swap v result b
    else if comp va vc then iter_swap v result c
    else iter_swap v result a
  else if comp va vc then iter_swap v result a
  else if comp vb vc then iter_swap v result c
  else iter_swap v result b.

(** [while (comp(first, pivot)) ++first;] *)
Fixpoint scan_up (fuel : nat) (v : list A) (first pivot : Z) : res Z :=
  do x <- vec_at v first ;
  do p <- vec_at v pivot ;
  if comp x p then
    match fuel with
    | O => Err Diverges
    | S fuel' => scan_up fuel' v (first + 1) pivot
    end
  else Ok first.

(** [while (comp(pivot, last)) --last;] *)
Fixpoint scan_down (fuel : nat) (v : list A) (pivot last : Z) : res Z :=
  do p <- vec_at v pivot ;
  do x <- vec_at v last ;
  if comp p x then
    match fuel with
    | O => Err Diverges
    | S fuel' => scan_down fuel' v pivot (last - 1)
    end
  else Ok last.

Fixpoint unguarded_partition (fuel : nat) (v : list A)
    (first last pivot : Z) : res (list A * Z) :=
  match fuel with
  | O => Err Diverges
  | S fuel' =>
    do first <- scan_up (length v) v first pivot ;
    let last := last - 1 in
    do last <- scan_down (length v) v pivot last ;
    if negb (first <? last) then Ok (v, first)
    else
      do v <- iter_swap v first last ;
      unguarded_partition fuel' v (first + 1) last pivot
  end.

Definition unguarded_partition_pivot (v : list A) (first last : Z)
    : res (list A * Z) :=
  let mid := first + Z.quot (last - first) 2 in
  do v <- move_median_to_first v first (first + 1) mid (last - 1) ;
  unguarded_partition (S (length v)) v (first + 1) last first.

(** The loop of [__push_heap]; the hole is filled when it ends. *)
Fixpoint push_heap (fuel : nat) (v : list A)
    (first holeIndex topIndex : Z) (value : A) : res (list A) :=
  let parent := Z.quot (holeIndex - 1) 2 in
  if holeIndex >? topIndex then
    do p <- vec_at v (first + parent) ;
    if comp p value then
      match fuel with
      | O => Err Diverges
      | S fuel' =>
        push_heap fuel' (vec_put v (first + holeIndex) p)
          first parent topIndex value
      end
    else Ok (vec_put v (first + holeIndex) value)
  else Ok (vec_put v (first + holeIndex) value).

(** The first loop of [__adjust_heap]; returns the vector, [holeIndex]
    and [secondChild]. *)
Fixpoint sift_down (fuel : nat) (v : list A)
    (first holeIndex secondChild len : Z) : res (list A * Z * Z) :=
  if secondChild <? Z.quot (len - 1) 2 then
    match fuel with
    | O => Err Diverges
    | S fuel' =>
      let secondChild := 2 * (secondChild + 1) in
      do r <- vec_at v (first + secondChild) ;
      do l <- vec_at v (first + (secondChild - 1)) ;
      let secondChild := if comp r l then secondChild - 1 else secondChild in
      do x <- vec_at v (first + secondChild) ;
      let v := vec_put v (first + holeIndex) x in
      sift_down fuel' v first secondChild secondChild len
    end
  else Ok (v, holeIndex, secondChild).

Definition adjust_heap (v : list A) (first holeIndex len : Z) (value : A)
    : res (list A) :=
  let topIndex := holeIndex in
  do (v, holeIndex, secondChild) <-
    sift_down (length v) v first holeIndex holeIndex len ;
  do (v, holeIndex) <-
    (if (Z.land len 1 =? 0) && (secondChild =? Z.quot (len - 2) 2) then
       let secondChild := 2 * (secondChild + 1) in
       do x <- vec_at v (first + (secondChild - 1)) ;
       Ok (vec_put v (first + holeIndex) x, secondChild - 1)
     else Ok (v, holeIndex)) ;
  push_heap (length v) v first holeIndex topIndex value.

Definition pop_heap (v : list A) (first last result : Z) : res (list A) :=
  do value <- vec_at v result ;
  do top <- vec_at v first ;
  adjust_heap (vec_put v result top) first 0 (last - first) value.

(** The loop of [__make_heap], from [parent] down to 0. *)
Fixpoint make_heap_from (fuel : nat) (v : list A) (first len parent : Z)
    : res (list A) :=
  do value <- vec_at v (first + parent) ;
  do v <- adjust_heap v first parent len value ;
  if parent =? 0 then Ok v
  else
    match fuel with
    | O => Err Diverges
    | S fuel' => make_heap_from fuel' v first len (parent - 1)
    end.

Definition make_heap (v : list A) (first last : Z) : res (list A) :=
  if last - first <? 2 then Ok v
  else
    let len := last - first in
    make_heap_from (length v) v first len (Z.quot (len - 2) 2).

Fixpoint sort_heap (fuel : nat) (v : list A) (first last : Z)
    : res (list A) :=
  if last - first >? 1 then
    match fuel with
    | O => Err Diverges
    | S fuel' =>
      let last := last - 1 in
      do v <- pop_heap v first last last ;
      sort_heap fuel' v first last
    end
  else Ok v.

(** [for (i = middle; i < last; ++i)] of [__heap_select]. *)
Fixpoint heap_select_from (fuel : nat) (v : list A)
    (first middle last i : Z) : res (list A) :=
  if i <? last then
    match fuel with
    | O => Err Diverges
    | S fuel' =>
      do x <- vec_at v i ;
      do top <- vec_at v first ;
      do v <- (if comp x top then pop_heap v first middle i else Ok v) ;
      heap_select_from fuel' v first middle last (i + 1)
    end
  else Ok v.

Definition heap_select (v : list A) (first middle last : Z)
    : res (list A) :=
  do v <- make_heap v first middle ;
  heap_select_from (length v) v first middle last middle.

Definition partial_sort (v : list A) (first middle last : Z)
    : res (list A) :=
  do v <- heap_select v first middle last ;
  sort_heap (length v) v first middle.

Definition S_threshold : Z := 16.

(** [__introsort_loop]: every turn of its loop takes one from
    [depth_limit], and goes on with [last = cut]. *)
Fixpoint introsort_loop (depth_limit : nat) (v : list A) (first last : Z)
    : res (list A) :=
  if last - first >? S_threshold then
    match depth_limit with
    | O => partial_sort v first last last
    | S depth_limit' =>
      do (v, cut) <- unguarded_partition_pivot v first last ;
      do v <- introsort_loop depth_limit' v cut last ;
      introsort_loop depth_limit' v first cut
    end
  else Ok v.

(** The loop of [__unguarded_linear_insert]. *)
Fixpoint linear_insert_loop (fuel : nat) (v : list A) (val : A)
    (last next : Z) : res (list A) :=
  do x <- vec_at v next ;
  if comp val x then
    match fuel with
    | O => Err Diverges
    | S fuel' =>
      linear_insert_loop fuel' (vec_put v last x) val next (next - 1)
    end
  else Ok (vec_put v last val).

Definition unguarded_linear_insert (v : list A) (last : Z) : res (list A) :=
  do val <- vec_at v last ;
  linear_insert_loop (length v) v val last (last - 1).

(** [move_backward(first, i, i + 1); *first = val]. *)
Definition move_backward_put (v : list A) (first i : Z) (val : A) : list A :=
  firstn (Z.to_nat first) v
    ++ val :: firstn (Z.to_nat (i - first)) (skipn (Z.to_nat first) v)
    ++ skipn (Z.to_nat (i + 1)) v.

(** [for (i = first + 1; i != last; ++i)] of [__insertion_sort], with
    [n] turns to go. *)
Fixpoint insertion_sort_from (n : nat) (v : list A) (first i : Z)
    : res (list A) :=
  match n with
  | O => Ok v
  | S n' =>
    do x <- vec_at v i ;
    do f <- vec_at v first ;
    do v <- (if comp x f then Ok (move_backward_put v first i x)
             else unguarded_linear_insert v i) ;
    insertion_sort_from n' v first (i + 1)
  end.

Definition insertion_sort (v : list A) (first last : Z) : res (list A) :=
  if first =? last then Ok v
  else insertion_sort_from (Z.to_nat (last - (first + 1))) v first (first + 1).

(** [for (i = first; i != last; ++i)] of [__unguarded_insertion_sort]. *)
Fixpoint unguarded_insertion_sort_from (n : nat) (v : list A) (i : Z)
    : res (list A) :=
  match n with
  | O => Ok v
  | S n' =>
    do v <- unguarded_linear_insert v i ;
    unguarded_insertion_sort_from n' v (i + 1)
  end.

Definition unguarded_insertion_sort (v : list A) (first last : Z)
    : res (list A) :=
  unguarded_insertion_sort_from (Z.to_nat (last - first)) v first.

Definition final_insertion_sort (v : list A) (first last : Z)
    : res (list A) :=
  if last - first >? S_threshold then
    do v <- insertion_sort v first (first + S_threshold) ;
    unguarded_insertion_sort v (first + S_threshold) last
  else insertion_sort v first last.

(** [std::sort(v.begin(), v.end(), comp)]. *)
Definition sort (v : list A) : res (list A) :=
  let first := 0 in
  let last := Z.of_nat (length v) in
  if first =? last then Ok v
  else
    do v <- introsort_loop (Z.to_nat (Z.log2 (last - first) * 2)) v
              first last ;
    final_insertion_sort v first last.

End Sort.

End libstdcxx.

(** [std::sort] of the GNU C++ library as a function on vectors; where
    a scan leaves the vector the vector is given back as it was. *)
Definition gnu_std_sort {A : Type} (comp : A -> A -> bool) (v : list A)
    : list A :=
  match libstdcxx.sort comp v with
  | Ok v' => v'
  | Err _ => v
  end.

(** The bytes of a mapping table and of a constraint list, as
    [WritePersistenceIndex] lays them out. *)
Definition encode_mapping (m : list mapping_entry) : stream :=
  flat_map (fun e => [I32 (snd e); F64 (fst e)]) m.

Definition encode_constraints (c : list constraint_entry) : stream :=
  flat_map (fun e => [I32 (fst (fst e)); F64 (snd (fst e)); I32 (snd e)]) c.

Definition constraint_value (e : constraint_entry) : double := snd (fst e).

(** One widening step of [min] and of [max]. *)
Definition min_step (min value : double) : double :=
  if SFltb value min then value else min.

Definition max_step (max value : double) : double :=
  if SFltb max value then value else max.

(** What the constraint loop makes of [min] and [max], on the values it
    reads. *)
Fixpoint widen (i : Z) (min max : double) (values : list double)
    : double * double :=
  match values with
  | [] => (min, max)
  | value :: values' =>
    let '(min, max) := if i =? 0 then (value, value) else (min, max) in
    widen (i + 1) (min_step min value) (max_step max value) values'
  end.

(** [m] is one of the values and none of them is below (above) it. *)
Definition least (m : double) (values : list double) : Prop :=
  In m values /\ forall v, In v values -> SFltb v m = false.

Definition greatest (m : double) (values : list double) : Prop :=
  In m values /\ forall v, In v values -> SFltb m v = false.

Definition not_nan (d : double) : Prop := d <> S754_nan.

(** The doubles 0.5, 1 and 2. *)
Definition d_half : double := S754_finite false 4503599627370496 (-53).
Definition d_one : double := S754_finite false 4503599627370496 (-52).
Definition d_two : double := S754_finite false 4503599627370496 (-51).
Definition d_zero : double := S754_zero false.

(** Seventeen mapping entries with the value 1, vertices 0 to 16. *)
Definition seventeen_ties : list mapping_entry :=
  map (fun id => (d_one, id)) [0; 1; 2; 3; 4; 5; 6; 7; 8; 9; 10; 11; 12; 13;
                               14; 15; 16].

(** Every [int] in the stream is an [int]. *)
Definition int_words (fm : stream) : Prop :=
  Forall (fun it => match it with I32 v => in_int v | F64 _ => True end) fm.

(** The state of the decoder between two words: nothing is pending, or
    the previous word, an [int], holds the low [32 - m] bits of the next
    value from bit [m] on and [o] bits are still to come. *)
Definition decoder_ready (w o m old : Z) : Prop :=
  0 <= o < 32 /\
  (m = 0 \/ (1 <= m <= 31 /\ o = m + w - 32 /\ 1 <= o /\ in_int old)).

(** The state of the encoder between two words, for any width: [k]
    words are written, and they have room for the cells before [j] and
    for the low [m] bits of cell [j]. *)
Definition packed (w j o m k : Z) : Prop :=
  0 <= m < w /\ o = (if m =? 0 then 0 else w - m) /\ j * w + m <= 32 * k.

(** The state of the decoder between two words when every field that
    was split fits in the next word: [k] words are read, and their bits
    are those of the [j] values pushed and of the [32 - m] low bits of
    the next one. *)
Definition decoder_dense (w j o m k : Z) : Prop :=
  (m = 0 /\ o = 0 /\ j * w = 32 * k) \/
  (1 <= m <= 31 /\ o = m + w - 32 /\ 1 <= o /\ j * w + (32 - m) = 32 * k).

(* ================================================================== *)
(** * Proofs *)

Ltac zsolve := Z.to_euclidean_division_equations; lia.

(** ** Machine integers, bit by bit *)

Lemma sint32_range (z : Z) : in_int (sint32 z).
Proof. unfold in_int, sint32. zsolve. Qed.

Lemma sint32_small (z : Z) : in_int z -> sint32 z = z.
Proof. unfold in_int, sint32. zsolve. Qed.

Lemma uint32_small (z : Z) : 0 <= z < 4294967296 -> uint32 z = z.
Proof. unfold uint32. zsolve. Qed.

Lemma sint32_le (z : Z) : -2147483648 <= z -> sint32 z <= z.
Proof. unfold sint32. zsolve. Qed.

Lemma sint32_add_4 (a b : Z) : sint32 (sint32 a + b) = sint32 (a + b).
Proof. unfold sint32. zsolve. Qed.

Lemma sint32_testbit (z i : Z) :
  0 <= i < 32 -> Z.testbit (sint32 z) i = Z.testbit z i.
Proof.
  intros Hi.
  assert (E : sint32 z mod 2 ^ 32 = z mod 2 ^ 32).
  { change (2 ^ 32) with 4294967296. unfold sint32. zsolve. }
  rewrite <- (Z.mod_pow2_bits_low (sint32 z) 32 i) by lia.
  rewrite E. apply Z.mod_pow2_bits_low. lia.
Qed.

Lemma int_testbit_high (x i : Z) :
  in_int x -> 31 <= i -> Z.testbit x i = (x <? 0).
Proof.
  unfold in_int. intros Hx Hi.
  destruct (Z.ltb_spec x 0) as [Hneg | Hpos].
  - apply Z.bits_above_log2_neg; [lia|].
    destruct (Z.eq_dec x (-1)) as [-> | Hne]; [simpl; lia|].
    apply Z.lt_le_trans with 31; [|lia].
    apply Z.log2_lt_pow2; [lia|]. change (2 ^ 31) with 2147483648. lia.
  - destruct (Z.eq_dec x 0) as [-> | Hne]; [apply Z.bits_0|].
    apply Z.bits_above_log2; [lia|].
    apply Z.lt_le_trans with 31; [|lia].
    apply Z.log2_lt_pow2; [lia|]. change (2 ^ 31) with 2147483648. lia.
Qed.

Lemma small_testbit_high (v w i : Z) :
  0 <= v < 2 ^ w -> 0 <= w <= i -> Z.testbit v i = false.
Proof.
  intros Hv Hi.
  rewrite <- (Z.mod_small v (2 ^ w)) by lia.
  apply Z.mod_pow2_bits_high. lia.
Qed.

Lemma shl_testbit (x k i : Z) :
  0 <= k -> 0 <= i < 32 -> Z.testbit (shl x k) i = Z.testbit x (i - k).
Proof.
  intros Hk Hi. unfold shl.
  rewrite sint32_testbit by lia. apply Z.shiftl_spec. lia.
Qed.

Lemma shl_range (x k : Z) : in_int (shl x k).
Proof. apply sint32_range. Qed.

Lemma in_int_of_bits (x : Z) :
  (forall i, 31 <= i -> Z.testbit x i = Z.testbit x 31) -> in_int x.
Proof.
  intros Hbits.
  assert (E : x = sint32 x); [|rewrite E; apply sint32_range].
  apply Z.bits_inj'. intros i Hi.
  destruct (Z.lt_ge_cases i 32) as [Hlo | Hhi].
  - symmetry. apply sint32_testbit. lia.
  - rewrite Hbits by lia.
    rewrite (int_testbit_high (sint32 x) i) by (auto using sint32_range; lia).
    rewrite <- (int_testbit_high (sint32 x) 31) by (auto using sint32_range; lia).
    symmetry. apply sint32_testbit. lia.
Qed.

Lemma lor_range (a b : Z) : in_int a -> in_int b -> in_int (Z.lor a b).
Proof.
  intros Ha Hb. apply in_int_of_bits. intros i Hi.
  rewrite !Z.lor_spec.
  rewrite (int_testbit_high a i), (int_testbit_high b i) by assumption.
  rewrite (int_testbit_high a 31), (int_testbit_high b 31) by (assumption || lia).
  reflexivity.
Qed.

Create HintDb int32.
#[local] Hint Resolve sint32_range shl_range lor_range : int32.

Lemma shr_nonneg_range (v k : Z) : 0 <= v -> in_int v -> 0 <= k -> in_int (shr v k).
Proof.
  unfold in_int, shr. intros Hv Hr Hk.
  rewrite Z.shiftr_div_pow2 by lia.
  assert (0 < 2 ^ k) by (apply Z.pow_pos_nonneg; lia).
  assert (0 <= v / 2 ^ k <= v); [|lia].
  split; [apply Z.div_pos; lia|].
  apply Z.div_le_upper_bound; nia.
Qed.

(** The masked right shift is a logical right shift of the 32-bit
    pattern. *)
Lemma shr_masked_testbit (x s i : Z) :
  in_int x -> 1 <= s <= 31 -> 0 <= i ->
  Z.testbit (shr_masked x s (31 - s)) i = (i <? 32 - s) && Z.testbit x (i + s).
Proof.
  intros Hx Hs Hi. unfold shr_masked, shr.
  destruct (Z.ltb_spec x 0) as [Hneg | Hpos].
  - rewrite Z.lor_spec, Z.shiftr_spec, Z.land_spec by lia.
    change 2147483647 with (Z.ones 31).
    rewrite Z.testbit_ones_nonneg by lia.
    assert (E : shl 1 (31 - s) = 2 ^ (31 - s)).
    { unfold shl. rewrite Z.shiftl_1_l. apply sint32_small.
      unfold in_int.
      assert (0 < 2 ^ (31 - s)) by (apply Z.pow_pos_nonneg; lia).
      assert (2 ^ (31 - s) <= 2 ^ 30) by (apply Z.pow_le_mono_r; lia).
      change (2 ^ 30) with 1073741824 in *. lia. }
    rewrite E, Z.pow2_bits_eqb by lia.
    destruct (Z.ltb_spec (i + s) 31) as [Hlt | Hge].
    + replace (i <? 32 - s) with true by (symmetry; apply Z.ltb_lt; lia).
      replace (31 - s =? i) with false by (symmetry; apply Z.eqb_neq; lia).
      rewrite andb_true_r, orb_false_r. reflexivity.
    + rewrite andb_false_r, orb_false_l.
      rewrite (int_testbit_high x (i + s)) by (assumption || lia).
      replace (x <? 0) with true by (symmetry; apply Z.ltb_lt; lia).
      rewrite andb_true_r.
      destruct (Z.eqb_spec (31 - s) i) as [Heq | Hne].
      * symmetry. apply Z.ltb_lt. lia.
      * symmetry. apply Z.ltb_ge. lia.
  - rewrite Z.shiftr_spec by lia.
    destruct (Z.ltb_spec i (32 - s)) as [Hlt | Hge]; [reflexivity|].
    rewrite andb_false_l, (int_testbit_high x (i + s)) by (assumption || lia).
    apply Z.ltb_ge. lia.
Qed.

(** ** What the decoder extracts *)

Lemma field_aligned (W w o v : Z) :
  in_int W -> 1 <= w <= 31 -> 0 <= o -> o + w <= 32 -> 0 <= v < 2 ^ w ->
  carries W o v w ->
  shr_masked (shl W (uint32 (32 - o - w))) (uint32 (32 - w)) (uint32 (w - 1))
  = v.
Proof.
  intros HW Hw Ho Hfit Hv Hc.
  rewrite !uint32_small by lia.
  replace (w - 1) with (31 - (32 - w)) by lia.
  apply Z.bits_inj'. intros i Hi.
  rewrite shr_masked_testbit by (auto with int32; lia).
  destruct (Z.ltb_spec i (32 - (32 - w))) as [Hlt | Hge].
  - rewrite andb_true_l, shl_testbit by lia.
    replace (i + (32 - w) - (32 - o - w)) with (o + i) by lia.
    apply Hc. lia.
  - rewrite andb_false_l. symmetry.
    apply small_testbit_high with w; lia.
Qed.

Lemma field_split (W old w o p v : Z) :
  in_int W -> in_int old -> 1 <= w <= 31 -> 1 <= p <= 31 ->
  o = p + w - 32 -> 1 <= o -> 0 <= v < 2 ^ w ->
  carries old p v (32 - p) ->
  carries W 0 (shr v (32 - p)) o ->
  Z.lor (shr_masked (shl W (32 - o)) (uint32 (32 - w)) (uint32 (w - 1)))
        (shr_masked old p (32 - p - 1))
  = v.
Proof.
  intros HW Hold Hw Hp Ho Ho1 Hv Hlow Hhigh.
  rewrite !uint32_small by lia.
  replace (w - 1) with (31 - (32 - w)) by lia.
  replace (32 - p - 1) with (31 - p) by lia.
  apply Z.bits_inj'. intros i Hi.
  rewrite Z.lor_spec, !shr_masked_testbit by (auto with int32; lia).
  destruct (Z.ltb_spec i (32 - p)) as [Hlt | Hge].
  - (* a bit kept in the previous word *)
    rewrite andb_true_l.
    replace (i + p) with (p + i) by lia. rewrite (Hlow i) by lia.
    destruct (Z.ltb_spec i (32 - (32 - w))); [|lia].
    rewrite andb_true_l, shl_testbit by lia.
    rewrite Z.testbit_neg_r by lia. reflexivity.
  - rewrite andb_false_l, orb_false_r.
    destruct (Z.ltb_spec i (32 - (32 - w))) as [Hlt' | Hge'].
    + (* a bit carried into the current word *)
      rewrite andb_true_l, shl_testbit by lia.
      replace (i + (32 - w) - (32 - o)) with (0 + (i - (32 - p))) by lia.
      rewrite (Hhigh (i - (32 - p))) by lia.
      unfold shr. rewrite Z.shiftr_spec by lia. f_equal. lia.
    + rewrite andb_false_l. symmetry.
      apply small_testbit_high with w; lia.
Qed.

(** ** One turn of the inner loops *)

Lemma write_inner_exit (fuel : nat) (seg : list Z) (w c o m ci : Z) :
  0 <= o -> 32 < o + w < 4294967296 ->
  write_inner fuel seg w c o m ci = Ok (c, o, m, ci).
Proof.
  intros Ho Hw. destruct fuel; simpl;
    rewrite uint32_small by lia;
    destruct (Z.leb_spec (o + w) 32); (lia || reflexivity).
Qed.

Lemma write_inner_field (fuel : nat) (seg : list Z) (w c o ci : Z) :
  1 <= w -> 0 <= o -> o + w <= 32 -> 0 <= c < 2147483647 ->
  write_inner (S fuel) seg w c o 0 ci =
  do v <- vec_at seg c ;
  write_inner fuel seg w (c + 1) (o + w) 0 (Z.lor ci (shl v o)).
Proof.
  intros Hw Ho Hfit Hc. simpl.
  rewrite uint32_small by lia.
  destruct (Z.leb_spec (o + w) 32); [|lia].
  rewrite !sint32_small by (unfold in_int; lia). reflexivity.
Qed.

Lemma write_inner_carry (fuel : nat) (seg : list Z) (w c o m ci : Z) :
  m <> 0 -> 0 <= o <= w -> o + w <= 32 -> 0 <= c < 2147483647 ->
  write_inner (S fuel) seg w c o m ci =
  do v <- vec_at seg c ;
  write_inner fuel seg w (c + 1) o 0 (Z.lor ci (shr v (w - o))).
Proof.
  intros Hm Ho Hfit Hc. simpl.
  rewrite (uint32_small (o + w)) by lia.
  destruct (Z.leb_spec (o + w) 32); [|lia].
  destruct (Z.eqb_spec m 0); [contradiction|]. simpl.
  rewrite (uint32_small (w - o)) by lia.
  rewrite !sint32_small by (unfold in_int; lia). reflexivity.
Qed.

Lemma read_inner_exit (fuel : nat) (w W o m old c : Z) (acc : list Z) :
  0 <= o -> 32 < o + w < 4294967296 ->
  read_inner fuel w W o m old c acc = Ok (o, m, old, c, acc).
Proof.
  intros Ho Hw. destruct fuel; simpl;
    rewrite uint32_small by lia;
    destruct (Z.leb_spec (o + w) 32); (lia || reflexivity).
Qed.

Lemma read_inner_field (fuel : nat) (w W o old c : Z) (acc : list Z) :
  1 <= w -> 0 <= o -> o + w <= 32 -> 0 <= c < 2147483647 ->
  read_inner (S fuel) w W o 0 old c acc =
  read_inner fuel w W (o + w) 0 old (c + 1)
    (acc ++ [shr_masked (shl W (uint32 (32 - o - w)))
               (uint32 (32 - w)) (uint32 (w - 1))]).
Proof.
  intros Hw Ho Hfit Hc. simpl.
  rewrite (uint32_small (o + w)) by lia.
  destruct (Z.leb_spec (o + w) 32); [|lia].
  rewrite !sint32_small by (unfold in_int; lia). reflexivity.
Qed.

Lemma read_inner_carry (fuel : nat) (w W o m old c : Z) (acc : list Z) :
  m <> 0 -> 1 <= w -> 0 <= o -> o + w <= 32 -> 0 <= c < 2147483647 ->
  read_inner (S fuel) w W o m old c acc =
  read_inner fuel w W o 0 (shr_masked old m (32 - m - 1)) (c + 1)
    (acc ++ [Z.lor (shr_masked (shl W (32 - o))
                      (uint32 (32 - w)) (uint32 (w - 1)))
                   (shr_masked old m (32 - m - 1))]).
Proof.
  intros Hm Hw Ho Hfit Hc. simpl.
  rewrite (uint32_small (o + w)) by lia.
  destruct (Z.leb_spec (o + w) 32); [|lia].
  destruct (Z.eqb_spec m 0); [contradiction|].
  rewrite !sint32_small by (unfold in_int; lia). reflexivity.
Qed.

Lemma Ok_inj {A : Type} (a b : A) : Ok a = Ok b -> a = b.
Proof. congruence. Qed.

Lemma vec_at_Ok {A : Type} (l : list A) (c : Z) (v : A) :
  vec_at l c = Ok v <-> 0 <= c /\ nth_error l (Z.to_nat c) = Some v.
Proof.
  unfold vec_at. destruct (Z.ltb_spec c 0) as [Hneg | Hpos].
  - split; [discriminate | lia].
  - destruct (nth_error l (Z.to_nat c)) as [x|]; split.
    + intros [= ->]. auto.
    + intros [_ [= ->]]. reflexivity.
    + discriminate.
    + intros [_ [=]].
Qed.

(** ** The inner loops, turn by turn *)

Section InnerLoops.

Variables (seg : list Z) (N w : Z).
Hypothesis Hw : 1 <= w <= 31.
Hypothesis Hvalid : valid_cells seg N w.

Lemma valid_vec_at (c v : Z) :
  0 <= c < N -> vec_at seg c = Ok v -> 0 <= v < 2 ^ w.
Proof.
  intros Hc Hv. apply vec_at_Ok in Hv. destruct Hv as [_ Hv].
  destruct (Hvalid c Hc) as (v' & Hv' & Hb). congruence.
Qed.

Lemma lor_shl_low (ci v o : Z) :
  0 <= o <= 32 -> agree_below o (Z.lor ci (shl v o)) ci.
Proof.
  intros Ho i Hi. rewrite Z.lor_spec, shl_testbit by lia.
  rewrite (Z.testbit_neg_r v) by lia. apply orb_false_r.
Qed.

Lemma lor_shl_field (ci v o n : Z) :
  0 <= o -> o + n <= 32 -> zero_from ci o -> carries (Z.lor ci (shl v o)) o v n.
Proof.
  intros Ho Hn Hz i Hi. rewrite Z.lor_spec, shl_testbit by lia.
  rewrite Hz by lia. replace (o + i - o) with i by lia. reflexivity.
Qed.

Lemma lor_shl_high (ci v o : Z) :
  0 <= o -> 0 <= v < 2 ^ w -> zero_from ci o ->
  zero_from (Z.lor ci (shl v o)) (o + w).
Proof.
  intros Ho Hv Hz i Hi. rewrite Z.lor_spec, shl_testbit by lia.
  rewrite Hz by lia.
  rewrite (small_testbit_high v w) by lia. reflexivity.
Qed.

(** The encoder's inner loop, started without a pending carry: it lays
    whole fields side by side from [o] on, never touches a bit below
    [o], and leaves the bits above the last field clear as long as the
    cells it read are cells of the segmentation. *)
Lemma write_inner_spec (fuel : nat) :
  forall c o ci c' o' m' ci',
  0 <= o <= 32 -> 0 <= c -> c + Z.of_nat fuel < 2147483648 ->
  write_inner fuel seg w c o 0 ci = Ok (c', o', m', ci') ->
  m' = 0 /\ c <= c' /\ (c' - c) * w = o' - o /\ o' <= 32 < o' + w /\
  (in_int ci -> in_int ci') /\ agree_below o ci' ci /\
  (c' <= N -> zero_from ci o -> zero_from ci' o').
Proof.
  induction fuel as [|fuel IH]; intros c o ci c' o' m' ci' Ho Hc Hfuel Hrun.
  - destruct (Z.le_gt_cases (o + w) 32) as [Hfit | Hfull].
    + simpl in Hrun. rewrite uint32_small in Hrun by lia.
      destruct (Z.leb_spec (o + w) 32); [discriminate | lia].
    + rewrite write_inner_exit in Hrun by lia.
      injection Hrun as <- <- <- <-.
      split; [reflexivity|]. do 3 (split; [lia|]). split; [auto|].
      split; [intros i Hi; reflexivity | auto].
  - destruct (Z.le_gt_cases (o + w) 32) as [Hfit | Hfull].
    + rewrite write_inner_field in Hrun by lia.
      destruct (vec_at seg c) as [v|e] eqn:Hv; [|discriminate].
      simpl in Hrun.
      apply IH in Hrun; [|lia|lia|lia].
      destruct Hrun as (Hm & Hcc & Hlen & Hend & Hint & Hlow & Hhigh).
      split; [assumption|]. do 3 (split; [lia|]).
      split; [auto with int32|]. split.
      * intros i Hi. rewrite Hlow by lia. apply lor_shl_low; lia.
      * intros HN Hz. apply Hhigh; [assumption|].
        apply lor_shl_high; [lia| |assumption].
        apply valid_vec_at with c; [lia|assumption].
    + rewrite write_inner_exit in Hrun by lia.
      injection Hrun as <- <- <- <-.
      split; [reflexivity|]. do 3 (split; [lia|]). split; [auto|].
      split; [intros i Hi; reflexivity | auto].
Qed.

(** The decoder's inner loop run on a word that agrees, below the final
    offset, with the word the encoder's inner loop has built: it makes
    the same turns and pushes the cells the encoder read. *)
Lemma inner_sim (fuel : nat) :
  forall c o ci c' o' m' ci' W old acc,
  0 <= o <= 32 -> 0 <= c -> c + Z.of_nat fuel < 2147483648 -> in_int ci ->
  write_inner fuel seg w c o 0 ci = Ok (c', o', m', ci') ->
  (c < N -> zero_from ci o) ->
  in_int W -> agree_below o' W ci' ->
  exists vs,
    read_inner fuel w W o 0 old c acc = Ok (o', 0, old, c', acc ++ vs) /\
    Z.of_nat (length vs) = c' - c /\
    forall k, c <= k < c' -> k < N ->
      nth_error vs (Z.to_nat (k - c)) = nth_error seg (Z.to_nat k).
Proof.
  induction fuel as [|fuel IH];
    intros c o ci c' o' m' ci' W old acc Ho Hc Hfuel Hci Hrun Hz HW Hagree.
  - destruct (Z.le_gt_cases (o + w) 32) as [Hfit | Hfull].
    + simpl in Hrun. rewrite uint32_small in Hrun by lia.
      destruct (Z.leb_spec (o + w) 32); [discriminate | lia].
    + rewrite write_inner_exit in Hrun by lia.
      injection Hrun as <- <- <- <-.
      exists []. rewrite read_inner_exit, app_nil_r by lia.
      split; [reflexivity|]. split; [simpl; lia|]. intros k Hk. lia.
  - destruct (Z.le_gt_cases (o + w) 32) as [Hfit | Hfull].
    + rewrite write_inner_field in Hrun by lia.
      destruct (vec_at seg c) as [v|e] eqn:Hv; [|discriminate].
      simpl in Hrun.
      pose proof Hrun as Hspec.
      apply write_inner_spec in Hspec; [|lia|lia|lia].
      destruct Hspec as (Hm & Hcc & Hlen & Hend & Hint & Hlow & Hhigh).
      set (d := shr_masked (shl W (uint32 (32 - o - w)))
                  (uint32 (32 - w)) (uint32 (w - 1))).
      destruct (IH (c + 1) (o + w) (Z.lor ci (shl v o)) c' o' m' ci'
                  W old (acc ++ [d]))
        as (vs & Hread & Hlenvs & Hnth);
        [lia|lia|lia|auto with int32|exact Hrun
        | |assumption|assumption|].
      { intros HcN. apply lor_shl_high; [lia| |apply Hz; lia].
        apply valid_vec_at with c; [lia|assumption]. }
      exists (d :: vs).
      rewrite read_inner_field by lia. fold d.
      rewrite Hread, <- app_assoc. split; [reflexivity|].
      split; [simpl length; lia|].
      intros k Hk HkN.
      destruct (Z.eq_dec k c) as [-> | Hne].
      * replace (c - c) with 0 by lia. simpl nth_error at 1.
        apply vec_at_Ok in Hv as Hv'. destruct Hv' as [_ Hv'].
        rewrite Hv'. f_equal. unfold d.
        apply field_aligned; try lia; try assumption.
        { apply valid_vec_at with c; [lia|assumption]. }
        intros i Hi. rewrite Hagree by lia. rewrite Hlow by lia.
        apply (lor_shl_field ci v o w ltac:(lia) ltac:(lia) (Hz HkN) i Hi).
      * replace (Z.to_nat (k - c)) with (S (Z.to_nat (k - (c + 1)))) by lia.
        simpl nth_error at 1. apply Hnth; lia.
    + rewrite write_inner_exit in Hrun by lia.
      injection Hrun as <- <- <- <-.
      exists []. rewrite read_inner_exit, app_nil_r by lia.
      split; [reflexivity|]. split; [simpl; lia|]. intros k Hk. lia.
Qed.

End InnerLoops.

(** ** One word of the stream *)

Lemma div_step (a w : Z) :
  1 <= w -> w <= a -> (a - w) / w = a / w - 1 /\ 1 <= a / w.
Proof.
  intros Hw Ha.
  assert (E : a / w = (a - w) / w + 1).
  { replace a with ((a - w) + 1 * w) at 1 by lia.
    apply Z.div_add. lia. }
  assert (0 <= (a - w) / w) by (apply Z.div_pos; lia). lia.
Qed.

Lemma div_le_32 (w o : Z) :
  1 <= w <= 31 -> 0 <= o <= 32 ->
  0 <= (32 - o) / w <= 32 / w /\ 32 / w <= 32.
Proof.
  intros Hw Ho. split; [split|].
  - apply Z.div_pos; lia.
  - apply Z.div_le_mono; lia.
  - apply Z.div_le_upper_bound; lia.
Qed.

Lemma read_outer_done (fm : stream) (N w o m old c : Z)
    (acc : list Z) (b : Z) :
  N <= c -> read_outer fm N w o m old c acc b = Ok (b, fm, acc).
Proof.
  intros Hc. destruct fm as [|[W|d] fm]; cbn [read_outer];
    destruct (Z.ltb_spec c N); (lia || reflexivity).
Qed.

Lemma read_outer_word (fm : stream) (N w W o m old c : Z)
    (acc : list Z) (b : Z) (o1 m1 old1 c1 : Z) (acc1 : list Z) :
  c < N ->
  read_inner inner_fuel w W o m old c acc = Ok (o1, m1, old1, c1, acc1) ->
  read_outer (I32 W :: fm) N w o m old c acc b =
  read_outer fm N w
    (Z.rem (if o1 =? 32 then o1 else sint32 (o1 + w)) 32)
    (if o1 =? 32 then 0 else o1) W c1 acc1 (sint32 (b + 4)).
Proof.
  intros Hc Hread. cbn [read_outer].
  destruct (Z.ltb_spec c N); [|lia].
  rewrite Hread. cbn [bind]. destruct (o1 =? 32); reflexivity.
Qed.

Lemma write_outer_done (fuel : nat) (seg : list Z) (N w c o m b : Z) :
  N <= c -> write_outer fuel seg N w c o m b = Ok ([], b).
Proof.
  intros Hc. destruct fuel; cbn [write_outer];
    destruct (Z.ltb_spec c N); (lia || reflexivity).
Qed.

Lemma write_outer_last (fuel : nat) (seg : list Z) (N w c o m b : Z)
    (c1 o1 m1 ci1 : Z) :
  c < N ->
  write_inner inner_fuel seg w c o m 0 = Ok (c1, o1, m1, ci1) ->
  N <= c1 ->
  write_outer (S fuel) seg N w c o m b = Ok ([ci1], sint32 (b + 4)).
Proof.
  intros Hc Hrun Hc1. cbn [write_outer].
  destruct (Z.ltb_spec c N); [|lia].
  rewrite Hrun. cbn [bind].
  destruct (Z.geb_spec c1 N); [reflexivity | lia].
Qed.

Lemma write_outer_word (fuel : nat) (seg : list Z) (N w c o m b : Z)
    (c1 o1 m1 ci1 v : Z) :
  c < N ->
  write_inner inner_fuel seg w c o m 0 = Ok (c1, o1, m1, ci1) ->
  c1 < N ->
  vec_at seg c1 = Ok v ->
  write_outer (S fuel) seg N w c o m b =
  do (words, n) <-
    write_outer fuel seg N w c1
      (Z.rem (if o1 =? 32 then o1 else sint32 (o1 + w)) 32)
      (if o1 =? 32 then m1 else 32 - o1) (sint32 (b + 4)) ;
  Ok ((if o1 =? 32 then ci1 else Z.lor ci1 (shl v o1)) :: words, n).
Proof.
  intros Hc Hrun Hc1 Hv. cbn [write_outer].
  destruct (Z.ltb_spec c N); [|lia].
  rewrite Hrun. cbn [bind].
  destruct (Z.geb_spec c1 N); [lia|].
  rewrite Hv. cbn [bind]. destruct (o1 =? 32); reflexivity.
Qed.

Section Words.

Variables (seg : list Z) (N w : Z).
Hypothesis Hw : 1 <= w <= 31.
Hypothesis Hvalid : valid_cells seg N w.
Hypothesis HN : N + 33 < 2147483648.
Hypothesis Hlen : N + 32 / w <= Z.of_nat (length seg).

Lemma vec_at_in_bounds (c : Z) :
  0 <= c < Z.of_nat (length seg) -> exists v, vec_at seg c = Ok v.
Proof.
  intros Hc. destruct (nth_error seg (Z.to_nat c)) as [v|] eqn:E.
  - exists v. apply vec_at_Ok. split; [lia | assumption].
  - apply nth_error_None in E. lia.
Qed.

(** With enough cells left in the vector, the encoder's inner loop
    ends. *)
Lemma write_inner_total (fuel : nat) :
  forall c o ci,
  0 <= o <= 32 -> 0 <= c -> c + Z.of_nat fuel < 2147483648 ->
  (32 - o) / w <= Z.of_nat fuel ->
  c + (32 - o) / w <= Z.of_nat (length seg) ->
  exists c' o' ci', write_inner fuel seg w c o 0 ci = Ok (c', o', 0, ci').
Proof.
  induction fuel as [|fuel IH]; intros c o ci Ho Hc Hwrap Hfuel Hcells.
  - destruct (Z.le_gt_cases (o + w) 32) as [Hfit | Hfull].
    + destruct (div_step (32 - o) w) as [_ H1]; lia.
    + exists c, o, ci. apply write_inner_exit; lia.
  - destruct (Z.le_gt_cases (o + w) 32) as [Hfit | Hfull].
    + destruct (div_step (32 - o) w) as [Hdiv H1]; [lia|lia|].
      rewrite write_inner_field by lia.
      destruct (vec_at_in_bounds c) as [v ->]; [lia|]. cbn [bind].
      apply IH; try lia.
      * replace (32 - (o + w)) with (32 - o - w) by lia. lia.
      * replace (32 - (o + w)) with (32 - o - w) by lia. lia.
    + exists c, o, ci. apply write_inner_exit; lia.
Qed.

(** Both inner loops on one word, from coupled states in which the next
    field fits. *)
Lemma word_sim (j o me md old : Z) :
  0 <= j < N -> coupled seg w j o me md old -> o + w <= 32 ->
  exists c1 o1 ci1,
    write_inner inner_fuel seg w j o me 0 = Ok (c1, o1, 0, ci1) /\
    j < c1 /\ 32 - w < o1 <= 32 /\ in_int ci1 /\
    (c1 <= N -> zero_from ci1 o1) /\
    forall W acc, in_int W -> agree_below o1 W ci1 ->
      exists vs old',
        read_inner inner_fuel w W o md old j acc
          = Ok (o1, 0, old', c1, acc ++ vs) /\
        Z.of_nat (length vs) = c1 - j /\
        forall k, j <= k < c1 -> k < N ->
          nth_error vs (Z.to_nat (k - j)) = nth_error seg (Z.to_nat k).
Proof.
  intros Hj Hcoupled Hfit.
  assert (Hzero : zero_from 0 0) by (intros i Hi; apply Z.bits_0).
  destruct Hcoupled as [-> -> -> | v Hmd -> Ho Ho1 Hold Hv Hcar].
  - (* nothing pending *)
    destruct (div_le_32 w 0) as [Hd1 Hd2]; [lia|lia|].
    destruct (write_inner_total inner_fuel j 0 0)
      as (c1 & o1 & ci1 & Hrun); try (unfold inner_fuel; lia).
    pose proof Hrun as Hspec.
    apply (write_inner_spec seg N w Hw Hvalid) in Hspec;
      try (unfold inner_fuel, in_int; lia).
    destruct Hspec as (_ & Hcc & Hlen1 & Hend & Hint & Hlow & Hhigh).
    specialize (Hint ltac:(unfold in_int; lia)).
    exists c1, o1, ci1. split; [assumption|].
    split; [nia|]. split; [lia|]. split; [assumption|].
    split; [auto|].
    intros W acc HW Hagree.
    destruct (inner_sim seg N w Hw Hvalid inner_fuel
                j 0 0 c1 o1 0 ci1 W old acc)
      as (vs & Hread & Hlenvs & Hnth);
      try (unfold inner_fuel, in_int; lia); auto.
    exists vs, old. auto.
  - (* the top of cell [j] goes first *)
    destruct (div_le_32 w o) as [Hd1 Hd2]; [lia|lia|].
    assert (Hvj : vec_at seg j = Ok v) by (apply vec_at_Ok; split; [lia|assumption]).
    assert (Hvb : 0 <= v < 2 ^ w) by (apply (valid_vec_at seg N w Hvalid j); [lia|assumption]).
    set (ci0 := Z.lor 0 (shr v (w - o))).
    assert (Hci0 : ci0 = shr v (w - o)) by apply Z.lor_0_l.
    assert (Hci0int : in_int ci0).
    { rewrite Hci0. apply shr_nonneg_range; [lia| |lia].
      unfold in_int. assert (2 ^ w <= 2 ^ 31) by (apply Z.pow_le_mono_r; lia).
      change (2 ^ 31) with 2147483648 in *. lia. }
    assert (Hci0z : zero_from ci0 o).
    { intros i Hi. rewrite Hci0. unfold shr. rewrite Z.shiftr_spec by lia.
      apply small_testbit_high with w; lia. }
    destruct (write_inner_total 32 (j + 1) o ci0)
      as (c1 & o1 & ci1 & Hrun); try lia.
    pose proof Hrun as Hspec.
    apply (write_inner_spec seg N w Hw Hvalid) in Hspec; try lia.
    destruct Hspec as (_ & Hcc & Hlen1 & Hend & Hint & Hlow & Hhigh).
    specialize (Hint Hci0int).
    exists c1, o1, ci1. split.
    { change inner_fuel with (S 32).
      rewrite write_inner_carry by lia. rewrite Hvj. cbn [bind]. exact Hrun. }
    split; [lia|]. split; [lia|]. split; [assumption|].
    split; [auto|].
    intros W acc HW Hagree.
    set (d := Z.lor (shr_masked (shl W (32 - o))
                       (uint32 (32 - w)) (uint32 (w - 1)))
                    (shr_masked old md (32 - md - 1))).
    destruct (inner_sim seg N w Hw Hvalid 32
                (j + 1) o ci0 c1 o1 0 ci1 W
                (shr_masked old md (32 - md - 1)) (acc ++ [d]))
      as (vs & Hread & Hlenvs & Hnth); try lia; auto.
    exists (d :: vs), (shr_masked old md (32 - md - 1)).
    split.
    { change inner_fuel with (S 32).
      rewrite read_inner_carry by lia. fold d.
      rewrite Hread, <- app_assoc. reflexivity. }
    split; [simpl length; lia|].
    intros k Hk HkN.
    destruct (Z.eq_dec k j) as [-> | Hne].
    + replace (j - j) with 0 by lia. simpl nth_error at 1.
      rewrite Hv. f_equal. unfold d.
      apply field_split; try lia; try assumption.
      intros i Hi. replace (0 + i) with i by lia.
      rewrite Hagree by lia. rewrite Hlow by lia.
      rewrite Hci0. f_equal. f_equal. lia.
    + replace (Z.to_nat (k - j)) with (S (Z.to_nat (k - (j + 1)))) by lia.
      simpl nth_error at 1. apply Hnth; lia.
Qed.

(** Both inner loops on one word, from any coupled states: either a
    cell is finished, or the pending cell is written again, shifted, into
    a word of its own. *)
Lemma word_step (j o me md old : Z) :
  0 <= j < N -> coupled seg w j o me md old -> 0 <= o < 32 ->
  exists c1 o1 m1 ci1,
    write_inner inner_fuel seg w j o me 0 = Ok (c1, o1, m1, ci1) /\
    (j < c1 \/ (c1 = j /\ o1 = o /\ 1 <= o)) /\
    32 - w < o1 <= 32 /\ (o1 = 32 -> m1 = 0) /\ in_int ci1 /\
    (c1 <= N -> zero_from ci1 o1) /\
    forall W acc, in_int W -> agree_below o1 W ci1 ->
      exists vs md1 old',
        read_inner inner_fuel w W o md old j acc
          = Ok (o1, md1, old', c1, acc ++ vs) /\
        Z.of_nat (length vs) = c1 - j /\
        forall k, j <= k < c1 -> k < N ->
          nth_error vs (Z.to_nat (k - j)) = nth_error seg (Z.to_nat k).
Proof.
  intros Hj Hcoupled Ho.
  destruct (Z.le_gt_cases (o + w) 32) as [Hfit | Hfull].
  - destruct (word_sim j o me md old Hj Hcoupled Hfit)
      as (c1 & o1 & ci1 & Hrun & Hprog & Hend & Hint & Hhigh & Hsim).
    exists c1, o1, 0, ci1.
    split; [assumption|]. split; [lia|]. split; [lia|].
    split; [reflexivity|]. split; [assumption|]. split; [assumption|].
    intros W acc HW Hagree.
    destruct (Hsim W acc HW Hagree) as (vs & old' & Hread).
    exists vs, 0, old'. exact Hread.
  - assert (Ho1 : 1 <= o).
    { destruct Hcoupled as [-> _ _ | v _ _ _ Ho1 _ _ _]; lia. }
    exists j, o, me, 0.
    split; [apply write_inner_exit; lia|]. split; [right; lia|].
    split; [lia|]. split; [lia|]. split; [unfold in_int; lia|].
    split; [intros _ i Hi; apply Z.bits_0|].
    intros W acc HW Hagree. exists [], md, old.
    rewrite read_inner_exit, app_nil_r by lia.
    split; [reflexivity|]. split; [simpl; lia|]. intros k Hk. lia.
Qed.

(** ** The whole stream *)

(** From coupled states, the encoder writes words from which the decoder
    pushes the cells that were still to come, in order, and possibly
    more. *)
Lemma outer_sim (fuel : nat) :
  forall j o me md old be,
  0 <= j < N -> coupled seg w j o me md old -> 0 <= o < 32 ->
  32 * (N - j) + o < Z.of_nat fuel ->
  exists ws,
    write_outer fuel seg N w j o me be
      = Ok (ws, sint32 (be + 4 * Z.of_nat (length ws))) /\
    forall rest acc bd,
    exists vs,
      read_outer (map I32 ws ++ rest) N w o md old j acc bd
        = Ok (sint32 (bd + 4 * Z.of_nat (length ws)), rest, acc ++ vs) /\
      N - j <= Z.of_nat (length vs) /\
      forall k, j <= k < N ->
        nth_error vs (Z.to_nat (k - j)) = nth_error seg (Z.to_nat k).
Proof.
  induction fuel as [|fuel IH]; intros j o me md old be Hj Hcoupled Ho Hfuel;
    [lia|].
  destruct (word_step j o me md old Hj Hcoupled Ho)
    as (c1 & o1 & m1 & ci1 & Hrun & Hprog & Hend & Hm1 & Hint & Hhigh & Hsim).
  destruct (Z.lt_ge_cases c1 N) as [Hmore | Hlast].
  - (* more cells to come *)
    destruct (div_le_32 w 0) as [Hd1 Hd2]; [lia|lia|].
    destruct (vec_at_in_bounds c1) as [v1 Hv1]; [lia|].
    apply vec_at_Ok in Hv1 as Hv1'. destruct Hv1' as [_ Hv1'].
    set (W := if o1 =? 32 then ci1 else Z.lor ci1 (shl v1 o1)).
    set (o2 := Z.rem (if o1 =? 32 then o1 else sint32 (o1 + w)) 32).
    set (me2 := if o1 =? 32 then m1 else 32 - o1).
    set (md2 := if o1 =? 32 then 0 else o1).
    assert (HW : in_int W).
    { unfold W. destruct (o1 =? 32); auto with int32. }
    assert (Hagree : agree_below o1 W ci1).
    { unfold W. destruct (o1 =? 32); [intros i Hi; reflexivity|].
      apply lor_shl_low. lia. }
    assert (Ho2 : o2 = if o1 =? 32 then 0 else o1 + w - 32).
    { unfold o2. destruct (Z.eqb_spec o1 32) as [-> | Hne]; [reflexivity|].
      rewrite sint32_small by (unfold in_int; lia).
      rewrite Z.rem_mod_nonneg by lia. zsolve. }
    assert (Hcoupled2 : coupled seg w c1 o2 me2 md2 W).
    { rewrite Ho2. unfold me2, md2.
      destruct (Z.eqb_spec o1 32) as [Heq | Hne].
      - apply coupled_aligned; auto.
      - apply coupled_carrying with v1; try lia; try assumption.
        unfold W. destruct (Z.eqb_spec o1 32); [lia|].
        apply lor_shl_field; [lia|lia|]. apply Hhigh. lia. }
    destruct (IH c1 o2 me2 md2 W (sint32 (be + 4)))
      as (ws & Hws & Hdec); [lia|assumption| | |].
    { rewrite Ho2. destruct (Z.eqb_spec o1 32); lia. }
    { rewrite Ho2. destruct (Z.eqb_spec o1 32); lia. }
    exists (W :: ws). split.
    { rewrite (write_outer_word fuel seg N w j o me be c1 o1 m1 ci1 v1)
        by (assumption || lia).
      fold o2 me2 W. rewrite Hws. cbn [bind].
      rewrite sint32_add_4.
      replace (be + 4 * Z.of_nat (length (W :: ws)))
        with (be + 4 + 4 * Z.of_nat (length ws)) by (simpl length; lia).
      reflexivity. }
    intros rest acc bd.
    destruct (Hsim W acc HW Hagree) as (vs & md1 & old' & Hread & Hlenvs & Hnth).
    destruct (Hdec rest (acc ++ vs) (sint32 (bd + 4)))
      as (vs' & Hread' & Hlenvs' & Hnth').
    exists (vs ++ vs').
    split.
    { cbn [map app].
      rewrite (read_outer_word _ N w W o md old j acc bd o1 md1 old' c1 (acc ++ vs))
        by (assumption || lia).
      fold o2 md2. rewrite Hread', sint32_add_4, app_assoc.
      replace (bd + 4 * Z.of_nat (length (W :: ws)))
        with (bd + 4 + 4 * Z.of_nat (length ws)) by (simpl length; lia).
      reflexivity. }
    split; [rewrite length_app; lia|].
    intros k Hk.
    destruct (Z.lt_ge_cases k c1) as [Hin | Hout].
    + rewrite nth_error_app1 by lia. apply Hnth; lia.
    + rewrite nth_error_app2 by lia.
      replace (Z.to_nat (k - j) - length vs)%nat with (Z.to_nat (k - c1)) by lia.
      apply Hnth'. lia.
  - (* the last word *)
    exists [ci1]. split.
    { rewrite (write_outer_last fuel seg N w j o me be c1 o1 m1 ci1)
        by (assumption || lia).
      reflexivity. }
    intros rest acc bd.
    destruct (Hsim ci1 acc Hint) as (vs & md1 & old' & Hread & Hlenvs & Hnth).
    { intros i Hi. reflexivity. }
    exists vs. split.
    { cbn [map app].
      rewrite (read_outer_word _ N w ci1 o md old j acc bd o1 md1 old' c1 (acc ++ vs))
        by (assumption || lia).
      rewrite read_outer_done by lia. reflexivity. }
    split; [lia|].
    intros k Hk. apply Hnth; lia.
Qed.

End Words.

(** ** The bit width *)

Lemma log2_loop_spec (p : positive) :
  forall ret, 0 <= ret -> ret + Z.log2 (Zpos p) < 4294967296 ->
  log2_loop p ret = ret + Z.log2 (Zpos p).
Proof.
  induction p as [p IH | p IH |]; intros ret Hret Hbound.
  - assert (E : Z.log2 (Zpos p~1) = Z.succ (Z.log2 (Zpos p))).
    { rewrite Pos2Z.inj_xI. apply Z.log2_succ_double. lia. }
    rewrite E in *. cbn [log2_loop].
    pose proof (Z.log2_nonneg (Zpos p)).
    rewrite uint32_small by lia. rewrite IH by lia. lia.
  - assert (E : Z.log2 (Zpos p~0) = Z.succ (Z.log2 (Zpos p))).
    { rewrite Pos2Z.inj_xO. apply Z.log2_double. lia. }
    rewrite E in *. cbn [log2_loop].
    pose proof (Z.log2_nonneg (Zpos p)).
    rewrite uint32_small by lia. rewrite IH by lia. lia.
  - cbn [log2_loop]. change (Z.log2 1) with 0. lia.
Qed.

Lemma log2_floor (S : Z) :
  1 <= S <= 2147483647 -> log2 S = Z.log2 S /\ 0 <= Z.log2 S <= 30.
Proof.
  intros HS.
  assert (Hb : 0 <= Z.log2 S <= 30).
  { split; [apply Z.log2_nonneg|].
    assert (Z.log2 S < 31); [|lia].
    apply Z.log2_lt_pow2; [lia|]. change (2 ^ 31) with 2147483648. lia. }
  split; [|assumption].
  unfold log2.
  destruct (Z.eqb_spec S 0) as [|_]; [lia|].
  destruct (Z.eqb_spec S 1) as [-> | _]; [reflexivity|].
  destruct S as [|p|p]; try lia.
  rewrite log2_loop_spec by lia. lia.
Qed.

Lemma width_spec (S : Z) :
  1 <= S <= 2147483647 ->
  numberOfBitsPerSegment S = Z.log2 S + 1 /\
  1 <= Z.log2 S + 1 <= 31 /\
  S < 2 ^ (Z.log2 S + 1).
Proof.
  intros HS. destruct (log2_floor S HS) as [E Hb].
  unfold numberOfBitsPerSegment. rewrite E, uint32_small by lia.
  split; [reflexivity|]. split; [lia|].
  replace (Z.log2 S + 1) with (Z.succ (Z.log2 S)) by lia.
  apply Z.log2_spec. lia.
Qed.

Lemma width_of_int (S : Z) :
  in_int S -> 0 <= numberOfBitsPerSegment S <= 31.
Proof.
  unfold in_int. intros HS.
  destruct (Z.lt_trichotomy S 0) as [Hneg | [-> | Hpos]].
  - destruct S; try lia. vm_compute. split; discriminate.
  - vm_compute. split; discriminate.
  - destruct (width_spec S) as (-> & Hb & _); lia.
Qed.

(** ** The segmentation, written and read back *)

Lemma prefix_of_nth (seg : list Z) :
  forall vs,
  (length seg <= length vs)%nat ->
  (forall k, (k < length seg)%nat -> nth_error vs k = nth_error seg k) ->
  vs = seg ++ skipn (length seg) vs.
Proof.
  induction seg as [|x seg IH]; intros vs Hlen Hnth; [reflexivity|].
  destruct vs as [|y vs]; [simpl in Hlen; lia|].
  pose proof (Hnth 0%nat ltac:(simpl; lia)) as H0. injection H0 as ->.
  simpl. f_equal. apply IH; [simpl in Hlen; lia|].
  intros k Hk. apply (Hnth (S k)). simpl. lia.
Qed.

Lemma valid_cells_app (seg pad : list Z) (S w : Z) :
  Forall (fun v => 0 <= v < S) seg -> S <= 2 ^ w ->
  valid_cells (seg ++ pad) (Z.of_nat (length seg)) w.
Proof.
  intros Hall HS c Hc.
  destruct (nth_error seg (Z.to_nat c)) as [v|] eqn:E.
  - exists v. split; [rewrite nth_error_app1 by lia; assumption|].
    apply nth_error_In in E. rewrite Forall_forall in Hall.
    apply Hall in E. lia.
  - apply nth_error_None in E. lia.
Qed.

(** The encoder and the decoder on a vector that has room after its
    [N] cells, for any width from 1 to 31. *)
Lemma write_then_read (seg pad : list Z) (N w S : Z) :
  1 <= w <= 31 -> N = Z.of_nat (length seg) -> N + 33 < 2147483648 ->
  Forall (fun v => 0 <= v < S) seg -> S <= 2 ^ w ->
  32 / w <= Z.of_nat (length pad) ->
  exists words,
    write_outer (outer_fuel N) (seg ++ pad) N w 0 0 0 0
      = Ok (words, sint32 (4 * Z.of_nat (length words))) /\
    forall rest seg0,
    exists extra,
      read_outer (map I32 words ++ rest) N w 0 0 0 0 seg0 8
        = Ok (sint32 (8 + 4 * Z.of_nat (length words)), rest,
              seg0 ++ seg ++ extra).
Proof.
  intros Hw HN Hwrap Hall HS Hpad.
  assert (Hvalid : valid_cells (seg ++ pad) N w).
  { rewrite HN. apply valid_cells_app with S; assumption. }
  assert (Hlen : N + 32 / w <= Z.of_nat (length (seg ++ pad))).
  { rewrite length_app. lia. }
  destruct (Z.eq_dec N 0) as [HN0 | HNpos].
  - (* no cell at all *)
    exists []. assert (seg = []) as -> by (destruct seg; [reflexivity | simpl in HN; lia]).
    split.
    + rewrite write_outer_done by lia. reflexivity.
    + intros rest seg0. exists []. rewrite read_outer_done by lia.
      cbn [map app]. rewrite app_nil_r. reflexivity.
  - destruct (outer_sim (seg ++ pad) N w Hw Hvalid Hwrap Hlen
                (outer_fuel N) 0 0 0 0 0 0)
      as (ws & Hws & Hdec);
      [lia | apply coupled_aligned; reflexivity | lia
      | unfold outer_fuel; lia |].
    exists ws. split; [exact Hws|].
    intros rest seg0.
    destruct (Hdec rest seg0 8) as (vs & Hread & Hlenvs & Hnth).
    exists (skipn (length seg) vs).
    rewrite Hread. do 3 f_equal.
    apply prefix_of_nth; [lia|].
    intros k Hk.
    specialize (Hnth (Z.of_nat k) ltac:(lia)).
    replace (Z.to_nat (Z.of_nat k - 0)) with k in Hnth by lia.
    rewrite Nat2Z.id in Hnth. rewrite Hnth.
    apply nth_error_app1. assumption.
Qed.

(** ** The size of the packed stream for widths up to 16 *)

Section Count.

Variables (seg : list Z) (N w : Z).
Hypothesis Hw : 1 <= w <= 16.
Hypothesis HN : N + 33 < 2147483648.
Hypothesis Hlen : N + 32 / w <= Z.of_nat (length seg).

Lemma no_cells_are_valid : valid_cells seg 0 w.
Proof. intros c Hc. lia. Qed.

Lemma inner_count (j o m k : Z) :
  0 <= j < N -> dense w j o m k ->
  exists c1 o1 ci1,
    write_inner inner_fuel seg w j o m 0 = Ok (c1, o1, 0, ci1) /\
    j < c1 /\ 32 - w < o1 <= 32 /\ c1 * w = 32 * k + o1.
Proof.
  intros Hj (Hm & Ho & Hk).
  assert (Hw31 : 1 <= w <= 31) by lia.
  destruct (Z.eqb_spec m 0) as [-> | Hm0].
  - subst o.
    destruct (div_le_32 w 0) as [Hd1 Hd2]; [lia|lia|].
    destruct (write_inner_total seg w Hw31 inner_fuel j 0 0)
      as (c1 & o1 & ci1 & Hrun); try (unfold inner_fuel; lia).
    pose proof Hrun as Hspec.
    apply (write_inner_spec seg 0 w Hw31 no_cells_are_valid) in Hspec;
      try (unfold inner_fuel, in_int; lia).
    destruct Hspec as (_ & Hcc & Hlen1 & Hend & _).
    exists c1, o1, ci1. split; [assumption|].
    rewrite Z.mul_sub_distr_r in Hlen1.
    split; [nia|]. split; lia.
  - subst o.
    destruct (div_le_32 w (w - m)) as [Hd1 Hd2]; [lia|lia|].
    destruct (vec_at_in_bounds seg j) as [v Hv]; [lia|].
    set (ci0 := Z.lor 0 (shr v (w - (w - m)))).
    destruct (write_inner_total seg w Hw31 32 (j + 1) (w - m) ci0)
      as (c1 & o1 & ci1 & Hrun); try lia.
    pose proof Hrun as Hspec.
    apply (write_inner_spec seg 0 w Hw31 no_cells_are_valid) in Hspec;
      try lia.
    destruct Hspec as (_ & Hcc & Hlen1 & Hend & _).
    exists c1, o1, ci1. split.
    { change inner_fuel with (S 32).
      rewrite write_inner_carry by lia. rewrite Hv. cbn [bind]. exact Hrun. }
    rewrite Z.mul_sub_distr_r in Hlen1.
    split; [lia|]. split; lia.
Qed.

Lemma ceil_div_32_unique (P k : Z) :
  32 * k < P <= 32 * k + 32 -> ceil_div P 32 = k + 1.
Proof. unfold ceil_div. intros HP. zsolve. Qed.

(** For widths up to 16 the fields follow one another without a gap,
    whatever the cells hold: the encoder writes [ceil(N * w / 32)]
    words. *)
Lemma write_outer_count (fuel : nat) :
  forall j o m k b,
  0 <= j < N -> dense w j o m k ->
  32 * (N - j) < Z.of_nat fuel ->
  exists ws,
    write_outer fuel seg N w j o m b
      = Ok (ws, sint32 (b + 4 * Z.of_nat (length ws))) /\
    Z.of_nat (length ws) = ceil_div (N * w) 32 - k.
Proof.
  induction fuel as [|fuel IH]; intros j o m k b Hj Hdense Hfuel; [lia|].
  destruct (inner_count j o m k Hj Hdense)
    as (c1 & o1 & ci1 & Hrun & Hprog & Hend & Hbits).
  destruct Hdense as (Hm & Ho & Hk).
  assert (Hlow : 32 * k < N * w) by nia.
  destruct (Z.lt_ge_cases c1 N) as [Hmore | Hlast].
  - destruct (div_le_32 w 0) as [Hd1 Hd2]; [lia|lia|].
    destruct (vec_at_in_bounds seg c1) as [v1 Hv1]; [lia|].
    set (W := if o1 =? 32 then ci1 else Z.lor ci1 (shl v1 o1)).
    set (o2 := Z.rem (if o1 =? 32 then o1 else sint32 (o1 + w)) 32).
    set (m2 := if o1 =? 32 then 0 else 32 - o1).
    assert (Hdense2 : dense w c1 o2 m2 (k + 1)).
    { unfold dense, o2, m2.
      destruct (Z.eqb_spec o1 32) as [-> | Hne].
      - change (0 =? 0) with true. cbv iota.
        change (Z.rem 32 32) with 0. lia.
      - rewrite sint32_small by (unfold in_int; lia).
        rewrite Z.rem_mod_nonneg by lia.
        destruct (Z.eqb_spec (32 - o1) 0); [lia|].
        split; [lia|]. split; [zsolve | lia]. }
    destruct (IH c1 o2 m2 (k + 1) (sint32 (b + 4)))
      as (ws & Hws & Hcount); [lia|assumption|lia|].
    exists (W :: ws). split.
    + rewrite (write_outer_word fuel seg N w j o m b c1 o1 0 ci1 v1)
        by (assumption || lia).
      fold o2 m2 W. rewrite Hws. cbn [bind].
      rewrite sint32_add_4.
      replace (b + 4 * Z.of_nat (length (W :: ws)))
        with (b + 4 + 4 * Z.of_nat (length ws)) by (simpl length; lia).
      reflexivity.
    + simpl length. lia.
  - exists [ci1]. split.
    + rewrite (write_outer_last fuel seg N w j o m b c1 o1 0 ci1)
        by (assumption || lia).
      reflexivity.
    + assert (Hhigh : N * w <= 32 * k + 32) by nia.
      rewrite (ceil_div_32_unique (N * w) k) by lia.
      simpl length. lia.
Qed.

End Count.

(** ** A longer vector changes nothing *)

Lemma vec_at_app (buf more : list Z) (c v : Z) :
  vec_at buf c = Ok v -> vec_at (buf ++ more) c = Ok v.
Proof.
  intros H. apply vec_at_Ok in H. destruct H as [Hc Hnth].
  apply vec_at_Ok. split; [assumption|].
  rewrite nth_error_app1; [assumption|].
  apply nth_error_Some. congruence.
Qed.

Lemma write_inner_app (more : list Z) (fuel : nat) :
  forall buf w c o m ci r,
  write_inner fuel buf w c o m ci = Ok r ->
  write_inner fuel (buf ++ more) w c o m ci = Ok r.
Proof.
  induction fuel as [|fuel IH]; intros buf w c o m ci r Hrun;
    cbn [write_inner] in *;
    destruct (uint32 (o + w) <=? 32); try assumption.
  destruct (vec_at buf c) as [v|e] eqn:Hv; [|discriminate].
  rewrite (vec_at_app buf more c v Hv). cbn [bind] in *.
  destruct (negb (m =? 0)); apply IH; assumption.
Qed.

Lemma write_outer_app (more : list Z) (fuel : nat) :
  forall buf N w c o m b r,
  write_outer fuel buf N w c o m b = Ok r ->
  write_outer fuel (buf ++ more) N w c o m b = Ok r.
Proof.
  induction fuel as [|fuel IH]; intros buf N w c o m b r Hrun;
    cbn [write_outer] in *;
    destruct (c <? N); try assumption.
  destruct (write_inner inner_fuel buf w c o m 0)
    as [[[[c1 o1] m1] ci1]|e] eqn:Hinner; [|discriminate].
  rewrite (write_inner_app more inner_fuel buf w c o m 0 _ Hinner).
  cbn [bind] in *.
  destruct (c1 >=? N); [assumption|].
  destruct (vec_at buf c1) as [v|e] eqn:Hv; [|discriminate].
  rewrite (vec_at_app buf more c1 v Hv). cbn [bind] in *.
  destruct (o1 =? 32).
  - destruct (write_outer fuel buf N w c1 (Z.rem o1 32) m1 (sint32 (b + 4)))
      as [[ws n]|e] eqn:Hrest; [|discriminate].
    rewrite (IH _ _ _ _ _ _ _ _ Hrest). assumption.
  - destruct (write_outer fuel buf N w c1 (Z.rem (sint32 (o1 + w)) 32)
                (32 - o1) (sint32 (b + 4)))
      as [[ws n]|e] eqn:Hrest; [|discriminate].
    rewrite (IH _ _ _ _ _ _ _ _ Hrest). assumption.
Qed.

(** ** Claims about the segmentation codec *)

(** Writing the words one by one with [Write] appends them to the
    file. *)
Lemma Write_words (words : list Z) :
  forall fm, fold_left Write_int words fm = fm ++ map I32 words.
Proof.
  induction words as [|x words IH]; intros fm; simpl.
  - symmetry. apply app_nil_r.
  - rewrite IH. unfold Write_int. rewrite <- app_assoc. reflexivity.
Qed.

Lemma read_header (kamikaze : bool) (N S : Z) (fm : stream) (seg0 : list Z) :
  ReadCompactSegmentation kamikaze (I32 N :: I32 S :: fm) seg0 =
  read_body kamikaze (numberOfBitsPerSegment S) fm seg0 N S 8.
Proof. reflexivity. Qed.

Lemma read_body_decodes (kamikaze : bool) (w : Z) (fm : stream)
    (seg0 : list Z) (N S b : Z) :
  1 <= w <= 32 ->
  read_body kamikaze w fm seg0 N S b =
  do (n, fm', segmentation) <- read_outer fm N w 0 0 0 0 seg0 b ;
  Ok {| sr_return := n; sr_stream := fm'; sr_segmentation := segmentation;
        sr_numberOfVertices := N; sr_numberOfSegments := S |}.
Proof.
  intros Hw. unfold read_body.
  destruct (Z.eqb_spec w 0); [lia|]. rewrite andb_false_r.
  destruct (Z.gtb_spec w 32); [lia|]. reflexivity.
Qed.

Lemma write_body_encodes (w : Z) (fm : stream) (seg : list Z) (N : Z) :
  w <= 32 ->
  write_body w fm seg N =
  do (words, n) <- write_outer (outer_fuel N) seg N w 0 0 0 0 ;
  Ok (n, fm ++ map I32 words).
Proof.
  intros Hw. unfold write_body.
  destruct (Z.gtb_spec w 32); [lia|]. reflexivity.
Qed.

(** C1 (amended).  For [1 <= N <= 2^31 - 34], [S >= 1] and a
    segmentation [seg] of [N] values in [[0, S)], held at the front of a
    vector [seg ++ pad]: the encoder returns as soon as [pad] has
    [floor(32 / w)] entries; and whenever it returns, the decoder run on
    its output (the header [N], [S] first) returns and leaves [seg],
    followed by some further values, appended to the vector it was
    given.  Fields that straddle a word boundary are covered: the width
    is any width from 1 to 31. *)
Theorem roundtrip_recovers_prefix (N S : Z) (seg pad : list Z) :
  1 <= N -> N + 33 < 2147483648 -> 1 <= S <= 2147483647 ->
  Z.of_nat (length seg) = N -> Forall (fun v => 0 <= v < S) seg ->
  (32 / (Z.log2 S + 1) <= Z.of_nat (length pad) ->
   exists n file,
     WriteCompactSegmentation [I32 N; I32 S] (seg ++ pad) N S
       = Ok (n, file)) /\
  (forall n file,
     WriteCompactSegmentation [I32 N; I32 S] (seg ++ pad) N S
       = Ok (n, file) ->
     forall kamikaze rest seg0,
     exists extra,
       ReadCompactSegmentation kamikaze (file ++ rest) seg0 =
       Ok {| sr_return := sint32 (n + 8);
             sr_stream := rest;
             sr_segmentation := seg0 ++ seg ++ extra;
             sr_numberOfVertices := N;
             sr_numberOfSegments := S |}).
Proof.
  intros HN Hwrap HS Hlen Hall.
  destruct (width_spec S HS) as (Hwidth & Hw & Hpow).
  unfold WriteCompactSegmentation. rewrite Hwidth.
  set (w := Z.log2 S + 1) in *.
  rewrite write_body_encodes by lia.
  split.
  - intros Hpad.
    destruct (write_then_read seg pad N w S) as (words & Hwrite & _);
      try lia; try assumption.
    rewrite Hwrite. cbn [bind]. eauto.
  - intros n file Hrun kamikaze rest seg0.
    destruct (write_outer (outer_fuel N) (seg ++ pad) N w 0 0 0 0)
      as [[ws n0]|e] eqn:Hws; [|discriminate].
    cbn [bind] in Hrun. injection Hrun as <- <-.
    destruct (write_then_read seg (pad ++ repeat 0 32) N w S)
      as (words & Hwrite & Hread); try lia; try assumption.
    { rewrite length_app, repeat_length.
      destruct (div_le_32 w 0); lia. }
    apply (write_outer_app (repeat 0 32)) in Hws.
    rewrite <- app_assoc, Hwrite in Hws.
    assert (Ews : ws = words) by congruence.
    assert (En : n0 = sint32 (4 * Z.of_nat (length words))) by congruence.
    subst ws n0. clear Hws.
    destruct (Hread rest seg0) as (extra & Hdec).
    exists extra.
    cbn [app]. rewrite read_header, Hwidth. fold w.
    rewrite read_body_decodes by lia.
    rewrite Hdec. cbn [bind].
    rewrite sint32_add_4.
    replace (4 * Z.of_nat (length words) + 8)
      with (8 + 4 * Z.of_nat (length words)) by lia.
    reflexivity.
Qed.

Lemma roundtrip_recovers_prefix_witness :
  exists extra,
    ReadCompactSegmentation false
      ([I32 20; I32 5; I32 591677064; I32 147919266] ++ []) [] =
    Ok {| sr_return := sint32 (8 + 8);
          sr_stream := [];
          sr_segmentation := [] ++ scenarioB ++ extra;
          sr_numberOfVertices := 20;
          sr_numberOfSegments := 5 |}.
Proof.
  refine (proj2 (roundtrip_recovers_prefix 20 5 scenarioB [0] _ _ _ _ _)
            8 [I32 20; I32 5; I32 591677064; I32 147919266] _ false [] []).
  - lia.
  - lia.
  - lia.
  - reflexivity.
  - unfold scenarioB. repeat constructor; lia.
  - vm_compute. reflexivity.
Defined.

(** C1, as stated, fails at scenario B: on a vector of exactly twenty
    entries the encoder indexes the vector past its end, and with one
    more entry the decoder leaves twenty-one values, not the twenty that
    were encoded. *)
Lemma roundtrip_exact_fails :
  WriteCompactSegmentation [I32 20; I32 5] scenarioB 20 5 = Err OutOfBounds /\
  WriteCompactSegmentation [I32 20; I32 5] (scenarioB ++ [0]) 20 5
    = Ok (8, [I32 20; I32 5; I32 591677064; I32 147919266]) /\
  ReadCompactSegmentation false
    [I32 20; I32 5; I32 591677064; I32 147919266] []
    = Ok {| sr_return := 16;
            sr_stream := [];
            sr_segmentation := scenarioB ++ [0];
            sr_numberOfVertices := 20;
            sr_numberOfSegments := 5 |} /\
  scenarioB ++ [0] <> scenarioB.
Proof.
  split; [vm_compute; reflexivity|].
  split; [vm_compute; reflexivity|].
  split; [vm_compute; reflexivity|].
  discriminate.
Qed.

Lemma width_up_to_16 (S : Z) :
  1 <= S <= 65535 -> 1 <= Z.log2 S + 1 <= 16.
Proof.
  intros HS. split; [pose proof (Z.log2_nonneg S); lia|].
  assert (Z.log2 S < 16); [|lia].
  apply Z.log2_lt_pow2; [lia|]. change (2 ^ 16) with 65536. lia.
Qed.

(** C5 (amended).  For [1 <= N <= 2^31 - 34] and [1 <= S <= 65535], so
    that the width [w = floor(log2 S) + 1] is at most 16:
    [WriteCompactSegmentation] returns as soon as the vector has
    [N + floor(32 / w)] entries, and whenever it returns it has written
    exactly [ceil(N * w / 32)] words and returns four times that count
    as an [int].  With [S = 1] the width is 1 and the count is
    [ceil(N / 32)]. *)
Theorem packed_size_dense (N S : Z) (fm : stream) (buffer : list Z) :
  1 <= N -> N + 33 < 2147483648 -> 1 <= S <= 65535 ->
  (N + 32 / (Z.log2 S + 1) <= Z.of_nat (length buffer) ->
   exists n file, WriteCompactSegmentation fm buffer N S = Ok (n, file)) /\
  (forall n file,
     WriteCompactSegmentation fm buffer N S = Ok (n, file) ->
     exists words,
       file = fm ++ map I32 words /\
       Z.of_nat (length words) = ceil_div (N * (Z.log2 S + 1)) 32 /\
       n = sint32 (4 * ceil_div (N * (Z.log2 S + 1)) 32) /\
       (4 * ceil_div (N * (Z.log2 S + 1)) 32 <= 2147483647 ->
        n = 4 * ceil_div (N * (Z.log2 S + 1)) 32)) /\
  (S = 1 -> Z.log2 S + 1 = 1).
Proof.
  intros HN Hwrap HS.
  destruct (width_spec S ltac:(lia)) as (Hwidth & _ & _).
  pose proof (width_up_to_16 S HS) as Hw.
  unfold WriteCompactSegmentation. rewrite Hwidth.
  set (w := Z.log2 S + 1) in *.
  rewrite write_body_encodes by lia.
  assert (Hdense : dense w 0 0 0 0) by (unfold dense; simpl; lia).
  split; [|split].
  - intros Hlen.
    destruct (write_outer_count buffer N w Hw Hwrap Hlen
                (outer_fuel N) 0 0 0 0 0)
      as (ws & Hws & _); [lia|assumption|unfold outer_fuel; lia|].
    rewrite Hws. cbn [bind]. eauto.
  - intros n file Hrun.
    destruct (write_outer (outer_fuel N) buffer N w 0 0 0 0)
      as [[ws n0]|e] eqn:Hws; [|discriminate].
    cbn [bind] in Hrun.
    assert (En : n = n0) by congruence.
    assert (Efile : file = fm ++ map I32 ws) by congruence.
    subst n file. clear Hrun.
    set (more := repeat 0 (Z.to_nat N + 32)).
    apply (write_outer_app more) in Hws.
    destruct (write_outer_count (buffer ++ more) N w Hw Hwrap)
      with (fuel := outer_fuel N) (j := 0) (o := 0) (m := 0) (k := 0) (b := 0)
      as (ws' & Hws' & Hcount); [|lia|assumption|unfold outer_fuel; lia|].
    { unfold more. rewrite length_app, repeat_length.
      destruct (div_le_32 w 0); lia. }
    rewrite Hws' in Hws.
    assert (Ews : ws' = ws) by congruence.
    assert (En : n0 = sint32 (0 + 4 * Z.of_nat (length ws'))) by congruence.
    subst ws'. exists ws.
    split; [reflexivity|]. split; [lia|].
    rewrite En. replace (0 + 4 * Z.of_nat (length ws))
      with (4 * ceil_div (N * w) 32) by lia.
    split; [reflexivity|].
    intros Hfits. apply sint32_small. unfold in_int.
    assert (0 <= Z.of_nat (length ws)) by lia. lia.
  - intros ->. reflexivity.
Qed.

Lemma packed_size_dense_witness :
  exists words,
    [I32 40; I32 1; I32 0; I32 0] = [I32 40; I32 1] ++ map I32 words /\
    Z.of_nat (length words) = ceil_div (40 * (Z.log2 1 + 1)) 32 /\
    8 = sint32 (4 * ceil_div (40 * (Z.log2 1 + 1)) 32) /\
    (4 * ceil_div (40 * (Z.log2 1 + 1)) 32 <= 2147483647 ->
     8 = 4 * ceil_div (40 * (Z.log2 1 + 1)) 32).
Proof.
  refine (proj1 (proj2 (packed_size_dense 40 1 [I32 40; I32 1]
                          (repeat 0 64) _ _ _))
            8 [I32 40; I32 1; I32 0; I32 0] _).
  - lia.
  - lia.
  - lia.
  - vm_compute. reflexivity.
Defined.

(** C5, as stated, fails: two cells of 24 bits ([S = 8388608]) take three
    words, not [ceil(2 * 24 / 32) = 2].  Word 0 holds cell 0 and the low
    8 bits of cell 1; the remaining 16 bits and a whole field do not fit
    in word 1, so word 1 holds the low 16 bits of cell 1 again and word 2
    its top 8 bits.  And on a vector of exactly [N] entries (scenario A)
    the encoder indexes the vector past its end. *)
Lemma packed_size_wide_fields :
  numberOfBitsPerSegment 8388608 = 24 /\
  ceil_div (2 * 24) 32 = 2 /\
  WriteCompactSegmentation [] (two_wide_cells ++ [0]) 2 8388608
    = Ok (12, [I32 (-16777211); I32 (-65536); I32 127]) /\
  WriteCompactSegmentation [] scenarioA 5 3 = Err OutOfBounds.
Proof.
  split; [vm_compute; reflexivity|].
  split; [vm_compute; reflexivity|].
  split; vm_compute; reflexivity.
Qed.

(** ** How many values the decoder pushes *)

Lemma read_inner_pushes (fuel : nat) :
  forall w W o m old c acc o' m' old' c' acc',
  -2147483648 <= c ->
  read_inner fuel w W o m old c acc = Ok (o', m', old', c', acc') ->
  exists vs,
    acc' = acc ++ vs /\ c' <= c + Z.of_nat (length vs) /\ -2147483648 <= c'.
Proof.
  induction fuel as [|fuel IH];
    intros w W o m old c acc o' m' old' c' acc' Hc Hrun;
    cbn [read_inner] in Hrun;
    destruct (uint32 (o + w) <=? 32).
  - discriminate.
  - injection Hrun as <- <- <- <- <-. exists []. rewrite app_nil_r.
    simpl. repeat split; lia.
  - pose proof (sint32_range (c + 1)) as Hr. unfold in_int in Hr.
    pose proof (sint32_le (c + 1) ltac:(lia)) as Hle.
    destruct (m =? 0); apply IH in Hrun; try lia;
      destruct Hrun as (vs & -> & Hcount & Hc');
      eexists (_ :: vs); rewrite <- app_assoc;
      (split; [reflexivity|]); simpl length; lia.
  - injection Hrun as <- <- <- <- <-. exists []. rewrite app_nil_r.
    simpl. repeat split; lia.
Qed.

Lemma read_outer_pushes (fm : stream) :
  forall N w o m old c acc b n fm' acc',
  -2147483648 <= c ->
  read_outer fm N w o m old c acc b = Ok (n, fm', acc') ->
  exists vs, acc' = acc ++ vs /\ N <= c + Z.of_nat (length vs).
Proof.
  induction fm as [|[W|d] fm IH];
    intros N w o m old c acc b n fm' acc' Hc Hrun;
    cbn [read_outer] in Hrun;
    destruct (Z.ltb_spec c N) as [Hlt | Hge];
    try discriminate;
    try (injection Hrun as <- <- <-; exists []; rewrite app_nil_r;
         simpl; split; [reflexivity | lia]).
  destruct (read_inner inner_fuel w W o m old c acc)
    as [[[[[o1 m1] old1] c1] acc1]|e] eqn:Hinner; [|discriminate].
  cbn [bind] in Hrun.
  apply read_inner_pushes in Hinner; [|assumption].
  destruct Hinner as (vs & -> & Hcount & Hc1).
  destruct (o1 =? 32); apply IH in Hrun; try assumption;
    destruct Hrun as (vs' & -> & Hcount');
    exists (vs ++ vs'); rewrite <- app_assoc, length_app;
    (split; [reflexivity | lia]).
Qed.

(** C2 (amended).  A call of [ReadCompactSegmentation] that returns a
    byte count (not one of the error codes -2, -3) has appended at least
    [numberOfVertices] values to the vector: never fewer, possibly
    more. *)
Theorem decoded_count_at_least_vertices (kamikaze : bool) (fm : stream)
    (seg0 : list Z) (r : segmentation_read) :
  ReadCompactSegmentation kamikaze fm seg0 = Ok r ->
  sr_return r <> -2 -> sr_return r <> -3 ->
  exists vs,
    sr_segmentation r = seg0 ++ vs /\
    sr_numberOfVertices r <= Z.of_nat (length vs).
Proof.
  intros Hrun H2 H3.
  destruct fm as [|[N|d] [|[S|d'] fm]]; try discriminate.
  rewrite read_header in Hrun. unfold read_body in Hrun.
  destruct (negb kamikaze && (numberOfBitsPerSegment S =? 0)).
  { injection Hrun as <-. simpl in H2. contradiction. }
  destruct (numberOfBitsPerSegment S >? 32).
  { injection Hrun as <-. simpl in H3. contradiction. }
  destruct (read_outer fm N (numberOfBitsPerSegment S) 0 0 0 0 seg0 8)
    as [[[n fm'] acc']|e] eqn:Houter; [|discriminate].
  cbn [bind] in Hrun. injection Hrun as <-. cbn [sr_segmentation sr_numberOfVertices].
  apply read_outer_pushes in Houter; [|lia].
  destruct Houter as (vs & -> & Hcount). exists vs. split; [reflexivity | lia].
Qed.

Lemma decoded_count_at_least_vertices_witness :
  exists vs,
    [0; 1; 2; 0; 1; 0; 0; 0; 0; 0; 0; 0; 0; 0; 0; 0] = [] ++ vs /\
    5 <= Z.of_nat (length vs).
Proof.
  refine (decoded_count_at_least_vertices false
            [I32 5; I32 3; I32 292] []
            {| sr_return := 12; sr_stream := [];
               sr_segmentation :=
                 [0; 1; 2; 0; 1; 0; 0; 0; 0; 0; 0; 0; 0; 0; 0; 0];
               sr_numberOfVertices := 5; sr_numberOfSegments := 3 |}
            _ _ _).
  - vm_compute. reflexivity.
  - simpl. lia.
  - simpl. lia.
Defined.

(** C2, as stated, fails at scenario A: the stream stores 5 vertices in
    one word, and the decoder appends all 16 two-bit fields of that
    word. *)
Lemma decoded_count_exceeds_vertices :
  WriteCompactSegmentation [I32 5; I32 3] (scenarioA ++ repeat 0 11) 5 3
    = Ok (4, [I32 5; I32 3; I32 292]) /\
  ReadCompactSegmentation false [I32 5; I32 3; I32 292] []
    = Ok {| sr_return := 12; sr_stream := [];
            sr_segmentation :=
              [0; 1; 2; 0; 1; 0; 0; 0; 0; 0; 0; 0; 0; 0; 0; 0];
            sr_numberOfVertices := 5; sr_numberOfSegments := 3 |} /\
  length [0; 1; 2; 0; 1; 0; 0; 0; 0; 0; 0; 0; 0; 0; 0; 0] = 16%nat.
Proof.
  split; [vm_compute; reflexivity|].
  split; [vm_compute; reflexivity|].
  reflexivity.
Qed.

(** ** The width check *)






(** C6.  For every [numberOfSegments] from 1 to [INT_MAX] the width is
    [floor(log2(numberOfSegments)) + 1], and it is with this width that
    both the encoder and the decoder run; for [numberOfSegments = 1] it
    is 1. *)
Theorem bit_width_floor_log2 (S : Z) :
  1 <= S <= 2147483647 ->
  numberOfBitsPerSegment S = Z.log2 S + 1 /\
  (forall fm seg N,
     WriteCompactSegmentation fm seg N S
     = write_body (Z.log2 S + 1) fm seg N) /\
  (forall kamikaze N fm seg0,
     ReadCompactSegmentation kamikaze (I32 N :: I32 S :: fm) seg0
     = read_body kamikaze (Z.log2 S + 1) fm seg0 N S 8) /\
  (S = 1 -> numberOfBitsPerSegment S = 1).
Proof.
  intros HS. destruct (width_spec S HS) as (Hwidth & _ & _).
  split; [assumption|]. split; [|split].
  - intros fm seg N. unfold WriteCompactSegmentation.
    rewrite Hwidth. reflexivity.
  - intros kamikaze N fm seg0. rewrite read_header, Hwidth. reflexivity.
  - intros ->. reflexivity.
Qed.

Lemma bit_width_floor_log2_witness :
  numberOfBitsPerSegment 5 = Z.log2 5 + 1.
Proof.
  refine (proj1 (bit_width_floor_log2 5 _)). lia.
Defined.

(** ** A stream with no segment *)

Lemma read_inner_width_0 (fuel : nat) :
  forall W old c acc, read_inner fuel 0 W 0 0 old c acc = Err Diverges.
Proof.
  induction fuel as [|fuel IH]; intros W old c acc; [reflexivity|].
  cbn [read_inner]. change (uint32 (0 + 0) <=? 32) with true.
  change (0 =? 0) with true. cbv iota.
  change (sint32 (0 + 0)) with 0. apply IH.
Qed.

(** C9 (amended).  In a build without TTK_ENABLE_KAMIKAZE, on every
    stream whose [numberOfSegments] field is 0, [ReadCompactSegmentation]
    returns -2 once it has read the two header fields: the rest of the
    stream and the vector are as they were.  [log2(0)] is [UINT_MAX] and
    the width wraps to 0. *)
Theorem zero_segments_rejected (N : Z) (fm : stream) (seg0 : list Z) :
  log2 0 = UINT_MAX /\
  numberOfBitsPerSegment 0 = 0 /\
  ReadCompactSegmentation false (I32 N :: I32 0 :: fm) seg0 =
  Ok {| sr_return := -2; sr_stream := fm; sr_segmentation := seg0;
        sr_numberOfVertices := N; sr_numberOfSegments := 0 |}.
Proof. repeat split. Qed.

(** C9, as stated, fails in a build with TTK_ENABLE_KAMIKAZE: the check
    is compiled out, the decoder reads the first packed word and its
    inner loop, whose offset never moves, does not end. *)
Lemma zero_segments_kamikaze :
  ReadCompactSegmentation true [I32 1; I32 0; I32 0] [] = Err Diverges /\
  (forall fuel W old c acc,
     read_inner fuel 0 W 0 0 old c acc = Err Diverges).
Proof.
  split; [vm_compute; reflexivity|].
  intros fuel W old c acc. apply read_inner_width_0.
Qed.

(** ** Comparison of doubles *)

Lemma SFltb_irrefl (a : double) : SFltb a a = false.
Proof.
  unfold SFltb, SFcompare.
  destruct a as [s | s | | s m e]; try reflexivity.
  - destruct s; reflexivity.
  - rewrite Z.compare_refl, Pos.compare_cont_refl. destruct s; reflexivity.
Qed.

Ltac compare_cases :=
  repeat match goal with
  | |- context [Z.compare ?a ?b] =>
    destruct (Z.compare_spec a b); try lia
  | |- context [Pos.compare_cont Eq ?a ?b] =>
    change (Pos.compare_cont Eq a b) with (Pos.compare a b);
    destruct (Pos.compare_spec a b); try lia
  | H : context [Z.compare ?a ?b] |- _ =>
    destruct (Z.compare_spec a b); try lia
  | H : context [Pos.compare_cont Eq ?a ?b] |- _ =>
    change (Pos.compare_cont Eq a b) with (Pos.compare a b) in H;
    destruct (Pos.compare_spec a b); try lia
  end;
  simpl in *; try discriminate; try reflexivity; try lia.

Lemma SFltb_trans (a b d : double) :
  SFltb a b = true -> SFltb b d = true -> SFltb a d = true.
Proof.
  unfold SFltb, SFcompare.
  destruct a as [sa | sa | | sa ma ea], b as [sb | sb | | sb mb eb],
    d as [sd | sd | | sd md ed];
    try discriminate; try reflexivity;
    repeat match goal with s : bool |- _ => destruct s end;
    try discriminate; try reflexivity;
    intros H1 H2; compare_cases.
Qed.

Lemma SFltb_asym (a b : double) : SFltb a b = true -> SFltb b a = false.
Proof.
  intros Hab. destruct (SFltb b a) eqn:Hba; [|reflexivity].
  pose proof (SFltb_trans a b a Hab Hba) as Haa.
  rewrite SFltb_irrefl in Haa. discriminate.
Qed.

Lemma SFltb_neg_trans (a b d : double) :
  not_nan b ->
  SFltb a b = false -> SFltb b d = false -> SFltb a d = false.
Proof.
  unfold not_nan, SFltb, SFcompare.
  destruct a as [sa | sa | | sa ma ea], b as [sb | sb | | sb mb eb],
    d as [sd | sd | | sd md ed];
    try congruence; try reflexivity;
    repeat match goal with s : bool |- _ => destruct s end;
    try discriminate; try reflexivity;
    intros _ H1 H2; compare_cases.
Qed.

Lemma SFleb_of_not_ltb (a b : double) :
  not_nan a -> not_nan b -> SFltb a b = false -> SFleb b a = true.
Proof.
  unfold not_nan, SFltb, SFleb, SFcompare.
  destruct a as [sa | sa | | sa ma ea], b as [sb | sb | | sb mb eb];
    try congruence; try reflexivity;
    repeat match goal with s : bool |- _ => destruct s end;
    try discriminate; try reflexivity;
    intros _ _ H1; compare_cases.
Qed.

(** ** Sorting *)

Lemma insert_before_ties_perm {A : Type} (c : A -> A -> bool) (x : A)
    (l : list A) :
  Permutation (insert_before_ties c x l) (x :: l).
Proof.
  induction l as [|y l IH]; simpl; [reflexivity|].
  destruct (c y x); [|reflexivity].
  rewrite IH. apply perm_swap.
Qed.

Lemma strict_weak_on_tail {A : Type} (c : A -> A -> bool) (x : A)
    (l : list A) :
  strict_weak_on c (x :: l) -> strict_weak_on c l.
Proof.
  intros [Hasym Htrans]. split.
  - intros a b Ha Hb. apply Hasym; right; assumption.
  - intros a b d Ha Hb Hd. apply Htrans; right; assumption.
Qed.

Lemma insert_before_ties_sorted {A : Type} (c : A -> A -> bool) (x : A) :
  forall l, strict_weak_on c (x :: l) ->
  StronglySorted (fun a b => c b a = false) l ->
  StronglySorted (fun a b => c b a = false) (insert_before_ties c x l).
Proof.
  induction l as [|y l IH]; intros Hswo Hsorted; simpl.
  - constructor; constructor.
  - destruct Hswo as [Hasym Htrans].
    inversion Hsorted as [|? ? Hl Hy]; subst.
    destruct (c y x) eqn:Hyx.
    + constructor.
      * apply IH; [|assumption]. split.
        -- intros a b Ha Hb. apply Hasym; simpl in *; tauto.
        -- intros a b d Ha Hb Hd. apply Htrans; simpl in *; tauto.
      * apply (Permutation_Forall (Permutation_sym (insert_before_ties_perm c x l))).
        constructor; [|assumption].
        apply Hasym; simpl; auto.
    + constructor; [assumption|].
      constructor; [assumption|].
      rewrite Forall_forall in *. intros z Hz.
      apply (Htrans z y x); simpl; auto.
Qed.

Lemma strict_weak_on_perm {A : Type} (c : A -> A -> bool) (l l' : list A) :
  Permutation l' l -> strict_weak_on c l -> strict_weak_on c l'.
Proof.
  intros Hperm [Hasym Htrans]. split.
  - intros a b Ha Hb. apply Hasym; eapply Permutation_in; eassumption.
  - intros a b d Ha Hb Hd.
    apply Htrans; eapply Permutation_in; eassumption.
Qed.

Lemma stable_insertion_sort_contract {A : Type} :
  sort_contract (@stable_insertion_sort A).
Proof.
  intros c l. unfold stable_insertion_sort.
  induction l as [|x l [IHp IHs]]; simpl.
  - split; [reflexivity | constructor].
  - split.
    + rewrite insert_before_ties_perm. constructor. assumption.
    + intros Hswo. apply insert_before_ties_sorted.
      * apply strict_weak_on_perm with (x :: l); [|assumption].
        constructor. assumption.
      * apply IHs. apply strict_weak_on_tail with x. assumption.
Qed.

(** ** The persistence index, read *)

Lemma read_mapping_inv (n : nat) :
  forall fm ms ss b fm' ms' ss' b',
  in_int b ->
  read_mapping n fm ms ss b = Ok (fm', ms', ss', b') ->
  exists m1,
    ms' = ms ++ m1 /\ ss' = ss ++ m1 /\ length m1 = n /\
    fm = encode_mapping m1 ++ fm' /\
    b' = sint32 (b + 12 * Z.of_nat n).
Proof.
  induction n as [|n IH]; intros fm ms ss b fm' ms' ss' b' Hb Hrun;
    cbn [read_mapping] in Hrun.
  - injection Hrun as <- <- <- <-. exists [].
    rewrite !app_nil_r. repeat split.
    rewrite sint32_small; [lia|]. unfold in_int in *. lia.
  - destruct fm as [|[idv|d] [|[i|value] fm]]; try discriminate.
    cbn [Read_int Read_double bind] in Hrun.
    apply IH in Hrun; [|apply sint32_range].
    destruct Hrun as (m1 & -> & -> & Hlen & -> & ->).
    exists ((value, idv) :: m1). rewrite <- !app_assoc.
    split; [reflexivity|]. split; [reflexivity|].
    split; [simpl; lia|]. split; [reflexivity|].
    rewrite Nat2Z.inj_succ. unfold sint32. zsolve.
Qed.

Lemma read_constraints_inv (n : nat) :
  forall i fm cs min max b fm' cs' min' max' b',
  in_int b ->
  read_constraints n i fm cs min max b = Ok (fm', cs', min', max', b') ->
  exists c1,
    cs' = cs ++ c1 /\ length c1 = n /\
    fm = encode_constraints c1 ++ fm' /\
    (min', max') = widen i min max (map constraint_value c1) /\
    b' = sint32 (b + 16 * Z.of_nat n).
Proof.
  induction n as [|n IH];
    intros i fm cs min max b fm' cs' min' max' b' Hb Hrun;
    cbn [read_constraints] in Hrun.
  - injection Hrun as <- <- <- <- <-. exists [].
    rewrite !app_nil_r. repeat split.
    rewrite sint32_small; [lia|]. unfold in_int in *. lia.
  - destruct fm as [|[idVertex|d] [|[j|value] [|[vertexType|d'] fm]]];
      try discriminate.
    cbn [Read_int Read_double bind] in Hrun.
    destruct (i =? 0) eqn:Hi;
      (apply IH in Hrun; [|apply sint32_range]);
      destruct Hrun as (c1 & -> & Hlen & -> & Hw & ->);
      exists ((idVertex, value, vertexType) :: c1); rewrite <- !app_assoc;
      (split; [reflexivity|]); (split; [simpl; lia|]);
      (split; [reflexivity|]);
      (split; [cbn [map widen constraint_value fst snd]; rewrite Hi; exact Hw|]);
      rewrite Nat2Z.inj_succ; unfold sint32; zsolve.
Qed.

Lemma widen_later (values : list double) :
  forall i min max, i <> 0 -> 0 <= i ->
  widen i min max values
  = (fold_left min_step values min, fold_left max_step values max).
Proof.
  induction values as [|v values IH]; intros i min max Hi Hpos; simpl.
  - reflexivity.
  - destruct (Z.eqb_spec i 0); [contradiction|]. apply IH; lia.
Qed.

Lemma widen_first (v0 : double) (values : list double) (min max : double) :
  widen 0 min max (v0 :: values)
  = (fold_left min_step values v0, fold_left max_step values v0).
Proof.
  assert (E1 : min_step v0 v0 = v0)
    by (unfold min_step; rewrite SFltb_irrefl; reflexivity).
  assert (E2 : max_step v0 v0 = v0)
    by (unfold max_step; rewrite SFltb_irrefl; reflexivity).
  cbn [widen]. change (0 =? 0) with true. cbv beta iota.
  rewrite E1, E2. apply widen_later; lia.
Qed.

Lemma fold_min_least (values : list double) :
  forall seen m, least m seen -> least (fold_left min_step values m) (seen ++ values).
Proof.
  induction values as [|v values IH]; intros seen m Hm; simpl.
  - rewrite app_nil_r. assumption.
  - replace (seen ++ v :: values) with ((seen ++ [v]) ++ values)
      by (rewrite <- app_assoc; reflexivity).
    apply IH. destruct Hm as [Hin Hle]. unfold min_step.
    destruct (SFltb v m) eqn:Hv; split.
    + apply in_or_app. right. left. reflexivity.
    + intros u Hu. apply in_app_or in Hu. destruct Hu as [Hu | [<- | []]].
      * destruct (SFltb u v) eqn:Huv; [|reflexivity].
        rewrite <- (Hle u Hu). symmetry. apply SFltb_trans with v; assumption.
      * apply SFltb_irrefl.
    + apply in_or_app. left. assumption.
    + intros u Hu. apply in_app_or in Hu. destruct Hu as [Hu | [<- | []]].
      * apply Hle. assumption.
      * assumption.
Qed.

Lemma fold_max_greatest (values : list double) :
  forall seen m, greatest m seen ->
  greatest (fold_left max_step values m) (seen ++ values).
Proof.
  induction values as [|v values IH]; intros seen m Hm; simpl.
  - rewrite app_nil_r. assumption.
  - replace (seen ++ v :: values) with ((seen ++ [v]) ++ values)
      by (rewrite <- app_assoc; reflexivity).
    apply IH. destruct Hm as [Hin Hle]. unfold max_step.
    destruct (SFltb m v) eqn:Hv; split.
    + apply in_or_app. right. left. reflexivity.
    + intros u Hu. apply in_app_or in Hu. destruct Hu as [Hu | [<- | []]].
      * destruct (SFltb v u) eqn:Hvu; [|reflexivity].
        rewrite <- (Hle u Hu). symmetry. apply SFltb_trans with v; assumption.
      * apply SFltb_irrefl.
    + apply in_or_app. left. assumption.
    + intros u Hu. apply in_app_or in Hu. destruct Hu as [Hu | [<- | []]].
      * apply Hle. assumption.
      * assumption.
Qed.

Lemma least_singleton (v : double) : least v [v].
Proof.
  split; [left; reflexivity|].
  intros u [<- | []]. apply SFltb_irrefl.
Qed.

Lemma greatest_singleton (v : double) : greatest v [v].
Proof.
  split; [left; reflexivity|].
  intros u [<- | []]. apply SFltb_irrefl.
Qed.

Lemma least_is_below (m : double) (values : list double) :
  least m values -> Forall not_nan values ->
  forall v, In v values -> SFleb m v = true.
Proof.
  intros [Hin Hle] Hnan v Hv. rewrite Forall_forall in Hnan.
  apply SFleb_of_not_ltb; auto.
Qed.

Lemma greatest_is_above (m : double) (values : list double) :
  greatest m values -> Forall not_nan values ->
  forall v, In v values -> SFleb v m = true.
Proof.
  intros [Hin Hle] Hnan v Hv. rewrite Forall_forall in Hnan.
  apply SFleb_of_not_ltb; auto.
Qed.

Lemma SFltb_nan_l (d : double) : SFltb S754_nan d = false.
Proof. reflexivity. Qed.

Lemma SFltb_nan_r (d : double) : SFltb d S754_nan = false.
Proof. destruct d; reflexivity. Qed.

Lemma fold_min_not_nan (values : list double) :
  forall m, not_nan m -> not_nan (fold_left min_step values m).
Proof.
  induction values as [|v values IH]; intros m Hm; [assumption|].
  cbn [fold_left]. apply IH. unfold min_step.
  destruct (SFltb v m) eqn:Hv; [|assumption].
  intros ->. rewrite SFltb_nan_l in Hv. discriminate.
Qed.

Lemma fold_max_not_nan (values : list double) :
  forall m, not_nan m -> not_nan (fold_left max_step values m).
Proof.
  induction values as [|v values IH]; intros m Hm; [assumption|].
  cbn [fold_left]. apply IH. unfold max_step.
  destruct (SFltb m v) eqn:Hv; [|assumption].
  intros ->. rewrite SFltb_nan_r in Hv. discriminate.
Qed.

Section ReadIndex.

Variable std_sort :
  (mapping_entry -> mapping_entry -> bool) ->
  list mapping_entry -> list mapping_entry.

(** What a call of [ReadPersistenceIndex] that returns has read, and what
    it has made of it. *)
Lemma ReadPersistenceIndex_inv (fm : stream)
    (ms ss : list mapping_entry) (cs0 : list constraint_entry)
    (min0 max0 : double) (r : index_read) :
  ReadPersistenceIndex std_sort fm ms ss cs0 min0 max0 = Ok r ->
  exists mappingSize m1 c1,
    fm = I32 mappingSize :: encode_mapping m1
           ++ I32 (ir_nbConstraints r) :: encode_constraints c1
           ++ ir_stream r /\
    length m1 = Z.to_nat mappingSize /\
    length c1 = Z.to_nat (ir_nbConstraints r) /\
    ir_mappings r = std_sort cmp (ms ++ m1) /\
    ir_mappingsSortedPerValue r = std_sort cmp2 (ss ++ m1) /\
    ir_constraints r = cs0 ++ c1 /\
    (ir_min r, ir_max r) = widen 0 min0 max0 (map constraint_value c1) /\
    ir_return r
    = sint32 (8 + 12 * Z.of_nat (length m1) + 16 * Z.of_nat (length c1)).
Proof.
  unfold ReadPersistenceIndex. intros Hrun.
  destruct fm as [|[mappingSize|d] fm]; try discriminate.
  cbn [Read_int bind] in Hrun.
  destruct (read_mapping (Z.to_nat mappingSize) fm ms ss (sint32 (0 + 4)))
    as [[[[fm1 ms1] ss1] b1]|e] eqn:Hmap; [|discriminate].
  cbn [bind] in Hrun.
  apply read_mapping_inv in Hmap; [|apply sint32_range].
  destruct Hmap as (m1 & -> & -> & Hlen1 & -> & ->).
  destruct fm1 as [|[nbConstraints|d] fm1]; try discriminate.
  cbn [Read_int bind] in Hrun.
  match type of Hrun with
  | bind ?run _ = _ =>
    destruct run as [[[[[fm2 cs2] min2] max2] b2]|e] eqn:Hcs; [|discriminate]
  end.
  cbn [bind] in Hrun.
  apply read_constraints_inv in Hcs; [|apply sint32_range].
  destruct Hcs as (c1 & -> & Hlen2 & -> & Hwiden & ->).
  apply Ok_inj in Hrun. subst r.
  cbn [ir_return ir_stream ir_mappings ir_mappingsSortedPerValue
       ir_constraints ir_min ir_max ir_nbConstraints].
  exists mappingSize, m1, c1.
  split; [reflexivity|]. do 5 (split; [assumption || reflexivity|]).
  split; [exact Hwiden|].
  rewrite Hlen1, Hlen2. unfold sint32. zsolve.
Qed.

(** C7 (amended).  When [nbConstraints >= 1], the constraints read are
    those the stream holds after the second count; [min] and [max] start
    from the value of the first of them and are widened by every later
    one.  When that first value is not a NaN, [min] and [max] are values
    read, not NaN, and [min <= v <= max] for every value [v] read that
    is not a NaN: the minimum and the maximum of the values read when
    none of them is a NaN. *)
Theorem min_max_of_constraints (fm : stream)
    (ms ss : list mapping_entry) (cs0 : list constraint_entry)
    (min0 max0 : double) (r : index_read) :
  ReadPersistenceIndex std_sort fm ms ss cs0 min0 max0 = Ok r ->
  1 <= ir_nbConstraints r ->
  exists mappingSize m1 first later,
    fm = I32 mappingSize :: encode_mapping m1
           ++ I32 (ir_nbConstraints r)
           :: encode_constraints (first :: later) ++ ir_stream r /\
    Z.of_nat (length (first :: later)) = ir_nbConstraints r /\
    ir_constraints r = cs0 ++ first :: later /\
    ir_min r = fold_left min_step (map constraint_value later)
                 (constraint_value first) /\
    ir_max r = fold_left max_step (map constraint_value later)
                 (constraint_value first) /\
    (not_nan (constraint_value first) ->
     In (ir_min r) (map constraint_value (first :: later)) /\
     In (ir_max r) (map constraint_value (first :: later)) /\
     not_nan (ir_min r) /\ not_nan (ir_max r) /\
     forall v, In v (map constraint_value (first :: later)) -> not_nan v ->
       SFleb (ir_min r) v = true /\ SFleb v (ir_max r) = true).
Proof.
  intros Hrun Hnb.
  apply ReadPersistenceIndex_inv in Hrun.
  destruct Hrun as (mappingSize & m1 & c1 & Hfm & _ & Hlen & _ & _ & Hcs
                    & Hw & _).
  destruct c1 as [|first later]; [simpl in Hlen; lia|].
  exists mappingSize, m1, first, later.
  cbn [map] in *. rewrite widen_first in Hw.
  injection Hw as Hmin Hmax.
  split; [assumption|]. split; [lia|]. split; [assumption|].
  split; [assumption|]. split; [assumption|].
  intros Hfirst.
  assert (Hleast : least (ir_min r)
                     (constraint_value first :: map constraint_value later)).
  { rewrite Hmin.
    apply (fold_min_least _ [constraint_value first]), least_singleton. }
  assert (Hgreatest : greatest (ir_max r)
                        (constraint_value first
                         :: map constraint_value later)).
  { rewrite Hmax.
    apply (fold_max_greatest _ [constraint_value first]),
      greatest_singleton. }
  assert (Hmin_ok : not_nan (ir_min r))
    by (rewrite Hmin; apply fold_min_not_nan; assumption).
  assert (Hmax_ok : not_nan (ir_max r))
    by (rewrite Hmax; apply fold_max_not_nan; assumption).
  destruct Hleast as [Hin_min Hbelow].
  destruct Hgreatest as [Hin_max Habove].
  split; [assumption|]. split; [assumption|].
  split; [assumption|]. split; [assumption|].
  intros v Hv Hnan. split.
  - apply SFleb_of_not_ltb; [assumption|assumption|]. apply Hbelow, Hv.
  - apply SFleb_of_not_ltb; [assumption|assumption|]. apply Habove, Hv.
Qed.

(** C10.  When the constraints count read is 0, [min] and [max] are what
    the caller passed in and the constraint vector is as it was, while
    the mapping is read, both views of it are sorted, and the byte count
    is returned. *)
Theorem no_constraints_keeps_min_max (fm : stream)
    (ms ss : list mapping_entry) (cs0 : list constraint_entry)
    (min0 max0 : double) (r : index_read) :
  ReadPersistenceIndex std_sort fm ms ss cs0 min0 max0 = Ok r ->
  ir_nbConstraints r = 0 ->
  ir_min r = min0 /\ ir_max r = max0 /\ ir_constraints r = cs0 /\
  exists mappingSize m1,
    fm = I32 mappingSize :: encode_mapping m1 ++ I32 0 :: ir_stream r /\
    ir_mappings r = std_sort cmp (ms ++ m1) /\
    ir_mappingsSortedPerValue r = std_sort cmp2 (ss ++ m1) /\
    ir_return r = sint32 (8 + 12 * Z.of_nat (length m1)).
Proof.
  intros Hrun Hnb.
  apply ReadPersistenceIndex_inv in Hrun.
  destruct Hrun as (mappingSize & m1 & c1 & Hfm & _ & Hlen & Hm & Hs & Hcs & Hw & Hret).
  rewrite Hnb in *.
  destruct c1 as [|first later]; [|simpl in Hlen; lia].
  cbn [map widen encode_constraints flat_map app] in *.
  injection Hw as -> ->. rewrite app_nil_r in Hcs.
  do 3 (split; [assumption || reflexivity|]).
  exists mappingSize, m1.
  do 3 (split; [assumption|]).
  rewrite Hret. f_equal. simpl length. lia.
Qed.

End ReadIndex.

Lemma min_max_of_constraints_witness :
  exists mappingSize m1 first later,
    [I32 0; I32 3; I32 4; F64 d_two; I32 0; I32 9; F64 S754_nan; I32 1;
     I32 5; F64 d_half; I32 2]
    = I32 mappingSize :: encode_mapping m1
        ++ I32 3 :: encode_constraints (first :: later) ++ [] /\
    Z.of_nat (length (first :: later)) = 3 /\
    [(4, d_two, 0); (9, S754_nan, 1); (5, d_half, 2)]
    = [] ++ first :: later /\
    d_half = fold_left min_step (map constraint_value later)
               (constraint_value first) /\
    d_two = fold_left max_step (map constraint_value later)
              (constraint_value first) /\
    (not_nan (constraint_value first) ->
     In d_half (map constraint_value (first :: later)) /\
     In d_two (map constraint_value (first :: later)) /\
     not_nan d_half /\ not_nan d_two /\
     forall v, In v (map constraint_value (first :: later)) -> not_nan v ->
       SFleb d_half v = true /\ SFleb v d_two = true).
Proof.
  refine (min_max_of_constraints (@stable_insertion_sort mapping_entry)
            [I32 0; I32 3; I32 4; F64 d_two; I32 0; I32 9; F64 S754_nan;
             I32 1; I32 5; F64 d_half; I32 2]
            [] [] [] d_one d_one
            {| ir_return := 56; ir_stream := [];
               ir_mappings := []; ir_mappingsSortedPerValue := [];
               ir_constraints :=
                 [(4, d_two, 0); (9, S754_nan, 1); (5, d_half, 2)];
               ir_min := d_half; ir_max := d_two;
               ir_nbConstraints := 3 |} _ _).
  - vm_compute. reflexivity.
  - simpl. lia.
Defined.

(** C7, as stated, fails when the first value read is a NaN: no later
    value compares below or above it, so [min] and [max] both stay NaN,
    while the values 1 and 2 were read after it.  NaN is neither the
    minimum nor the maximum of the values: it is not below 1 and 2 is
    not below it. *)
Lemma min_max_nan_first :
  ReadPersistenceIndex (@gnu_std_sort mapping_entry)
    [I32 0; I32 3; I32 4; F64 S754_nan; I32 0; I32 9; F64 d_one; I32 1;
     I32 5; F64 d_two; I32 2]
    [] [] [] d_half d_half
  = Ok {| ir_return := 56; ir_stream := [];
          ir_mappings := []; ir_mappingsSortedPerValue := [];
          ir_constraints :=
            [(4, S754_nan, 0); (9, d_one, 1); (5, d_two, 2)];
          ir_min := S754_nan; ir_max := S754_nan;
          ir_nbConstraints := 3 |} /\
  SFleb S754_nan d_one = false /\
  SFleb d_two S754_nan = false /\
  SFltb d_one d_two = true.
Proof.
  split; [vm_compute; reflexivity|].
  split; [reflexivity|]. split; reflexivity.
Qed.

Lemma no_constraints_keeps_min_max_witness :
  d_half = d_half /\ d_two = d_two /\ @nil constraint_entry = [] /\
  exists mappingSize m1,
    [I32 1; I32 7; F64 d_one; I32 0]
    = I32 mappingSize :: encode_mapping m1 ++ I32 0 :: [] /\
    [(d_one, 7)] = stable_insertion_sort cmp ([] ++ m1) /\
    [(d_one, 7)] = stable_insertion_sort cmp2 ([] ++ m1) /\
    20 = sint32 (8 + 12 * Z.of_nat (length m1)).
Proof.
  refine (no_constraints_keeps_min_max (@stable_insertion_sort mapping_entry)
            [I32 1; I32 7; F64 d_one; I32 0]
            [] [] [] d_half d_two
            {| ir_return := 20; ir_stream := [];
               ir_mappings := [(d_one, 7)];
               ir_mappingsSortedPerValue := [(d_one, 7)];
               ir_constraints := [];
               ir_min := d_half; ir_max := d_two;
               ir_nbConstraints := 0 |} _ _).
  - vm_compute. reflexivity.
  - reflexivity.
Defined.

(** ** The persistence index, written and read back *)

Lemma vec_at_middle {A : Type} (pre suf : list A) (x : A) :
  vec_at (pre ++ x :: suf) (Z.of_nat (length pre)) = Ok x.
Proof.
  apply vec_at_Ok. split; [lia|].
  rewrite Nat2Z.id, nth_error_app2, Nat.sub_diag by lia. reflexivity.
Qed.

Lemma write_mapping_spec (suf : list mapping_entry) :
  forall pre fm b, in_int b ->
  write_mapping (length suf) (Z.of_nat (length pre)) fm (pre ++ suf) b
  = Ok (fm ++ encode_mapping suf, sint32 (b + 12 * Z.of_nat (length suf))).
Proof.
  induction suf as [|x suf IH]; intros pre fm b Hb; cbn [length write_mapping].
  - cbn [encode_mapping flat_map]. rewrite app_nil_r.
    rewrite sint32_small; [do 3 f_equal; lia|].
    unfold in_int in *. simpl. lia.
  - rewrite vec_at_middle. cbn [bind].
    replace (Z.of_nat (length pre) + 1) with (Z.of_nat (length (pre ++ [x])))
      by (rewrite length_app; simpl; lia).
    replace (pre ++ x :: suf) with ((pre ++ [x]) ++ suf)
      by (rewrite <- app_assoc; reflexivity).
    rewrite IH by apply sint32_range.
    unfold Write_int, Write_double. rewrite <- !app_assoc.
    cbn [encode_mapping flat_map app]. do 2 f_equal.
    rewrite Nat2Z.inj_succ. unfold sint32. zsolve.
Qed.

Lemma write_constraints_spec (suf : list constraint_entry) :
  forall pre fm b, in_int b ->
  write_constraints (length suf) (Z.of_nat (length pre)) fm (pre ++ suf) b
  = Ok (fm ++ encode_constraints suf,
        sint32 (b + 16 * Z.of_nat (length suf))).
Proof.
  induction suf as [|[[idVertex value] vertexType] suf IH];
    intros pre fm b Hb; cbn [length write_constraints].
  - cbn [encode_constraints flat_map]. rewrite app_nil_r.
    rewrite sint32_small; [do 3 f_equal; lia|].
    unfold in_int in *. simpl. lia.
  - rewrite vec_at_middle. cbn [bind].
    pose proof (IH (pre ++ [(idVertex, value, vertexType)])
                  (Write_int (Write_double (Write_int fm idVertex) value)
                     vertexType)
                  (sint32 (sint32 (sint32 (b + 4) + 8) + 4))
                  (sint32_range _)) as IH'.
    rewrite <- app_assoc, length_app, Nat2Z.inj_add in IH'.
    cbn [app length Z.of_nat Pos.of_succ_nat] in IH'. rewrite IH'.
    unfold Write_int, Write_double. rewrite <- !app_assoc.
    cbn [encode_constraints flat_map app fst snd]. do 2 f_equal.
    rewrite Nat2Z.inj_succ. unfold sint32. zsolve.
Qed.

Lemma WritePersistenceIndex_spec (fm : stream) (m : list mapping_entry)
    (c : list constraint_entry) :
  Z.of_nat (length m) <= 2147483647 ->
  Z.of_nat (length c) <= 2147483647 ->
  WritePersistenceIndex fm m c
  = Ok (sint32 (8 + 12 * Z.of_nat (length m) + 16 * Z.of_nat (length c)),
        fm ++ I32 (Z.of_nat (length m)) :: encode_mapping m
           ++ I32 (Z.of_nat (length c)) :: encode_constraints c).
Proof.
  intros Hm Hc. unfold WritePersistenceIndex.
  rewrite !sint32_small by (unfold in_int; lia).
  rewrite !Nat2Z.id.
  pose proof (write_mapping_spec m [] (Write_int fm (Z.of_nat (length m)))
                (0 + 4) ltac:(unfold in_int; lia)) as Hmap.
  cbn [length app Z.of_nat] in Hmap. rewrite Hmap. cbn [bind].
  pose proof (write_constraints_spec c []
                (Write_int (Write_int fm (Z.of_nat (length m))
                              ++ encode_mapping m)
                   (Z.of_nat (length c)))
                (sint32 (sint32 (0 + 4 + 12 * Z.of_nat (length m)) + 4))
                (sint32_range _)) as Hcs.
  cbn [length app Z.of_nat] in Hcs. rewrite Hcs. cbn [bind].
  unfold Write_int. rewrite <- !app_assoc. cbn [app].
  do 2 f_equal. unfold sint32. zsolve.
Qed.

Lemma read_mapping_spec (m : list mapping_entry) :
  forall rest ms ss b, in_int b ->
  read_mapping (length m) (encode_mapping m ++ rest) ms ss b
  = Ok (rest, ms ++ m, ss ++ m, sint32 (b + 12 * Z.of_nat (length m))).
Proof.
  induction m as [|[value idv] m IH]; intros rest ms ss b Hb;
    cbn [length read_mapping encode_mapping flat_map app].
  - rewrite !app_nil_r. rewrite sint32_small; [do 2 f_equal; lia|].
    unfold in_int in *. simpl. lia.
  - cbn [Read_int Read_double bind fst snd].
    fold (encode_mapping m). rewrite IH by apply sint32_range.
    rewrite <- !app_assoc. cbn [app]. do 2 f_equal.
    rewrite Nat2Z.inj_succ. unfold sint32. zsolve.
Qed.

Lemma read_constraints_spec (c : list constraint_entry) :
  forall i rest cs min max b, in_int b ->
  read_constraints (length c) i (encode_constraints c ++ rest) cs min max b
  = Ok (rest, cs ++ c,
        fst (widen i min max (map constraint_value c)),
        snd (widen i min max (map constraint_value c)),
        sint32 (b + 16 * Z.of_nat (length c))).
Proof.
  induction c as [|[[idVertex value] vertexType] c IH];
    intros i rest cs min max b Hb;
    cbn [length read_constraints encode_constraints flat_map app map widen].
  - rewrite !app_nil_r. rewrite sint32_small; [do 2 f_equal; lia|].
    unfold in_int in *. simpl. lia.
  - cbn [Read_int Read_double bind fst snd constraint_value].
    fold (encode_constraints c).
    destruct (i =? 0); rewrite IH by apply sint32_range;
      rewrite <- !app_assoc; cbn [app]; do 2 f_equal;
      rewrite Nat2Z.inj_succ; unfold sint32; zsolve.
Qed.

Lemma StronglySorted_weaken {A : Type} (R R' : A -> A -> Prop) (l : list A) :
  (forall a b, In a l -> In b l -> R a b -> R' a b) ->
  StronglySorted R l -> StronglySorted R' l.
Proof.
  induction l as [|x l IH]; intros Himp Hs; [constructor|].
  inversion Hs as [|? ? Hl Hx]; subst. constructor.
  - apply IH; [|assumption].
    intros a b Ha Hb. apply Himp; right; assumption.
  - rewrite Forall_forall in *. intros y Hy.
    apply Himp; [left; reflexivity | right; assumption | auto].
Qed.

Lemma cmp_strict_weak (m : list mapping_entry) : strict_weak_on cmp m.
Proof.
  unfold cmp. split.
  - intros a b _ _ H. apply Z.ltb_lt in H. apply Z.ltb_ge. lia.
  - intros a b d _ _ _ H1 H2.
    apply Z.ltb_ge in H1, H2. apply Z.ltb_ge. lia.
Qed.

Lemma cmp2_strict_weak (m : list mapping_entry) :
  Forall (fun e => not_nan (fst e)) m -> strict_weak_on cmp2 m.
Proof.
  unfold cmp2. intros Hnan. rewrite Forall_forall in Hnan. split.
  - intros a b _ _. apply SFltb_asym.
  - intros a b d _ Hb _. apply SFltb_neg_trans. apply Hnan. assumption.
Qed.

(** C4 (amended).  With any [std::sort] that meets its contract, a
    mapping table [m] without NaN values and a constraint list [c]
    (fewer than [2^31] entries each), written in caller order and read
    back, give: a permutation of [m] in ascending order of vertexId, a
    permutation of [m] in ascending order of value, and [c] itself,
    entry for entry.  Nothing is promised about the order of entries
    that have the same value. *)
Theorem index_roundtrip
    (std_sort : (mapping_entry -> mapping_entry -> bool) ->
                list mapping_entry -> list mapping_entry)
    (m : list mapping_entry) (c : list constraint_entry) :
  sort_contract std_sort ->
  Z.of_nat (length m) <= 2147483647 ->
  Z.of_nat (length c) <= 2147483647 ->
  Forall (fun e => not_nan (fst e)) m ->
  exists n file,
    WritePersistenceIndex [] m c = Ok (n, file) /\
    file = I32 (Z.of_nat (length m)) :: encode_mapping m
             ++ I32 (Z.of_nat (length c)) :: encode_constraints c /\
    forall rest min0 max0,
    exists r,
      ReadPersistenceIndex std_sort (file ++ rest) [] [] [] min0 max0 = Ok r /\
      Permutation (ir_mappings r) m /\
      StronglySorted (fun a b => snd a <= snd b) (ir_mappings r) /\
      Permutation (ir_mappingsSortedPerValue r) m /\
      StronglySorted (fun a b => SFleb (fst a) (fst b) = true)
        (ir_mappingsSortedPerValue r) /\
      ir_constraints r = c /\
      ir_nbConstraints r = Z.of_nat (length c) /\
      ir_stream r = rest /\
      ir_return r = n.
Proof.
  intros Hsort Hm Hc Hnan.
  rewrite WritePersistenceIndex_spec by assumption.
  eexists _, _. split; [reflexivity|]. split; [reflexivity|].
  intros rest min0 max0.
  unfold ReadPersistenceIndex. cbn [app Read_int bind].
  rewrite Nat2Z.id, <- app_assoc.
  rewrite read_mapping_spec by apply sint32_range. cbn [bind app Read_int].
  rewrite Nat2Z.id, read_constraints_spec by apply sint32_range.
  cbn [bind app]. eexists. split; [reflexivity|].
  cbn [ir_mappings ir_mappingsSortedPerValue ir_constraints
       ir_nbConstraints ir_stream ir_return].
  destruct (Hsort cmp m) as [Hperm1 Hsorted1].
  destruct (Hsort cmp2 m) as [Hperm2 Hsorted2].
  split; [assumption|]. split.
  { apply StronglySorted_weaken
      with (R := fun a b => cmp b a = false);
      [|apply Hsorted1, cmp_strict_weak].
    unfold cmp. intros a b _ _ H. apply Z.ltb_ge in H. assumption. }
  split; [assumption|]. split.
  { apply StronglySorted_weaken
      with (R := fun a b => cmp2 b a = false);
      [|apply Hsorted2, cmp2_strict_weak; assumption].
    unfold cmp2. intros a b Ha Hb H.
    rewrite Forall_forall in Hnan.
    apply SFleb_of_not_ltb; [| |assumption]; apply Hnan;
      eapply Permutation_in; eassumption. }
  split; [reflexivity|]. split; [reflexivity|]. split; [reflexivity|].
  unfold sint32. zsolve.
Qed.

Lemma index_roundtrip_witness :
  exists n file,
    WritePersistenceIndex [] [(d_two, 7); (d_one, 3)] [(4, d_half, 0)]
      = Ok (n, file) /\
    file = I32 (Z.of_nat 2) :: encode_mapping [(d_two, 7); (d_one, 3)]
             ++ I32 (Z.of_nat 1) :: encode_constraints [(4, d_half, 0)] /\
    forall rest min0 max0,
    exists r,
      ReadPersistenceIndex (@stable_insertion_sort mapping_entry)
        (file ++ rest) [] [] [] min0 max0 = Ok r /\
      Permutation (ir_mappings r) [(d_two, 7); (d_one, 3)] /\
      StronglySorted (fun a b => snd a <= snd b) (ir_mappings r) /\
      Permutation (ir_mappingsSortedPerValue r) [(d_two, 7); (d_one, 3)] /\
      StronglySorted (fun a b => SFleb (fst a) (fst b) = true)
        (ir_mappingsSortedPerValue r) /\
      ir_constraints r = [(4, d_half, 0)] /\
      ir_nbConstraints r = Z.of_nat 1 /\
      ir_stream r = rest /\
      ir_return r = n.
Proof.
  refine (index_roundtrip (@stable_insertion_sort mapping_entry)
            [(d_two, 7); (d_one, 3)] [(4, d_half, 0)] _ _ _ _).
  - exact stable_insertion_sort_contract.
  - simpl. lia.
  - simpl. lia.
  - repeat constructor; discriminate.
Defined.

(** C4, as stated, fails: [std::sort] does not keep entries with equal
    values in the order read.  Seventeen entries with the value 1, read
    with the vertices 0 to 16 in this order: the GNU library's
    [std::sort] swaps the middle entry to the front and partitions the
    others around it, and the value-ordered view comes back as the
    vertices 8, 16, 15, ..., 9, 0, 7, ..., 1.  And with a NaN among the
    values there is no strict weak ordering to sort by: the values
    [0; 2; NaN; 1] are left as they are, 2 before 1. *)
Lemma index_ties_not_stable :
  WritePersistenceIndex [] seventeen_ties []
    = Ok (212, I32 17 :: encode_mapping seventeen_ties ++ [I32 0]) /\
  libstdcxx.sort cmp2 seventeen_ties
    = Ok (map (fun id => (d_one, id))
            [8; 16; 15; 14; 13; 12; 11; 10; 9; 0; 7; 6; 5; 4; 3; 2; 1]) /\
  ReadPersistenceIndex (@gnu_std_sort mapping_entry)
    (I32 17 :: encode_mapping seventeen_ties ++ [I32 0]) [] [] [] d_one d_one
    = Ok {| ir_return := 212; ir_stream := [];
            ir_mappings := seventeen_ties;
            ir_mappingsSortedPerValue :=
              map (fun id => (d_one, id))
                [8; 16; 15; 14; 13; 12; 11; 10; 9; 0; 7; 6; 5; 4; 3; 2; 1];
            ir_constraints := [];
            ir_min := d_one; ir_max := d_one;
            ir_nbConstraints := 0 |} /\
  map (fun id => (d_one, id))
    [8; 16; 15; 14; 13; 12; 11; 10; 9; 0; 7; 6; 5; 4; 3; 2; 1]
  <> seventeen_ties /\
  ReadPersistenceIndex (@gnu_std_sort mapping_entry)
    [I32 4; I32 0; F64 d_zero; I32 1; F64 d_two; I32 2; F64 S754_nan;
     I32 3; F64 d_one; I32 0]
    [] [] [] d_one d_one
    = Ok {| ir_return := 56; ir_stream := [];
            ir_mappings :=
              [(d_zero, 0); (d_two, 1); (S754_nan, 2); (d_one, 3)];
            ir_mappingsSortedPerValue :=
              [(d_zero, 0); (d_two, 1); (S754_nan, 2); (d_one, 3)];
            ir_constraints := [];
            ir_min := d_one; ir_max := d_one;
            ir_nbConstraints := 0 |} /\
  SFltb d_one d_two = true.
Proof.
  split; [vm_compute; reflexivity|].
  split; [vm_compute; reflexivity|].
  split; [vm_compute; reflexivity|].
  split; [discriminate|].
  split; vm_compute; reflexivity.
Qed.

(** ** The guard of CompressWithZFP *)

(** C8.  On a grid with all dimensions at least 1 and two of them equal
    to 1, [CompressWithZFP] returns 0 with the error message, whether it
    was asked to compress or to decompress, and leaves the file and the
    array as they were: the zfp library is not called. *)
Theorem one_dimensional_grid_rejected (File : Type)
    (zfp_transfer : File -> bool -> list double -> zfp_field -> double ->
                    zfp_outcome File)
    (file : File) (decompress : bool) (array : list double)
    (nx ny nz : Z) (zfpTolerance : double) :
  1 <= nx -> 1 <= ny -> 1 <= nz ->
  (nx = 1 /\ ny = 1) \/ (ny = 1 /\ nz = 1) \/ (nx = 1 /\ nz = 1) ->
  CompressWithZFP File zfp_transfer file decompress array nx ny nz
    zfpTolerance
  = {| zfp_return := 0; zfp_file := file; zfp_array := array;
       zfp_errors := ["One-dimensional arrays not supported."%string] |}.
Proof.
  intros Hx Hy Hz Hflat. unfold CompressWithZFP.
  assert (Hguard :
    ((nx =? 1) || (ny =? 1) || (nz =? 1))
    && ((sint32 (nx + ny) =? 2) || (sint32 (ny + nz) =? 2)
        || (sint32 (nx + nz) =? 2)) = true).
  { destruct Hflat as [[-> ->] | [[-> ->] | [-> ->]]].
    - reflexivity.
    - change (sint32 (1 + 1) =? 2) with true.
      rewrite !orb_true_r. reflexivity.
    - change (sint32 (1 + 1) =? 2) with true.
      rewrite !orb_true_r. reflexivity. }
  rewrite Hguard. reflexivity.
Qed.

Lemma one_dimensional_grid_rejected_witness :
  CompressWithZFP unit
    (fun _ _ array _ _ =>
       {| zfp_return := 1; zfp_file := tt; zfp_array := array;
          zfp_errors := [] |})
    tt true [d_one; d_two; d_half] 1 3 1 d_half
  = {| zfp_return := 0; zfp_file := tt;
       zfp_array := [d_one; d_two; d_half];
       zfp_errors := ["One-dimensional arrays not supported."%string] |}.
Proof.
  refine (one_dimensional_grid_rejected unit _ tt true _ 1 3 1 d_half
            _ _ _ _).
  - lia.
  - lia.
  - lia.
  - right. right. split; reflexivity.
Defined.

(* ================================================================== *)
(** * Further properties *)

(** ** The width brackets the segment count *)

(** X1.  For [1 <= numberOfSegments <= INT_MAX] the width [w] is the
    number of bits of [numberOfSegments] itself:
    [2^(w-1) <= numberOfSegments < 2^w].  Every value up to
    [numberOfSegments] fits in a field, and a power of two takes one bit
    more than the values below it need. *)
Theorem width_brackets_segments (S : Z) :
  1 <= S <= 2147483647 ->
  2 ^ (numberOfBitsPerSegment S - 1) <= S < 2 ^ numberOfBitsPerSegment S.
Proof.
  intros HS. destruct (width_spec S HS) as (-> & Hw & Hup).
  split; [|assumption].
  replace (Z.log2 S + 1 - 1) with (Z.log2 S) by lia.
  apply Z.log2_spec. lia.
Qed.

Lemma width_brackets_segments_witness :
  2 ^ (numberOfBitsPerSegment 4 - 1) <= 4 < 2 ^ numberOfBitsPerSegment 4.
Proof.
  refine (width_brackets_segments 4 _). lia.
Defined.

(** ** The decoder on any stream *)

Lemma range_of_bits (d w : Z) :
  0 <= w -> (forall i, w <= i -> Z.testbit d i = false) -> 0 <= d < 2 ^ w.
Proof.
  intros Hw Hbits.
  assert (E : d = d mod 2 ^ w).
  { apply Z.bits_inj'. intros i Hi.
    rewrite Z.testbit_mod_pow2 by lia.
    destruct (Z.ltb_spec i w) as [Hlt | Hge]; [reflexivity|].
    rewrite Hbits by lia. reflexivity. }
  rewrite E. apply Z.mod_pos_bound. apply Z.pow_pos_nonneg; lia.
Qed.

Lemma shr_masked_range (x s : Z) :
  in_int x -> 1 <= s <= 31 ->
  0 <= shr_masked x s (31 - s) < 2 ^ (32 - s).
Proof.
  intros Hx Hs. apply range_of_bits; [lia|].
  intros i Hi. rewrite shr_masked_testbit by (assumption || lia).
  destruct (Z.ltb_spec i (32 - s)); [lia | reflexivity].
Qed.

Lemma lor_below_pow2 (a b w : Z) :
  0 <= w -> 0 <= a < 2 ^ w -> 0 <= b < 2 ^ w -> 0 <= Z.lor a b < 2 ^ w.
Proof.
  intros Hw Ha Hb. apply range_of_bits; [assumption|].
  intros i Hi. rewrite Z.lor_spec.
  rewrite (small_testbit_high a w i), (small_testbit_high b w i) by lia.
  reflexivity.
Qed.

Section AnyStream.

Variable w : Z.
Hypothesis Hw : 1 <= w <= 31.

Lemma decoded_field_range (W o : Z) :
  0 <= shr_masked (shl W o) (uint32 (32 - w)) (uint32 (w - 1)) < 2 ^ w.
Proof.
  rewrite !uint32_small by lia.
  replace (w - 1) with (31 - (32 - w)) by lia.
  replace (2 ^ w) with (2 ^ (32 - (32 - w))) by (f_equal; lia).
  apply shr_masked_range; [apply shl_range | lia].
Qed.

(** The decoder's inner loop on any word, nothing pending: every value
    pushed is a value of [w] bits, and the loop stops at the last field
    that fits. *)
Lemma read_inner_range (fuel : nat) :
  forall W o old c acc o' m' old' c' acc',
  0 <= o <= 32 -> 0 <= c -> c + Z.of_nat fuel < 2147483648 ->
  read_inner fuel w W o 0 old c acc = Ok (o', m', old', c', acc') ->
  exists vs,
    acc' = acc ++ vs /\ m' = 0 /\
    Forall (fun v => 0 <= v < 2 ^ w) vs /\
    c' = c + Z.of_nat (length vs) /\
    Z.of_nat (length vs) * w = o' - o /\ o' <= 32 < o' + w.
Proof.
  induction fuel as [|fuel IH];
    intros W o old c acc o' m' old' c' acc' Ho Hc Hfuel Hrun.
  - destruct (Z.le_gt_cases (o + w) 32) as [Hfit | Hfull].
    + simpl in Hrun. rewrite uint32_small in Hrun by lia.
      destruct (Z.leb_spec (o + w) 32); [discriminate | lia].
    + rewrite read_inner_exit in Hrun by lia.
      apply Ok_inj in Hrun. injection Hrun as <- <- <- <- <-.
      exists []. rewrite app_nil_r. simpl.
      repeat split; try lia. constructor.
  - destruct (Z.le_gt_cases (o + w) 32) as [Hfit | Hfull].
    + rewrite read_inner_field in Hrun by lia.
      apply IH in Hrun; [|lia|lia|lia].
      destruct Hrun as (vs & -> & Hm & Hall & -> & Hlen & Hend).
      eexists (_ :: vs). rewrite <- app_assoc.
      split; [reflexivity|]. split; [assumption|].
      split; [constructor; [apply decoded_field_range | assumption]|].
      simpl length. split; [lia|]. split; lia.
    + rewrite read_inner_exit in Hrun by lia.
      apply Ok_inj in Hrun. injection Hrun as <- <- <- <- <-.
      exists []. rewrite app_nil_r. simpl.
      repeat split; try lia. constructor.
Qed.

(** One word of any stream, from a state the decoder can be in: the
    fields after the first take less than a word. *)
Lemma read_word_range (W o m old c : Z) (acc : list Z)
    (o1 m1 old1 c1 : Z) (acc1 : list Z) :
  decoder_ready w o m old -> 0 <= c -> c + 33 < 2147483648 ->
  read_inner inner_fuel w W o m old c acc = Ok (o1, m1, old1, c1, acc1) ->
  exists vs,
    acc1 = acc ++ vs /\
    Forall (fun v => 0 <= v < 2 ^ w) vs /\
    c1 = c + Z.of_nat (length vs) /\
    (Z.of_nat (length vs) - 1) * w <= 31 /\
    1 <= o1 <= 32 /\ 32 < o1 + w.
Proof.
  intros [Ho Hstate] Hc Hwrap Hrun.
  destruct Hstate as [-> | (Hm & Hom & Ho1 & Hold)].
  - apply read_inner_range in Hrun; try (unfold inner_fuel; lia).
    destruct Hrun as (vs & -> & _ & Hall & -> & Hlen & Hend).
    exists vs. rewrite Z.mul_sub_distr_r.
    repeat split; try assumption; lia.
  - destruct (Z.le_gt_cases (o + w) 32) as [Hfit | Hfull].
    + change inner_fuel with (S 32) in Hrun.
      rewrite read_inner_carry in Hrun by lia.
      apply read_inner_range in Hrun; try lia.
      destruct Hrun as (vs & -> & _ & Hall & -> & Hlen & Hend).
      eexists (_ :: vs). rewrite <- app_assoc.
      split; [reflexivity|]. split.
      { constructor; [|assumption].
        apply lor_below_pow2; [lia|apply decoded_field_range|].
        replace (32 - m - 1) with (31 - m) by lia.
        pose proof (shr_masked_range old m Hold Hm) as Hr.
        assert (2 ^ (32 - m) <= 2 ^ w) by (apply Z.pow_le_mono_r; lia).
        lia. }
      replace (Z.of_nat (length (_ :: vs)) - 1)
        with (Z.of_nat (length vs)) by (simpl length; lia).
      simpl length. repeat split; lia.
    + rewrite read_inner_exit in Hrun by lia.
      apply Ok_inj in Hrun. injection Hrun as <- <- <- <- <-.
      exists []. rewrite app_nil_r. simpl length.
      repeat split; try lia. constructor.
Qed.

(** Any stream of [int]s: the values pushed are values of [w] bits, and
    those pushed beyond the vertex count take less than a word. *)
Lemma read_outer_range (fm : stream) :
  forall N o m old c acc b n fm' acc',
  int_words fm -> decoder_ready w o m old ->
  N + 33 < 2147483648 -> 0 <= c -> (c - N) * w <= 31 ->
  read_outer fm N w o m old c acc b = Ok (n, fm', acc') ->
  exists vs,
    acc' = acc ++ vs /\
    Forall (fun v => 0 <= v < 2 ^ w) vs /\
    (c + Z.of_nat (length vs) - N) * w <= 31 /\
    (N <= c -> vs = []).
Proof.
  induction fm as [|[W|d] fm IH];
    intros N o m old c acc b n fm' acc' Hints Hready HN Hc Hover Hrun;
    destruct (Z.lt_ge_cases c N) as [Hlt | Hge];
    try (rewrite read_outer_done in Hrun by lia;
         apply Ok_inj in Hrun; injection Hrun as <- <- <-;
         exists []; rewrite app_nil_r; simpl length;
         rewrite Z.add_0_r;
         repeat split; first [assumption | constructor | reflexivity]);
    try (cbn [read_outer] in Hrun;
         destruct (Z.ltb_spec c N); [discriminate | lia]).
  inversion Hints as [|? ? HW Hints']; subst.
  destruct (read_inner inner_fuel w W o m old c acc)
    as [[[[[o1 m1] old1] c1] acc1]|e] eqn:Hinner.
  2:{ cbn [read_outer] in Hrun. destruct (Z.ltb_spec c N); [|lia].
      rewrite Hinner in Hrun. discriminate. }
  rewrite (read_outer_word fm N w W o m old c acc b o1 m1 old1 c1 acc1)
    in Hrun by (assumption || lia).
  apply read_word_range in Hinner; [|assumption|lia|lia].
  destruct Hinner as (vs & -> & Hall & -> & Hcount & Ho1 & Hend).
  assert (Hover1 : (c + Z.of_nat (length vs) - N) * w <= 31).
  { apply Z.le_trans with ((Z.of_nat (length vs) - 1) * w); [|assumption].
    apply Z.mul_le_mono_nonneg_r; lia. }
  apply IH in Hrun; [|assumption| |lia|lia|assumption].
  - destruct Hrun as (vs' & -> & Hall' & Hcount' & Hdone).
    exists (vs ++ vs'). rewrite <- app_assoc, length_app, Nat2Z.inj_add.
    split; [reflexivity|]. split; [apply Forall_app; auto|].
    split; [|lia].
    replace (c + (Z.of_nat (length vs) + Z.of_nat (length vs')) - N)
      with (c + Z.of_nat (length vs) + Z.of_nat (length vs') - N) by lia.
    assumption.
  - unfold decoder_ready.
    destruct (Z.eqb_spec o1 32) as [-> | Hne].
    + change (Z.rem 32 32) with 0. split; [lia | left; reflexivity].
    + rewrite sint32_small by (unfold in_int; lia).
      rewrite Z.rem_mod_nonneg by lia.
      split; [zsolve|]. right.
      split; [lia|]. split; [zsolve|]. split; [zsolve | assumption].
Qed.

End AnyStream.

Lemma width_of_nonzero (S : Z) :
  in_int S -> S <> 0 -> 1 <= numberOfBitsPerSegment S <= 31.
Proof.
  intros HS Hnz. destruct (Z.lt_ge_cases S 1) as [Hneg | Hpos].
  - assert (E : numberOfBitsPerSegment S = 1); [|lia].
    unfold numberOfBitsPerSegment, log2.
    destruct (Z.eqb_spec S 0); [lia|].
    destruct (Z.eqb_spec S 1); [lia|].
    destruct S; [lia|lia|reflexivity].
  - unfold in_int in HS.
    destruct (width_spec S) as (-> & Hw & _); lia.
Qed.

Lemma read_any_stream (kamikaze : bool) (N S : Z) (fm : stream)
    (seg0 : list Z) (r : segmentation_read) :
  in_int S -> S <> 0 -> N + 33 < 2147483648 -> int_words fm ->
  ReadCompactSegmentation kamikaze (I32 N :: I32 S :: fm) seg0 = Ok r ->
  exists vs,
    sr_segmentation r = seg0 ++ vs /\
    Forall (fun v => 0 <= v < 2 ^ numberOfBitsPerSegment S) vs /\
    (1 <= N ->
     (Z.of_nat (length vs) - N) * numberOfBitsPerSegment S <= 31) /\
    N <= Z.of_nat (length vs) /\
    (N <= 0 -> vs = []).
Proof.
  intros HS Hnz HN Hints Hrun.
  pose proof (width_of_nonzero S HS Hnz) as Hw.
  rewrite read_header, read_body_decodes in Hrun by lia.
  destruct (read_outer fm N (numberOfBitsPerSegment S) 0 0 0 0 seg0 8)
    as [[[n fm'] seg']|e] eqn:Hdec; [|discriminate].
  cbn [bind] in Hrun. apply Ok_inj in Hrun. subst r.
  cbn [sr_segmentation].
  destruct (Z.le_gt_cases N 0) as [Hempty | Hsome].
  - rewrite read_outer_done in Hdec by lia.
    apply Ok_inj in Hdec. injection Hdec as <- <- <-.
    exists []. rewrite app_nil_r. simpl length.
    split; [reflexivity|]. split; [constructor|].
    split; [lia|]. split; [lia | reflexivity].
  - pose proof Hdec as Hlow.
    apply read_outer_pushes in Hlow; [|lia].
    destruct Hlow as (vs0 & Evs0 & Hlow).
    apply (read_outer_range _ Hw) in Hdec;
      [|assumption|unfold decoder_ready; lia|lia|lia|nia].
    destruct Hdec as (vs & -> & Hall & Hcount & Hdone).
    apply app_inv_head in Evs0. subst vs0.
    exists vs. split; [reflexivity|]. split; [assumption|].
    split; [intros _; assumption|]. split; [lia|]. intros; lia.
Qed.

(** X2.  Whatever the packed words are, every value
    [ReadCompactSegmentation] appends is a value of [w] bits,
    [0 <= v < 2^w], for the width [w] of the stored segment count; what
    the vector held before stays in front. *)
Theorem decoded_values_fit_width (kamikaze : bool) (N S : Z) (fm : stream)
    (seg0 : list Z) (r : segmentation_read) :
  in_int S -> S <> 0 -> N + 33 < 2147483648 -> int_words fm ->
  ReadCompactSegmentation kamikaze (I32 N :: I32 S :: fm) seg0 = Ok r ->
  exists vs,
    sr_segmentation r = seg0 ++ vs /\
    Forall (fun v => 0 <= v < 2 ^ numberOfBitsPerSegment S) vs.
Proof.
  intros HS Hnz HN Hints Hrun.
  destruct (read_any_stream kamikaze N S fm seg0 r HS Hnz HN Hints Hrun)
    as (vs & Hseg & Hall & _).
  exists vs. split; assumption.
Qed.

Lemma decoded_values_fit_width_witness :
  exists vs,
    9 :: repeat 3 32 = [9] ++ vs /\
    Forall (fun v => 0 <= v < 2 ^ numberOfBitsPerSegment 3) vs.
Proof.
  refine (decoded_values_fit_width false 17 3
            [I32 (-1); I32 (-1); F64 d_one] [9]
            {| sr_return := 16; sr_stream := [F64 d_one];
               sr_segmentation :=
                 9 :: repeat 3 32;
               sr_numberOfVertices := 17; sr_numberOfSegments := 3 |}
            _ _ _ _ _).
  - unfold in_int. lia.
  - lia.
  - lia.
  - unfold int_words, in_int. repeat constructor; lia.
  - vm_compute. reflexivity.
Defined.

(** X3.  On any stream of [int]s with a stored vertex count [N >= 1],
    [ReadCompactSegmentation] appends at least [N] values and the values
    beyond the first [N] take less than one word: with [k] values
    appended, [(k - N) * w <= 31], so [k <= N + 31]. *)
Theorem decoded_surplus_below_one_word (kamikaze : bool) (N S : Z)
    (fm : stream) (seg0 : list Z) (r : segmentation_read) :
  in_int S -> S <> 0 -> 1 <= N -> N + 33 < 2147483648 -> int_words fm ->
  ReadCompactSegmentation kamikaze (I32 N :: I32 S :: fm) seg0 = Ok r ->
  exists vs,
    sr_segmentation r = seg0 ++ vs /\
    N <= Z.of_nat (length vs) /\
    (Z.of_nat (length vs) - N) * numberOfBitsPerSegment S <= 31 /\
    Z.of_nat (length vs) <= N + 31.
Proof.
  intros HS Hnz Hsome HN Hints Hrun.
  pose proof (width_of_nonzero S HS Hnz) as Hw.
  destruct (read_any_stream kamikaze N S fm seg0 r HS Hnz HN Hints Hrun)
    as (vs & Hseg & _ & Hover & Hlow & _).
  specialize (Hover Hsome).
  exists vs. split; [assumption|]. split; [assumption|].
  split; [assumption|]. nia.
Qed.

Lemma decoded_surplus_below_one_word_witness :
  exists vs,
    [0; 1; 2; 0; 1; 0; 0; 0; 0; 0; 0; 0; 0; 0; 0; 0] = [] ++ vs /\
    5 <= Z.of_nat (length vs) /\
    (Z.of_nat (length vs) - 5) * numberOfBitsPerSegment 3 <= 31 /\
    Z.of_nat (length vs) <= 5 + 31.
Proof.
  refine (decoded_surplus_below_one_word false 5 3 [I32 292] []
            {| sr_return := 12; sr_stream := [];
               sr_segmentation :=
                 [0; 1; 2; 0; 1; 0; 0; 0; 0; 0; 0; 0; 0; 0; 0; 0];
               sr_numberOfVertices := 5; sr_numberOfSegments := 3 |}
            _ _ _ _ _ _).
  - unfold in_int. lia.
  - lia.
  - lia.
  - lia.
  - unfold int_words, in_int. repeat constructor; lia.
  - vm_compute. reflexivity.
Defined.

(** ** What a call consumes and what it appends *)

Lemma read_outer_consumes (fm : stream) :
  forall N w o m old c acc b n fm' acc',
  in_int b ->
  read_outer fm N w o m old c acc b = Ok (n, fm', acc') ->
  exists ws,
    fm = map I32 ws ++ fm' /\ n = sint32 (b + 4 * Z.of_nat (length ws)).
Proof.
  induction fm as [|[W|d] fm IH];
    intros N w o m old c acc b n fm' acc' Hb Hrun;
    cbn [read_outer] in Hrun;
    destruct (c <? N); try discriminate;
    try (apply Ok_inj in Hrun; injection Hrun as <- <- <-;
         exists []; split; [reflexivity|];
         simpl length; rewrite sint32_small; [lia|];
         replace (b + 4 * Z.of_nat 0) with b by lia; assumption).
  destruct (read_inner inner_fuel w W o m old c acc)
    as [[[[[o1 m1] old1] c1] acc1]|e]; [|discriminate].
  cbn [bind] in Hrun.
  destruct (o1 =? 32); apply IH in Hrun; try apply sint32_range;
    destruct Hrun as (ws & -> & ->);
    exists (W :: ws); (split; [reflexivity|]);
    rewrite sint32_add_4; f_equal; simpl length; lia.
Qed.

(** X4.  Whenever [ReadCompactSegmentation] returns, what it has taken
    from the stream is the two header fields followed by whole words;
    the rest of the stream is left for the next reader, and the value
    returned is the number of bytes taken, 8 and 4 for each word, unless
    it is one of the error codes, in which case no word was taken. *)
Theorem read_consumes_whole_words (kamikaze : bool) (fm : stream)
    (seg0 : list Z) (r : segmentation_read) :
  ReadCompactSegmentation kamikaze fm seg0 = Ok r ->
  exists ws,
    fm = I32 (sr_numberOfVertices r) :: I32 (sr_numberOfSegments r)
           :: map I32 ws ++ sr_stream r /\
    (sr_return r = sint32 (8 + 4 * Z.of_nat (length ws)) \/
     (ws = [] /\ (sr_return r = -2 \/ sr_return r = -3))).
Proof.
  intros Hrun.
  destruct fm as [|[N|d] [|[S|d'] fm]]; try discriminate.
  rewrite read_header in Hrun. unfold read_body in Hrun.
  destruct (negb kamikaze && (numberOfBitsPerSegment S =? 0)).
  { apply Ok_inj in Hrun. subst r. exists []. split; [reflexivity|].
    right. split; [reflexivity|]. left. reflexivity. }
  destruct (numberOfBitsPerSegment S >? 32).
  { apply Ok_inj in Hrun. subst r. exists []. split; [reflexivity|].
    right. split; [reflexivity|]. right. reflexivity. }
  destruct (read_outer fm N (numberOfBitsPerSegment S) 0 0 0 0 seg0 8)
    as [[[n fm'] seg']|e] eqn:Hdec; [|discriminate].
  cbn [bind] in Hrun. apply Ok_inj in Hrun. subst r.
  apply read_outer_consumes in Hdec; [|unfold in_int; lia].
  destruct Hdec as (ws & -> & ->).
  exists ws. split; [reflexivity|]. left. reflexivity.
Qed.

Lemma read_consumes_whole_words_witness :
  exists ws,
    [I32 20; I32 5; I32 591677064; I32 147919266; I32 7; F64 d_one]
    = I32 20 :: I32 5 :: map I32 ws ++ [I32 7; F64 d_one] /\
    (16 = sint32 (8 + 4 * Z.of_nat (length ws)) \/
     (ws = [] /\ (16 = -2 \/ 16 = -3))).
Proof.
  refine (read_consumes_whole_words false
            [I32 20; I32 5; I32 591677064; I32 147919266; I32 7; F64 d_one]
            []
            {| sr_return := 16; sr_stream := [I32 7; F64 d_one];
               sr_segmentation := scenarioB ++ [0];
               sr_numberOfVertices := 20; sr_numberOfSegments := 5 |}
            _).
  vm_compute. reflexivity.
Defined.

Lemma write_outer_appends (fuel : nat) :
  forall seg N w c o m b ws n,
  in_int b ->
  write_outer fuel seg N w c o m b = Ok (ws, n) ->
  n = sint32 (b + 4 * Z.of_nat (length ws)) /\ (ws = [] <-> N <= c).
Proof.
  assert (Hstop : forall b N c, in_int b -> N <= c ->
            b = sint32 (b + 4 * Z.of_nat (@length Z [])) /\
            (@nil Z = [] <-> N <= c)).
  { intros b N c Hb Hc. simpl length. split; [|tauto].
    replace (b + 4 * Z.of_nat 0) with b by lia.
    rewrite sint32_small; [reflexivity | assumption]. }
  induction fuel as [|fuel IH]; intros seg N w c o m b ws n Hb Hrun;
    cbn [write_outer] in Hrun;
    destruct (Z.ltb_spec c N) as [Hlt | Hge]; try discriminate;
    try (apply Ok_inj in Hrun; injection Hrun as <- <-;
         apply Hstop; assumption).
  destruct (write_inner inner_fuel seg w c o m 0)
    as [[[[c1 o1] m1] ci1]|e]; [|discriminate].
  cbn [bind] in Hrun.
  destruct (c1 >=? N).
  { apply Ok_inj in Hrun. injection Hrun as <- <-.
    simpl length. split; [f_equal; lia|].
    split; [discriminate | lia]. }
  destruct (vec_at seg c1) as [v|e]; [|discriminate].
  cbn [bind] in Hrun.
  destruct (o1 =? 32);
    match type of Hrun with
    | bind ?run _ = _ =>
      destruct run as [[ws' n']|e] eqn:Hrest; [|discriminate]
    end;
    cbn [bind] in Hrun; apply Ok_inj in Hrun; injection Hrun as <- <-;
    apply IH in Hrest; try apply sint32_range;
    destruct Hrest as [-> _];
    (split; [rewrite sint32_add_4; f_equal; simpl length; lia|]);
    (split; [discriminate | lia]).
Qed.

(** X5.  Whenever [WriteCompactSegmentation] returns, the file is the
    file it was given followed by whole words, nothing before them is
    touched, and the value returned is 4 for each word written, counted
    as an [int].  No word is written exactly when [numberOfVertices] is
    not positive. *)
Theorem write_appends_whole_words (fm : stream) (seg : list Z) (N S n : Z)
    (file : stream) :
  in_int S ->
  WriteCompactSegmentation fm seg N S = Ok (n, file) ->
  exists ws,
    file = fm ++ map I32 ws /\
    n = sint32 (4 * Z.of_nat (length ws)) /\
    (ws = [] <-> N <= 0).
Proof.
  intros HS Hrun. pose proof (width_of_int S HS) as Hw.
  unfold WriteCompactSegmentation in Hrun.
  rewrite write_body_encodes in Hrun by lia.
  destruct (write_outer (outer_fuel N) seg N (numberOfBitsPerSegment S)
              0 0 0 0) as [[ws n0]|e] eqn:Hws; [|discriminate].
  cbn [bind] in Hrun. apply Ok_inj in Hrun. injection Hrun as <- <-.
  apply write_outer_appends in Hws; [|unfold in_int; lia].
  destruct Hws as [-> Hnone].
  exists ws. split; [reflexivity|]. split; [f_equal; lia | assumption].
Qed.

Lemma write_appends_whole_words_witness :
  exists ws,
    [F64 d_one; I32 5; I32 3; I32 292]
    = [F64 d_one; I32 5; I32 3] ++ map I32 ws /\
    4 = sint32 (4 * Z.of_nat (length ws)) /\
    (ws = [] <-> 5 <= 0).
Proof.
  refine (write_appends_whole_words [F64 d_one; I32 5; I32 3]
            (scenarioA ++ repeat 0 16) 5 3 4
            [F64 d_one; I32 5; I32 3; I32 292] _ _).
  - unfold in_int. lia.
  - vm_compute. reflexivity.
Defined.

(** ** Values up to the width *)

(** X6.  The round trip does not need the values to be below
    [numberOfSegments]: for any non-zero [numberOfSegments], of width
    [w], a vector that starts with [N] values of [w] bits,
    [0 <= v < 2^w], followed by [floor(32 / w)] further entries, is
    written, and read back in front of whatever the last word also
    holds.  An empty segmentation ([N = 0]) is read back as nothing. *)
Theorem roundtrip_values_of_width (N S : Z) (seg pad : list Z) :
  in_int S -> S <> 0 -> N + 33 < 2147483648 ->
  Z.of_nat (length seg) = N ->
  Forall (fun v => 0 <= v < 2 ^ numberOfBitsPerSegment S) seg ->
  32 / numberOfBitsPerSegment S <= Z.of_nat (length pad) ->
  exists n file,
    WriteCompactSegmentation [I32 N; I32 S] (seg ++ pad) N S
      = Ok (n, file) /\
    forall kamikaze rest seg0,
    exists extra,
      ReadCompactSegmentation kamikaze (file ++ rest) seg0 =
      Ok {| sr_return := sint32 (n + 8);
            sr_stream := rest;
            sr_segmentation := seg0 ++ seg ++ extra;
            sr_numberOfVertices := N;
            sr_numberOfSegments := S |}.
Proof.
  intros HS Hnz HN Hlen Hall Hpad.
  pose proof (width_of_nonzero S HS Hnz) as Hw.
  destruct (write_then_read seg pad N (numberOfBitsPerSegment S)
              (2 ^ numberOfBitsPerSegment S))
    as (words & Hwrite & Hread); try lia; try assumption.
  unfold WriteCompactSegmentation.
  rewrite write_body_encodes by lia.
  rewrite Hwrite. cbn [bind]. eexists _, _. split; [reflexivity|].
  intros kamikaze rest seg0.
  destruct (Hread rest seg0) as (extra & Hdec).
  exists extra.
  cbn [app]. rewrite read_header.
  rewrite read_body_decodes by lia.
  rewrite Hdec. cbn [bind].
  rewrite sint32_add_4.
  replace (4 * Z.of_nat (length words) + 8)
    with (8 + 4 * Z.of_nat (length words)) by lia.
  reflexivity.
Qed.

Lemma roundtrip_values_of_width_witness :
  exists n file,
    WriteCompactSegmentation [I32 5; I32 3] ([3; 1; 2; 3; 0] ++ repeat 7 16)
      5 3 = Ok (n, file) /\
    forall kamikaze rest seg0,
    exists extra,
      ReadCompactSegmentation kamikaze (file ++ rest) seg0 =
      Ok {| sr_return := sint32 (n + 8);
            sr_stream := rest;
            sr_segmentation := seg0 ++ [3; 1; 2; 3; 0] ++ extra;
            sr_numberOfVertices := 5;
            sr_numberOfSegments := 3 |}.
Proof.
  refine (roundtrip_values_of_width 5 3 [3; 1; 2; 3; 0] (repeat 7 16)
            _ _ _ _ _ _).
  - unfold in_int. lia.
  - lia.
  - lia.
  - reflexivity.
  - change (numberOfBitsPerSegment 3) with 2.
    repeat constructor; lia.
  - change (32 / numberOfBitsPerSegment 3) with 16. simpl. lia.
Defined.

(** ** The grid handed to zfp *)

Lemma sum_of_dimensions_not_2 (a b : Z) :
  1 <= a <= 2147483647 -> 1 <= b <= 2147483647 ->
  (a <> 1 \/ b <> 1) -> (sint32 (a + b) =? 2) = false.
Proof.
  intros Ha Hb Hne. apply Z.eqb_neq. unfold sint32. zsolve.
Qed.

(** X7.  On a grid of positive [int] dimensions of which at most one is
    1, [CompressWithZFP] does not stop at its guard: it hands the call
    to zfp with a 2-D field made of the two other dimensions, in their
    order, when one dimension is 1, and with the 3-D field [nx, ny, nz]
    when none is. *)
Theorem zfp_field_of_grid (File : Type)
    (zfp_transfer : File -> bool -> list double -> zfp_field -> double ->
                    zfp_outcome File)
    (file : File) (decompress : bool) (array : list double)
    (nx ny nz : Z) (zfpTolerance : double) :
  1 <= nx <= 2147483647 -> 1 <= ny <= 2147483647 ->
  1 <= nz <= 2147483647 ->
  ~ ((nx = 1 /\ ny = 1) \/ (ny = 1 /\ nz = 1) \/ (nx = 1 /\ nz = 1)) ->
  CompressWithZFP File zfp_transfer file decompress array nx ny nz
    zfpTolerance
  = zfp_transfer file decompress array
      (if nx =? 1 then zfp_field_2d ny nz
       else if ny =? 1 then zfp_field_2d nx nz
       else if nz =? 1 then zfp_field_2d nx ny
       else zfp_field_3d nx ny nz)
      zfpTolerance.
Proof.
  intros Hx Hy Hz Hflat. unfold CompressWithZFP.
  rewrite (sum_of_dimensions_not_2 nx ny) by (assumption || lia).
  rewrite (sum_of_dimensions_not_2 ny nz) by (assumption || lia).
  rewrite (sum_of_dimensions_not_2 nx nz) by (assumption || lia).
  cbn [orb]. rewrite andb_false_r.
  destruct (Z.eqb_spec nx 1) as [-> | Hx1];
    destruct (Z.eqb_spec ny 1) as [-> | Hy1];
    destruct (Z.eqb_spec nz 1) as [-> | Hz1];
    try (exfalso; apply Hflat; lia); reflexivity.
Qed.

Lemma zfp_field_of_grid_witness :
  CompressWithZFP unit
    (fun _ _ array field _ =>
       {| zfp_return := match field with
                        | zfp_field_2d n1 n2 => n1 * n2
                        | zfp_field_3d x y z => x * y * z
                        end;
          zfp_file := tt; zfp_array := array; zfp_errors := [] |})
    tt false [] 4 1 3 d_one
  = {| zfp_return := 12; zfp_file := tt; zfp_array := [];
       zfp_errors := [] |}.
Proof.
  refine (zfp_field_of_grid unit _ tt false [] 4 1 3 d_one _ _ _ _);
    lia.
Defined.

(** ** The persistence index on any file *)

Lemma encode_mapping_length (m : list mapping_entry) :
  length (encode_mapping m) = (2 * length m)%nat.
Proof.
  unfold encode_mapping. induction m as [|e m IH]; simpl; lia.
Qed.

Lemma encode_constraints_length (c : list constraint_entry) :
  length (encode_constraints c) = (3 * length c)%nat.
Proof.
  unfold encode_constraints. induction c as [|e c IH]; simpl; lia.
Qed.

(** X8.  [WritePersistenceIndex] returns for every mapping table and
    constraint list whose byte count [8 + 12 * |m| + 16 * |c|] is an
    [int], and returns that count: 4 bytes for each of the two counts,
    12 for a mapping entry, 16 for a constraint.  The file it was given
    is kept and gets [2 + 2 * |m| + 3 * |c|] fields more. *)
Theorem index_bytes_written (fm : stream) (m : list mapping_entry)
    (c : list constraint_entry) :
  8 + 12 * Z.of_nat (length m) + 16 * Z.of_nat (length c) <= 2147483647 ->
  exists file,
    WritePersistenceIndex fm m c
    = Ok (8 + 12 * Z.of_nat (length m) + 16 * Z.of_nat (length c), file) /\
    file = fm ++ I32 (Z.of_nat (length m)) :: encode_mapping m
              ++ I32 (Z.of_nat (length c)) :: encode_constraints c /\
    length file = (length fm + (2 + 2 * length m + 3 * length c))%nat.
Proof.
  intros Hsize.
  rewrite WritePersistenceIndex_spec by lia.
  rewrite sint32_small by (unfold in_int; lia).
  eexists. split; [reflexivity|]. split; [reflexivity|].
  rewrite length_app. cbn [length]. rewrite length_app. cbn [length].
  rewrite encode_mapping_length, encode_constraints_length. lia.
Qed.

Lemma index_bytes_written_witness :
  exists file,
    WritePersistenceIndex [I32 9] [(d_two, 7); (d_one, 3)] [(4, d_half, 0)]
    = Ok (8 + 12 * Z.of_nat 2 + 16 * Z.of_nat 1, file) /\
    file = [I32 9] ++ I32 (Z.of_nat 2)
              :: encode_mapping [(d_two, 7); (d_one, 3)]
              ++ I32 (Z.of_nat 1) :: encode_constraints [(4, d_half, 0)] /\
    length file = (1 + (2 + 2 * 2 + 3 * 1))%nat.
Proof.
  refine (index_bytes_written [I32 9] [(d_two, 7); (d_one, 3)]
            [(4, d_half, 0)] _).
  simpl. lia.
Defined.

(** X9.  Whenever [ReadPersistenceIndex] returns, with a [std::sort]
    that meets its contract: what it has taken from the stream is a
    count, that many mapping entries (none for a count below 1), a
    second count and that many constraints (none below 1); the rest of
    the stream is left; the value returned is the number of bytes
    taken.  Both views hold what their vector held before together with
    the entries read, the constraints read follow those the vector
    held, and with no constraint read [min] and [max] are as they
    were. *)
Theorem index_read_accounts_for_stream
    (std_sort : (mapping_entry -> mapping_entry -> bool) ->
                list mapping_entry -> list mapping_entry)
    (fm : stream) (ms ss : list mapping_entry) (cs0 : list constraint_entry)
    (min0 max0 : double) (r : index_read) :
  sort_contract std_sort ->
  ReadPersistenceIndex std_sort fm ms ss cs0 min0 max0 = Ok r ->
  exists mappingSize m1 c1,
    fm = I32 mappingSize :: encode_mapping m1
           ++ I32 (ir_nbConstraints r) :: encode_constraints c1
           ++ ir_stream r /\
    Z.of_nat (length m1) = Z.max 0 mappingSize /\
    Z.of_nat (length c1) = Z.max 0 (ir_nbConstraints r) /\
    Permutation (ir_mappings r) (ms ++ m1) /\
    Permutation (ir_mappingsSortedPerValue r) (ss ++ m1) /\
    ir_constraints r = cs0 ++ c1 /\
    (ir_nbConstraints r <= 0 -> ir_min r = min0 /\ ir_max r = max0) /\
    ir_return r
    = sint32 (8 + 12 * Z.of_nat (length m1) + 16 * Z.of_nat (length c1)).
Proof.
  intros Hsort Hrun.
  apply ReadPersistenceIndex_inv in Hrun.
  destruct Hrun as (mappingSize & m1 & c1 & Hfm & Hm1 & Hc1 & Hmap & Hval
                    & Hcons & Hwiden & Hret).
  exists mappingSize, m1, c1.
  split; [assumption|]. split; [lia|]. split; [lia|].
  split; [rewrite Hmap; apply Hsort|].
  split; [rewrite Hval; apply Hsort|].
  split; [assumption|]. split; [|assumption].
  intros Hnone.
  assert (Enone : c1 = []).
  { destruct c1; [reflexivity | simpl length in Hc1; lia]. }
  subst c1. cbn [map widen] in Hwiden.
  split; congruence.
Qed.

Lemma index_read_accounts_for_stream_witness :
  exists mappingSize m1 c1,
    [I32 1; I32 3; F64 d_one; I32 (-4); I32 8]
    = I32 mappingSize :: encode_mapping m1
        ++ I32 (-4) :: encode_constraints c1 ++ [I32 8] /\
    Z.of_nat (length m1) = Z.max 0 mappingSize /\
    Z.of_nat (length c1) = Z.max 0 (-4) /\
    Permutation [(d_one, 3); (d_two, 7)] ([(d_two, 7)] ++ m1) /\
    Permutation [(d_one, 3); (d_two, 7)] ([(d_two, 7)] ++ m1) /\
    [(4, d_half, 0)] = [(4, d_half, 0)] ++ c1 /\
    (-4 <= 0 -> d_two = d_two /\ d_half = d_half) /\
    20
    = sint32 (8 + 12 * Z.of_nat (length m1) + 16 * Z.of_nat (length c1)).
Proof.
  refine (index_read_accounts_for_stream
            (@stable_insertion_sort mapping_entry)
            [I32 1; I32 3; F64 d_one; I32 (-4); I32 8]
            [(d_two, 7)] [(d_two, 7)] [(4, d_half, 0)] d_two d_half
            {| ir_return := 20; ir_stream := [I32 8];
               ir_mappings := [(d_one, 3); (d_two, 7)];
               ir_mappingsSortedPerValue := [(d_one, 3); (d_two, 7)];
               ir_constraints := [(4, d_half, 0)];
               ir_min := d_two; ir_max := d_half;
               ir_nbConstraints := -4 |}
            _ _).
  - exact (@stable_insertion_sort_contract mapping_entry).
  - vm_compute. reflexivity.
Defined.

(** ** The segmentation followed by the index *)

Lemma read_written_index
    (std_sort : (mapping_entry -> mapping_entry -> bool) ->
                list mapping_entry -> list mapping_entry)
    (m ms ss : list mapping_entry) (c cs : list constraint_entry)
    (rest : stream) (min0 max0 : double) :
  ReadPersistenceIndex std_sort
    (I32 (Z.of_nat (length m)) :: encode_mapping m
       ++ I32 (Z.of_nat (length c)) :: encode_constraints c ++ rest)
    ms ss cs min0 max0
  = Ok {| ir_return :=
            sint32 (8 + 12 * Z.of_nat (length m) + 16 * Z.of_nat (length c));
          ir_stream := rest;
          ir_mappings := std_sort cmp (ms ++ m);
          ir_mappingsSortedPerValue := std_sort cmp2 (ss ++ m);
          ir_constraints := cs ++ c;
          ir_min := fst (widen 0 min0 max0 (map constraint_value c));
          ir_max := snd (widen 0 min0 max0 (map constraint_value c));
          ir_nbConstraints := Z.of_nat (length c) |}.
Proof.
  unfold ReadPersistenceIndex. cbn [app Read_int bind].
  rewrite Nat2Z.id.
  rewrite read_mapping_spec by apply sint32_range. cbn [bind app Read_int].
  rewrite Nat2Z.id, read_constraints_spec by apply sint32_range.
  cbn [bind]. do 2 f_equal. unfold sint32. zsolve.
Qed.

(** X10.  The two writers compose on one file and the two readers on
    one stream.  A segmentation of [N] values of [w] bits written after
    its header, then a persistence index written behind it: on the
    resulting file, with anything after it, [ReadCompactSegmentation]
    gives back the segmentation and stops where the index starts, and
    [ReadPersistenceIndex], run on the stream it leaves, gives back the
    sorted mapping and the constraints, returns the byte count the
    writer returned, and leaves what came after. *)
Theorem segmentation_then_index
    (std_sort : (mapping_entry -> mapping_entry -> bool) ->
                list mapping_entry -> list mapping_entry)
    (N S : Z) (seg pad : list Z)
    (m : list mapping_entry) (c : list constraint_entry) :
  in_int S -> S <> 0 -> N + 33 < 2147483648 ->
  Z.of_nat (length seg) = N ->
  Forall (fun v => 0 <= v < 2 ^ numberOfBitsPerSegment S) seg ->
  32 / numberOfBitsPerSegment S <= Z.of_nat (length pad) ->
  Z.of_nat (length m) <= 2147483647 ->
  Z.of_nat (length c) <= 2147483647 ->
  exists n1 file1 n2 file2,
    WriteCompactSegmentation [I32 N; I32 S] (seg ++ pad) N S
      = Ok (n1, file1) /\
    WritePersistenceIndex file1 m c = Ok (n2, file2) /\
    forall kamikaze rest min0 max0,
    exists r1 r2 extra,
      ReadCompactSegmentation kamikaze (file2 ++ rest) [] = Ok r1 /\
      sr_segmentation r1 = seg ++ extra /\
      sr_return r1 = sint32 (n1 + 8) /\
      ReadPersistenceIndex std_sort (sr_stream r1) [] [] [] min0 max0
        = Ok r2 /\
      ir_mappings r2 = std_sort cmp m /\
      ir_mappingsSortedPerValue r2 = std_sort cmp2 m /\
      ir_constraints r2 = c /\
      ir_return r2 = n2 /\
      ir_stream r2 = rest.
Proof.
  intros HS Hnz HN Hlen Hall Hpad Hm Hc.
  pose proof (width_of_nonzero S HS Hnz) as Hw.
  destruct (write_then_read seg pad N (numberOfBitsPerSegment S)
              (2 ^ numberOfBitsPerSegment S))
    as (words & Hwrite & Hread); try lia; try assumption.
  unfold WriteCompactSegmentation.
  rewrite write_body_encodes by lia.
  rewrite Hwrite. cbn [bind].
  eexists _, _, _, _. split; [reflexivity|].
  split; [apply WritePersistenceIndex_spec; assumption|].
  intros kamikaze rest min0 max0.
  set (index := I32 (Z.of_nat (length m)) :: encode_mapping m
                  ++ I32 (Z.of_nat (length c)) :: encode_constraints c
                  ++ rest).
  destruct (Hread index []) as (extra & Hdec).
  eexists _, _, extra.
  split.
  { cbn [app]. rewrite read_header.
    rewrite read_body_decodes by lia.
    rewrite <- !app_assoc. cbn [app]. rewrite <- app_assoc. cbn [app].
    fold index. rewrite Hdec. cbn [bind]. reflexivity. }
  cbn [sr_segmentation sr_return sr_stream].
  split; [reflexivity|].
  split.
  { rewrite sint32_add_4. f_equal. lia. }
  unfold index. rewrite read_written_index.
  split; [reflexivity|].
  cbn [ir_mappings ir_mappingsSortedPerValue ir_constraints ir_return
       ir_stream].
  repeat split; reflexivity.
Qed.

Lemma segmentation_then_index_witness :
  exists n1 file1 n2 file2,
    WriteCompactSegmentation [I32 5; I32 3] (scenarioA ++ repeat 0 16) 5 3
      = Ok (n1, file1) /\
    WritePersistenceIndex file1 [(d_two, 7); (d_one, 3)] [(4, d_half, 0)]
      = Ok (n2, file2) /\
    forall kamikaze rest min0 max0,
    exists r1 r2 extra,
      ReadCompactSegmentation kamikaze (file2 ++ rest) [] = Ok r1 /\
      sr_segmentation r1 = scenarioA ++ extra /\
      sr_return r1 = sint32 (n1 + 8) /\
      ReadPersistenceIndex (@stable_insertion_sort mapping_entry)
        (sr_stream r1) [] [] [] min0 max0 = Ok r2 /\
      ir_mappings r2
      = stable_insertion_sort cmp [(d_two, 7); (d_one, 3)] /\
      ir_mappingsSortedPerValue r2
      = stable_insertion_sort cmp2 [(d_two, 7); (d_one, 3)] /\
      ir_constraints r2 = [(4, d_half, 0)] /\
      ir_return r2 = n2 /\
      ir_stream r2 = rest.
Proof.
  refine (segmentation_then_index (@stable_insertion_sort mapping_entry)
            5 3 scenarioA (repeat 0 16)
            [(d_two, 7); (d_one, 3)] [(4, d_half, 0)] _ _ _ _ _ _ _ _).
  - unfold in_int. lia.
  - lia.
  - lia.
  - reflexivity.
  - change (numberOfBitsPerSegment 3) with 2.
    repeat constructor; lia.
  - change (32 / numberOfBitsPerSegment 3) with 16. simpl. lia.
  - simpl. lia.
  - simpl. lia.
Defined.

(** ** The encoder on any contents *)

Lemma ceil_div_32_le (P k : Z) : P <= 32 * k -> ceil_div P 32 <= k.
Proof. unfold ceil_div. intros HP. zsolve. Qed.

Lemma ceil_div_32_between (P k : Z) :
  32 * k < P <= 32 * k + 32 -> ceil_div P 32 = k + 1.
Proof. unfold ceil_div. intros HP. zsolve. Qed.

Section AnyWidth.

Variables (seg : list Z) (N w : Z).
Hypothesis Hw : 1 <= w <= 31.
Hypothesis HN : N + 33 < 2147483648.
Hypothesis Hlen : N + 32 / w <= Z.of_nat (length seg).

(** One word of the encoder, whatever the cells hold: it is filled, or
    the cell that was split has no room and the word is left to it. *)
Lemma inner_any (j o m k : Z) :
  0 <= j < N -> packed w j o m k ->
  exists c1 o1 m1 ci1,
    write_inner inner_fuel seg w j o m 0 = Ok (c1, o1, m1, ci1) /\
    (j < c1 \/ (c1 = j /\ o1 = o /\ 1 <= o)) /\
    32 - w < o1 <= 32 /\ (o1 = 32 -> m1 = 0) /\
    c1 * w <= 32 * k + o1.
Proof.
  intros Hj (Hm & Ho & Hk).
  destruct (Z.eqb_spec m 0) as [-> | Hm0].
  - subst o.
    destruct (div_le_32 w 0) as [Hd1 Hd2]; [lia|lia|].
    destruct (write_inner_total seg w Hw inner_fuel j 0 0)
      as (c1 & o1 & ci1 & Hrun); try (unfold inner_fuel; lia).
    pose proof Hrun as Hspec.
    apply (write_inner_spec seg 0 w Hw (no_cells_are_valid seg w)) in Hspec;
      try (unfold inner_fuel, in_int; lia).
    destruct Hspec as (_ & Hcc & Hlen1 & Hend & _).
    exists c1, o1, 0, ci1. split; [assumption|].
    rewrite Z.mul_sub_distr_r in Hlen1.
    split; [left; nia|]. split; [lia|]. split; [reflexivity | lia].
  - subst o.
    destruct (Z.le_gt_cases (w - m + w) 32) as [Hfit | Hfull].
    + destruct (div_le_32 w (w - m)) as [Hd1 Hd2]; [lia|lia|].
      destruct (vec_at_in_bounds seg j) as [v Hv]; [lia|].
      set (ci0 := Z.lor 0 (shr v (w - (w - m)))).
      destruct (write_inner_total seg w Hw 32 (j + 1) (w - m) ci0)
        as (c1 & o1 & ci1 & Hrun); try lia.
      pose proof Hrun as Hspec.
      apply (write_inner_spec seg 0 w Hw (no_cells_are_valid seg w))
        in Hspec; try lia.
      destruct Hspec as (_ & Hcc & Hlen1 & Hend & _).
      exists c1, o1, 0, ci1. split.
      { change inner_fuel with (S 32).
        rewrite write_inner_carry by lia.
        rewrite Hv. cbn [bind]. exact Hrun. }
      rewrite Z.mul_sub_distr_r in Hlen1.
      split; [left; lia|]. split; [lia|]. split; [reflexivity | lia].
    + exists j, (w - m), m, 0. split.
      { apply write_inner_exit; lia. }
      split; [right; lia|]. split; [lia|]. split; lia.
Qed.

(** Whatever the cells hold and whatever the width, the encoder comes to
    an end and writes at least the words dense packing takes. *)
Lemma write_outer_any (fuel : nat) :
  forall j o m k b,
  0 <= j < N -> packed w j o m k ->
  32 * (N - j) + o < Z.of_nat fuel ->
  exists ws,
    write_outer fuel seg N w j o m b
      = Ok (ws, sint32 (b + 4 * Z.of_nat (length ws))) /\
    ceil_div (N * w) 32 - k <= Z.of_nat (length ws).
Proof.
  induction fuel as [|fuel IH]; intros j o m k b Hj Hpacked Hfuel.
  { destruct Hpacked as (Hm & Ho & _).
    destruct (Z.eqb_spec m 0); lia. }
  destruct (inner_any j o m k Hj Hpacked)
    as (c1 & o1 & m1 & ci1 & Hrun & Hprog & Hend & Hrank & Hbits).
  destruct Hpacked as (Hm & Ho & Hk).
  assert (Hopos : 0 <= o < w) by (destruct (Z.eqb_spec m 0); lia).
  destruct (Z.lt_ge_cases c1 N) as [Hmore | Hlast].
  - destruct (div_le_32 w 0) as [Hd1 Hd2]; [lia|lia|].
    destruct (vec_at_in_bounds seg c1) as [v1 Hv1]; [lia|].
    set (W := if o1 =? 32 then ci1 else Z.lor ci1 (shl v1 o1)).
    set (o2 := Z.rem (if o1 =? 32 then o1 else sint32 (o1 + w)) 32).
    set (m2 := if o1 =? 32 then m1 else 32 - o1).
    assert (Hnext : packed w c1 o2 m2 (k + 1) /\ o2 < 32 /\
                    (o1 < 32 -> o2 = o1 + w - 32)).
    { unfold packed, o2, m2.
      destruct (Z.eqb_spec o1 32) as [-> | Hne].
      - rewrite Hrank by reflexivity.
        change (0 =? 0) with true. cbv iota.
        change (Z.rem 32 32) with 0. lia.
      - rewrite sint32_small by (unfold in_int; lia).
        rewrite Z.rem_mod_nonneg by lia.
        destruct (Z.eqb_spec (32 - o1) 0); [lia|].
        split; [|split; [zsolve | intros _; zsolve]].
        split; [lia|]. split; [zsolve | lia]. }
    destruct Hnext as (Hpacked2 & Ho2 & Hshift).
    destruct (IH c1 o2 m2 (k + 1) (sint32 (b + 4)))
      as (ws & Hws & Hcount); [lia|assumption| |].
    { destruct Hprog as [Hprog | (-> & -> & Hpos)]; [lia|].
      rewrite Hshift by lia. lia. }
    exists (W :: ws). split.
    + rewrite (write_outer_word fuel seg N w j o m b c1 o1 m1 ci1 v1)
        by (assumption || lia).
      fold o2 m2 W. rewrite Hws. cbn [bind].
      rewrite sint32_add_4.
      replace (b + 4 * Z.of_nat (length (W :: ws)))
        with (b + 4 + 4 * Z.of_nat (length ws)) by (simpl length; lia).
      reflexivity.
    + simpl length. lia.
  - exists [ci1]. split.
    + rewrite (write_outer_last fuel seg N w j o m b c1 o1 m1 ci1)
        by (assumption || lia).
      reflexivity.
    + assert (Hhigh : N * w <= 32 * (k + 1)) by nia.
      apply ceil_div_32_le in Hhigh.
      simpl length. lia.
Qed.

End AnyWidth.

(** X11.  Whatever the vector holds, and for every non-zero
    [numberOfSegments], of width [w]: [WriteCompactSegmentation] returns
    as soon as the vector has [numberOfVertices + floor(32 / w)]
    entries, so it never reads an entry at or beyond that index, and it
    writes at least [ceil(numberOfVertices * w / 32)] words, the size of
    dense packing. *)
Theorem write_returns_on_any_contents (fm : stream) (seg : list Z)
    (N S : Z) :
  in_int S -> S <> 0 -> N + 33 < 2147483648 ->
  N + 32 / numberOfBitsPerSegment S <= Z.of_nat (length seg) ->
  exists ws,
    WriteCompactSegmentation fm seg N S
      = Ok (sint32 (4 * Z.of_nat (length ws)), fm ++ map I32 ws) /\
    ceil_div (N * numberOfBitsPerSegment S) 32 <= Z.of_nat (length ws).
Proof.
  intros HS Hnz HN Hlen.
  pose proof (width_of_nonzero S HS Hnz) as Hw.
  unfold WriteCompactSegmentation.
  rewrite write_body_encodes by lia.
  destruct (Z.le_gt_cases N 0) as [Hempty | Hsome].
  - rewrite write_outer_done by lia. cbn [bind].
    exists []. split; [reflexivity|].
    simpl length. apply ceil_div_32_le. nia.
  - destruct (write_outer_any seg N (numberOfBitsPerSegment S) Hw HN Hlen
                (outer_fuel N) 0 0 0 0 0)
      as (ws & Hws & Hcount).
    + lia.
    + unfold packed. change (0 =? 0) with true. cbv iota. lia.
    + unfold outer_fuel. lia.
    + rewrite Hws. cbn [bind]. exists ws.
      split; [reflexivity | lia].
Qed.

Lemma write_returns_on_any_contents_witness :
  exists ws,
    WriteCompactSegmentation [I32 2; I32 8388608]
      [-5; 1073741824; 9] 2 8388608
      = Ok (sint32 (4 * Z.of_nat (length ws)),
            [I32 2; I32 8388608] ++ map I32 ws) /\
    ceil_div (2 * numberOfBitsPerSegment 8388608) 32
      <= Z.of_nat (length ws).
Proof.
  refine (write_returns_on_any_contents [I32 2; I32 8388608]
            [-5; 1073741824; 9] 2 8388608 _ _ _ _).
  - unfold in_int. lia.
  - lia.
  - lia.
  - change (32 / numberOfBitsPerSegment 8388608) with 1. simpl. lia.
Defined.

(** ** No segments on the encoder's side *)

Lemma write_inner_width_0 (fuel : nat) :
  forall seg c ci, exists e, write_inner fuel seg 0 c 0 0 ci = Err e.
Proof.
  induction fuel as [|fuel IH]; intros seg c ci; cbn [write_inner];
    change (uint32 (0 + 0) <=? 32) with true; cbv iota.
  - eexists. reflexivity.
  - destruct (vec_at seg c) as [v|e]; cbn [bind].
    + change (negb (0 =? 0)) with false. cbv iota.
      change (sint32 (0 + 0)) with 0. apply IH.
    + eexists. reflexivity.
Qed.

(** X12.  The encoder has no check of a width of 0.  With
    [numberOfSegments = 0] and at least one vertex,
    [WriteCompactSegmentation] does not return: the guard
    [offset + 0 <= 32] of its inner loop holds for ever, and the loop
    reads cell after cell until it has left the vector, however many
    turns it is given. *)
Theorem write_zero_segments_never_returns (fm : stream) (seg : list Z)
    (N : Z) :
  1 <= N ->
  (exists e, WriteCompactSegmentation fm seg N 0 = Err e) /\
  (forall fuel c ci,
     exists e,
       write_inner fuel seg (numberOfBitsPerSegment 0) c 0 0 ci = Err e).
Proof.
  intros HN. split.
  - unfold WriteCompactSegmentation.
    change (numberOfBitsPerSegment 0) with 0.
    rewrite write_body_encodes by lia.
    unfold outer_fuel. cbn [write_outer].
    destruct (Z.ltb_spec 0 N); [|lia].
    destruct (write_inner_width_0 inner_fuel seg 0 0) as [e ->].
    cbn [bind]. eexists. reflexivity.
  - intros fuel c ci. change (numberOfBitsPerSegment 0) with 0.
    apply write_inner_width_0.
Qed.

Lemma write_zero_segments_never_returns_witness :
  (exists e, WriteCompactSegmentation [] [0; 0; 0] 3 0 = Err e) /\
  (forall fuel c ci,
     exists e,
       write_inner fuel [0; 0; 0] (numberOfBitsPerSegment 0) c 0 0 ci
       = Err e).
Proof.
  refine (write_zero_segments_never_returns [] [0; 0; 0] 3 _). lia.
Defined.

(** ** The decoder stops *)

Lemma decoder_ready_next (w o1 W : Z) :
  1 <= w <= 31 -> 1 <= o1 <= 32 -> 32 < o1 + w -> in_int W ->
  decoder_ready w
    (Z.rem (if o1 =? 32 then o1 else sint32 (o1 + w)) 32)
    (if o1 =? 32 then 0 else o1) W.
Proof.
  intros Hw Ho1 Hend HW. unfold decoder_ready.
  destruct (Z.eqb_spec o1 32) as [-> | Hne].
  - change (Z.rem 32 32) with 0. split; [lia | left; reflexivity].
  - rewrite sint32_small by (unfold in_int; lia).
    rewrite Z.rem_mod_nonneg by lia.
    split; [zsolve|]. right.
    split; [lia|]. split; [zsolve|]. split; [zsolve | assumption].
Qed.

Lemma read_inner_total (w : Z) (fuel : nat) :
  forall W o old c acc,
  1 <= w <= 31 -> 0 <= o <= 32 -> 0 <= c ->
  c + Z.of_nat fuel < 2147483648 -> (32 - o) / w <= Z.of_nat fuel ->
  exists r, read_inner fuel w W o 0 old c acc = Ok r.
Proof.
  induction fuel as [|fuel IH]; intros W o old c acc Hw Ho Hc Hwrap Hfuel.
  - destruct (Z.le_gt_cases (o + w) 32) as [Hfit | Hfull].
    + destruct (div_step (32 - o) w) as [_ H1]; lia.
    + eexists. apply read_inner_exit; lia.
  - destruct (Z.le_gt_cases (o + w) 32) as [Hfit | Hfull].
    + destruct (div_step (32 - o) w) as [Hdiv H1]; [lia|lia|].
      rewrite read_inner_field by lia.
      apply IH; try lia.
      replace (32 - (o + w)) with (32 - o - w) by lia. lia.
    + eexists. apply read_inner_exit; lia.
Qed.

Lemma read_word_total (w W o m old c : Z) (acc : list Z) :
  1 <= w <= 31 -> decoder_ready w o m old ->
  0 <= c -> c + 33 < 2147483648 ->
  exists r, read_inner inner_fuel w W o m old c acc = Ok r.
Proof.
  intros Hw [Ho Hstate] Hc Hwrap.
  destruct (div_le_32 w o) as [Hd1 Hd2]; [lia|lia|].
  destruct Hstate as [-> | (Hm & Hom & Ho1 & Hold)].
  - apply read_inner_total; unfold inner_fuel; lia.
  - destruct (Z.le_gt_cases (o + w) 32) as [Hfit | Hfull].
    + change inner_fuel with (S 32).
      rewrite read_inner_carry by lia.
      apply read_inner_total; lia.
    + eexists. apply read_inner_exit; lia.
Qed.

(** With a width of at least 1 both loops of the decoder come to an end
    on every stream: the only failure is a read that finds no [int]. *)
Lemma read_outer_ends (w : Z) (fm : stream) :
  forall N o m old c acc b,
  1 <= w <= 31 -> int_words fm -> decoder_ready w o m old ->
  N + 33 < 2147483648 -> 0 <= c ->
  (exists r, read_outer fm N w o m old c acc b = Ok r) \/
  read_outer fm N w o m old c acc b = Err IOError.
Proof.
  induction fm as [|[W|d] fm IH];
    intros N o m old c acc b Hw Hints Hready HN Hc;
    destruct (Z.lt_ge_cases c N) as [Hlt | Hge];
    try (left; eexists; apply read_outer_done; lia);
    try (right; cbn [read_outer];
         destruct (Z.ltb_spec c N); [reflexivity | lia]).
  inversion Hints as [|? ? HW Hints']; subst.
  destruct (read_word_total w W o m old c acc Hw Hready)
    as ([[[[o1 m1] old1] c1] acc1] & Hinner); [lia|lia|].
  rewrite (read_outer_word fm N w W o m old c acc b o1 m1 old1 c1 acc1)
    by (assumption || lia).
  apply (read_word_range w Hw) in Hinner; [|assumption|lia|lia].
  destruct Hinner as (vs & _ & _ & -> & _ & Ho1 & Hend).
  apply IH; try assumption; try lia.
  apply decoder_ready_next; assumption.
Qed.

(** X13.  With a non-zero stored segment count the decoder always comes
    to an end, whatever the words are: [ReadCompactSegmentation] either
    returns or fails on a read at the end of the stream.  It never runs
    on and never indexes anything out of bounds. *)
Theorem read_fails_only_at_end_of_stream (kamikaze : bool) (N S : Z)
    (fm : stream) (seg0 : list Z) :
  in_int S -> S <> 0 -> N + 33 < 2147483648 -> int_words fm ->
  (exists r,
     ReadCompactSegmentation kamikaze (I32 N :: I32 S :: fm) seg0 = Ok r) \/
  ReadCompactSegmentation kamikaze (I32 N :: I32 S :: fm) seg0
  = Err IOError.
Proof.
  intros HS Hnz HN Hints.
  pose proof (width_of_nonzero S HS Hnz) as Hw.
  rewrite read_header, read_body_decodes by lia.
  destruct (read_outer_ends (numberOfBitsPerSegment S) fm N 0 0 0 0 seg0 8)
    as [([[n fm'] seg'] & ->) | ->];
    try assumption; try lia.
  - unfold decoder_ready. lia.
  - left. cbn [bind]. eexists. reflexivity.
  - right. reflexivity.
Qed.

Lemma read_fails_only_at_end_of_stream_witness :
  (exists r,
     ReadCompactSegmentation false
       (I32 20 :: I32 5 :: [I32 591677064]) [] = Ok r) \/
  ReadCompactSegmentation false (I32 20 :: I32 5 :: [I32 591677064]) []
  = Err IOError.
Proof.
  refine (read_fails_only_at_end_of_stream false 20 5 [I32 591677064] []
            _ _ _ _).
  - unfold in_int. lia.
  - lia.
  - lia.
  - unfold int_words, in_int. repeat constructor; lia.
Defined.

(** ** The number of values decoded, for widths up to 16 *)

Section DecodedCount.

Variable w : Z.
Hypothesis Hw : 1 <= w <= 16.

Lemma width_up_to_31 : 1 <= w <= 31.
Proof. lia. Qed.

Lemma read_word_count (W o m old j k : Z) (acc : list Z)
    (o1 m1 old1 c1 : Z) (acc1 : list Z) :
  decoder_dense w j o m k -> 0 <= j -> j + 33 < 2147483648 ->
  read_inner inner_fuel w W o m old j acc = Ok (o1, m1, old1, c1, acc1) ->
  exists vs,
    acc1 = acc ++ vs /\ c1 = j + Z.of_nat (length vs) /\
    c1 * w = 32 * k + o1 /\ 32 - w < o1 <= 32.
Proof.
  intros Hstate Hj Hwrap Hrun.
  destruct Hstate as [(-> & -> & Hk) | (Hm & Hom & Ho & Hk)].
  - apply (read_inner_range w width_up_to_31) in Hrun;
      try (unfold inner_fuel; lia).
    destruct Hrun as (vs & -> & _ & _ & -> & Hlen & Hend).
    exists vs. split; [reflexivity|]. split; [reflexivity|].
    rewrite Z.mul_add_distr_r. split; lia.
  - change inner_fuel with (S 32) in Hrun.
    rewrite read_inner_carry in Hrun by lia.
    apply (read_inner_range w width_up_to_31) in Hrun; try lia.
    destruct Hrun as (vs & -> & _ & _ & -> & Hlen & Hend).
    eexists (_ :: vs). rewrite <- app_assoc.
    split; [reflexivity|]. simpl length.
    split; [lia|].
    rewrite !Z.mul_add_distr_r. split; lia.
Qed.

Lemma read_outer_count (fm : stream) :
  forall N o m old j acc b k n fm' acc',
  decoder_dense w j o m k -> 0 <= j < N -> N + 33 < 2147483648 ->
  read_outer fm N w o m old j acc b = Ok (n, fm', acc') ->
  exists ws vs,
    fm = map I32 ws ++ fm' /\ acc' = acc ++ vs /\
    Z.of_nat (length ws) = ceil_div (N * w) 32 - k /\
    (j + Z.of_nat (length vs)) * w <= 32 * ceil_div (N * w) 32
      < (j + Z.of_nat (length vs)) * w + w.
Proof.
  induction fm as [|[W|d] fm IH];
    intros N o m old j acc b k n fm' acc' Hstate Hj HN Hrun;
    try (cbn [read_outer] in Hrun;
         destruct (Z.ltb_spec j N); [discriminate | lia]).
  destruct (read_inner inner_fuel w W o m old j acc)
    as [[[[[o1 m1] old1] c1] acc1]|e] eqn:Hinner.
  2:{ cbn [read_outer] in Hrun. destruct (Z.ltb_spec j N); [|lia].
      rewrite Hinner in Hrun. discriminate. }
  rewrite (read_outer_word fm N w W o m old j acc b o1 m1 old1 c1 acc1)
    in Hrun by (assumption || lia).
  apply read_word_count with (k := k) in Hinner; [|assumption|lia|lia].
  destruct Hinner as (vs & -> & -> & Hbits & Hend).
  assert (Hlow : 32 * k < N * w).
  { destruct Hstate as [(_ & _ & Hk) | (Hm & Hom & Ho & Hk)]; nia. }
  destruct (Z.lt_ge_cases (j + Z.of_nat (length vs)) N) as [Hmore | Hlast].
  - apply IH with (k := k + 1) in Hrun; [| |lia|assumption].
    + destruct Hrun as (ws & vs' & -> & -> & Hwords & Hcount).
      exists (W :: ws), (vs ++ vs').
      rewrite <- app_assoc, length_app, Nat2Z.inj_add.
      split; [reflexivity|]. split; [reflexivity|].
      split; [simpl length; lia|].
      replace (j + (Z.of_nat (length vs) + Z.of_nat (length vs')))
        with (j + Z.of_nat (length vs) + Z.of_nat (length vs')) by lia.
      assumption.
    + unfold decoder_dense.
      destruct (Z.eqb_spec o1 32) as [-> | Hne].
      * change (Z.rem 32 32) with 0. left. lia.
      * rewrite sint32_small by (unfold in_int; lia).
        rewrite Z.rem_mod_nonneg by lia.
        right. split; [lia|]. split; [zsolve|]. split; [zsolve | lia].
  - rewrite read_outer_done in Hrun by lia.
    apply Ok_inj in Hrun. injection Hrun as _ <- <-.
    assert (Hhigh : N * w <= 32 * k + 32) by nia.
    exists [W], vs. split; [reflexivity|]. split; [reflexivity|].
    rewrite (ceil_div_32_between (N * w) k) by lia.
    split; [simpl length; lia | lia].
Qed.

End DecodedCount.

(** X14.  For a stored segment count from 1 to 65535, so that the width
    [w] is at most 16, and a stored vertex count [N >= 1], the decoder
    takes exactly [ceil(N * w / 32)] words from the stream, whatever
    they hold, and appends every whole field of them:
    [floor(32 * ceil(N * w / 32) / w)] values. *)
Theorem decoded_count_dense (kamikaze : bool) (N S : Z) (fm : stream)
    (seg0 : list Z) (r : segmentation_read) :
  1 <= S <= 65535 -> 1 <= N -> N + 33 < 2147483648 ->
  ReadCompactSegmentation kamikaze (I32 N :: I32 S :: fm) seg0 = Ok r ->
  exists ws vs,
    fm = map I32 ws ++ sr_stream r /\
    sr_segmentation r = seg0 ++ vs /\
    Z.of_nat (length ws) = ceil_div (N * numberOfBitsPerSegment S) 32 /\
    Z.of_nat (length vs)
    = 32 * Z.of_nat (length ws) / numberOfBitsPerSegment S.
Proof.
  intros HS HN Hwrap Hrun.
  destruct (width_spec S) as (Hwidth & _ & _); [lia|].
  pose proof (width_up_to_16 S HS) as Hw. rewrite <- Hwidth in Hw.
  rewrite read_header, read_body_decodes in Hrun by lia.
  destruct (read_outer fm N (numberOfBitsPerSegment S) 0 0 0 0 seg0 8)
    as [[[n fm'] seg']|e] eqn:Hdec; [|discriminate].
  cbn [bind] in Hrun. apply Ok_inj in Hrun. subst r.
  cbn [sr_segmentation sr_stream].
  apply (read_outer_count _ Hw) with (k := 0) in Hdec;
    [|unfold decoder_dense; lia|lia|lia].
  destruct Hdec as (ws & vs & -> & -> & Hwords & Hcount).
  exists ws, vs. split; [reflexivity|]. split; [reflexivity|].
  split; [lia|].
  rewrite Hwords, Z.sub_0_r.
  apply Z.div_unique
    with (r := 32 * ceil_div (N * numberOfBitsPerSegment S) 32
               - numberOfBitsPerSegment S * Z.of_nat (length vs));
    lia.
Qed.

Lemma decoded_count_dense_witness :
  exists ws vs,
    [I32 591677064; I32 147919266; F64 d_one]
    = map I32 ws ++ [F64 d_one] /\
    scenarioB ++ [0] = [] ++ vs /\
    Z.of_nat (length ws) = ceil_div (20 * numberOfBitsPerSegment 5) 32 /\
    Z.of_nat (length vs)
    = 32 * Z.of_nat (length ws) / numberOfBitsPerSegment 5.
Proof.
  refine (decoded_count_dense false 20 5
            [I32 591677064; I32 147919266; F64 d_one] []
            {| sr_return := 16; sr_stream := [F64 d_one];
               sr_segmentation := scenarioB ++ [0];
               sr_numberOfVertices := 20; sr_numberOfSegments := 5 |}
            _ _ _ _).
  - lia.
  - lia.
  - lia.
  - vm_compute. reflexivity.
Defined.
